(** * Cantus firmus generator: a shallow embedding of [01_cantus_firmus.py]

    The development follows the Python class [CantusFirmus] method by
    method.  Python integers are [Z]; Python lists and tuples of integers are
    [list Z]; the attributes of the object live in a record; methods are
    computations in a state-and-exception monad in which the state survives a
    raised exception, as the attributes of a Python object do.  The module
    [random] is an entropy tape read through a cursor, so that every
    statement quantified over tapes covers every run of the program. *)

From Stdlib Require Import ZArith List Bool Lia Arith.
From Stdlib Require String Ascii DecimalString DecimalZ DecimalPos.
Import ListNotations.
Open Scope Z_scope.

(** ** Exceptions and results *)

(** The three [raise Exception(...)] sites of the class are told apart by
    their role; the remaining constructors are the built-in exceptions that
    the list and integer operations used by the class can raise. *)
Inductive exn : Type :=
| ConfigurationError   (* "length should be between 8 and 16" *)
| ExhaustionError      (* "Sequence takes too long to generate or ..." *)
| InvalidStateError    (* "You should call 'make_notes' method first" *)
| IndexError
| ValueError
| TypeError.

(** [OutOfFuel] is the outcome of a loop model whose fuel ran out; it is
    shown below never to be the outcome of [make_notes]. *)
Inductive result (A : Type) : Type :=
| Ok (a : A)
| Raise (e : exn)
| OutOfFuel.

Arguments Ok {A} a.
Arguments Raise {A} e.
Arguments OutOfFuel {A}.

Definition rbind {A B} (r : result A) (f : A -> result B) : result B :=
  match r with
  | Ok a => f a
  | Raise e => Raise e
  | OutOfFuel => OutOfFuel
  end.

(** ** Python built-ins on lists *)

Module Py.

Definition len {A} (l : list A) : Z := Z.of_nat (length l).

(** [l[i]], negative indices counting from the end. *)
Definition getitem {A} (l : list A) (i : Z) : result A :=
  let j := if i <? 0 then i + len l else i in
  if (j <? 0) || (len l <=? j) then Raise IndexError
  else match nth_error l (Z.to_nat j) with
       | Some x => Ok x
       | None => Raise IndexError
       end.

(** Bound of a slice with step 1: shifted when negative, then clamped. *)
Definition clamp (n i : Z) : Z :=
  if i <? 0 then Z.max 0 (i + n) else Z.min i n.

(** [l[i:j]]. *)
Definition slice {A} (l : list A) (i j : Z) : list A :=
  let a := clamp (len l) i in
  let b := clamp (len l) j in
  firstn (Z.to_nat (b - a)) (skipn (Z.to_nat a) l).

(** [range(a, b)]. *)
Definition range (a b : Z) : list Z :=
  map (fun k => a + Z.of_nat k) (seq 0 (Z.to_nat (b - a))).

(** [max(l)] and [min(l)]: [ValueError] on the empty list. *)
Definition max (l : list Z) : result Z :=
  match l with
  | [] => Raise ValueError
  | x :: t => Ok (fold_left Z.max t x)
  end.

Definition min (l : list Z) : result Z :=
  match l with
  | [] => Raise ValueError
  | x :: t => Ok (fold_left Z.min t x)
  end.

(** [l.count(x)]. *)
Definition count {A} (eq_dec : forall a b : A, {a = b} + {a <> b})
           (l : list A) (x : A) : Z :=
  Z.of_nat (count_occ eq_dec l x).

(** [l.index(x)]: the first position holding [x]. *)
Fixpoint index_from (l : list Z) (x : Z) (k : Z) : result Z :=
  match l with
  | [] => Raise ValueError
  | y :: t => if Z.eqb y x then Ok k else index_from t x (k + 1)
  end.

Definition index (l : list Z) (x : Z) : result Z := index_from l x 0.

(** [x in l]. *)
Definition contains (x : Z) (l : list Z) : bool :=
  existsb (Z.eqb x) l.

(** Equality of lists of integers, [==]. *)
Definition list_eqb (a b : list Z) : bool :=
  if list_eq_dec Z.eq_dec a b then true else false.

End Py.

(** ** The scale tables of [common/scales.py] *)

Definition MAJOR_SCALE : list Z := [0; 2; 4; 5; 7; 9; 11].
Definition MAJOR_HARMONIC_SCALE : list Z := [0; 2; 4; 5; 7; 8; 11].
Definition MAJOR_MELODIC_SCALE : list Z := [0; 2; 4; 5; 7; 8; 10].
Definition MINOR_SCALE : list Z := [0; 2; 3; 5; 7; 8; 10].
Definition MINOR_HARMONIC_SCALE : list Z := [0; 2; 3; 5; 7; 8; 11].
Definition MINOR_MELODIC_SCALE : list Z := [0; 2; 3; 5; 7; 9; 11].

Definition SCALES : list (list Z) :=
  [MAJOR_SCALE; MAJOR_HARMONIC_SCALE; MAJOR_MELODIC_SCALE;
   MINOR_SCALE; MINOR_HARMONIC_SCALE; MINOR_MELODIC_SCALE].

(** ** The object and its world *)

(** The attributes set by [__init__]; [None] is Python's [None]. *)
Record CantusFirmus : Type := mkCantusFirmus {
  _length : option Z;
  _scale : option (list Z);
  _degrees : list Z;
  _intervals : list Z;
  _directions : list Z;
  _cycles : Z
}.

Definition MAX_RANGE : Z := 7.
Definition MAX_CYCLES : Z := 100000.

(** [CantusFirmus()]. *)
Definition __init__ : CantusFirmus :=
  {| _length := None; _scale := None; _degrees := [];
     _intervals := []; _directions := []; _cycles := 0 |}.

(** The state a method runs in: the object, and the entropy consumed by
    [random.choice]: draw number [cursor] takes the value [tape cursor]. *)
Record World : Type := mkWorld {
  self : CantusFirmus;
  tape : nat -> nat;
  cursor : nat
}.

(** ** The monad of methods *)

Definition M (A : Type) : Type := World -> result A * World.

Definition ret {A} (a : A) : M A := fun w => (Ok a, w).

Definition bind {A B} (m : M A) (f : A -> M B) : M B :=
  fun w =>
    match m w with
    | (Ok a, w') => f a w'
    | (Raise e, w') => (Raise e, w')
    | (OutOfFuel, w') => (OutOfFuel, w')
    end.

Definition raise {A} (e : exn) : M A := fun w => (Raise e, w).

Definition out_of_fuel {A} : M A := fun w => (OutOfFuel, w).

(** A pure, possibly failing, expression evaluated in the current state. *)
Definition lift {A} (r : result A) : M A := fun w => (r, w).

Definition get_self : M CantusFirmus := fun w => (Ok (self w), w).

Definition modify_self (f : CantusFirmus -> CantusFirmus) : M unit :=
  fun w => (Ok tt, {| self := f (self w); tape := tape w; cursor := cursor w |}).

Declare Scope monad_scope.
Delimit Scope monad_scope with monad.
Notation "x <- m ;; k" := (bind m (fun x => k))
  (at level 61, m at next level, right associativity) : monad_scope.
Notation "m ;; k" := (bind m (fun _ => k))
  (at level 61, right associativity) : monad_scope.
Open Scope monad_scope.

(** [for x in xs: body x]. *)
Fixpoint for_each {A} (xs : list A) (body : A -> M unit) : M unit :=
  match xs with
  | [] => ret tt
  | x :: rest => body x ;; for_each rest body
  end.

(** [random.choice(xs)]: some element of [xs], selected by the next draw. *)
Definition random_choice (xs : list Z) : M Z :=
  fun w =>
    let r := tape w (cursor w) in
    let w' := {| self := self w; tape := tape w; cursor := S (cursor w) |} in
    match nth_error xs (Nat.modulo r (length xs)) with
    | Some x => (Ok x, w')
    | None => (Raise IndexError, w')
    end.

(** Attribute assignments. *)
Definition set_length (v : Z) (s : CantusFirmus) : CantusFirmus :=
  {| _length := Some v; _scale := _scale s; _degrees := _degrees s;
     _intervals := _intervals s; _directions := _directions s;
     _cycles := _cycles s |}.

Definition set_scale (v : list Z) (s : CantusFirmus) : CantusFirmus :=
  {| _length := _length s; _scale := Some v; _degrees := _degrees s;
     _intervals := _intervals s; _directions := _directions s;
     _cycles := _cycles s |}.

Definition set_degrees (v : list Z) (s : CantusFirmus) : CantusFirmus :=
  {| _length := _length s; _scale := _scale s; _degrees := v;
     _intervals := _intervals s; _directions := _directions s;
     _cycles := _cycles s |}.

Definition set_intervals (v : list Z) (s : CantusFirmus) : CantusFirmus :=
  {| _length := _length s; _scale := _scale s; _degrees := _degrees s;
     _intervals := v; _directions := _directions s;
     _cycles := _cycles s |}.

Definition set_directions (v : list Z) (s : CantusFirmus) : CantusFirmus :=
  {| _length := _length s; _scale := _scale s; _degrees := _degrees s;
     _intervals := _intervals s; _directions := v;
     _cycles := _cycles s |}.

Definition set_cycles (v : Z) (s : CantusFirmus) : CantusFirmus :=
  {| _length := _length s; _scale := _scale s; _degrees := _degrees s;
     _intervals := _intervals s; _directions := _directions s;
     _cycles := v |}.

(** ** The sequence generator *)

(** [_choose_direction]: after a leap, turn round (rule 11). *)
Definition _choose_direction (current_note_index : Z) : M Z :=
  s <- get_self ;;
  after_leap <-
    (if current_note_index >? 1 then
       previous <- lift (Py.getitem (_intervals s) (current_note_index - 1)) ;;
       ret (Z.abs previous >? 2)
     else ret false) ;;
  if after_leap : bool then
    d <- lift (Py.getitem (_directions s) (current_note_index - 1)) ;;
    ret (d * -1)
  else
    random_choice [1; -1].

(** [_choose_interval]: no more than two leaps in a row (rule 12). *)
Definition _choose_interval (current_note_index : Z) : M Z :=
  s <- get_self ;;
  two_leaps <-
    (if current_note_index >? 1 then
       i1 <- lift (Py.getitem (_intervals s) (current_note_index - 1)) ;;
       if Z.abs i1 >? 2 then
         i2 <- lift (Py.getitem (_intervals s) (current_note_index - 2)) ;;
         ret (Z.abs i2 >? 2)
       else ret false
     else ret false) ;;
  let intervals := if two_leaps : bool then [1; 2] else [1; 2; 3] in
  random_choice intervals.

(** [_make_next_note]. *)
Definition _make_next_note (current_note_index : Z) : M Z :=
  interval <- _choose_interval current_note_index ;;
  direction <- _choose_direction current_note_index ;;
  let interval := interval * direction in
  s <- get_self ;;
  previous_note <- lift (Py.getitem (_degrees s) (current_note_index - 1)) ;;
  let note := previous_note + interval in
  modify_self (fun s => set_degrees (_degrees s ++ [note]) s) ;;
  modify_self (fun s => set_intervals (_intervals s ++ [interval]) s) ;;
  modify_self (fun s => set_directions (_directions s ++ [direction]) s) ;;
  ret note.

(** ** The rule validator *)

(** Sequencing of pure, possibly failing, expressions. *)
Notation "x <~ r ;; k" := (rbind r (fun x => k))
  (at level 61, r at next level, right associativity) : monad_scope.

(** [self._length] where an integer is required. *)
Definition length_of (s : CantusFirmus) : result Z :=
  match _length s with
  | Some n => Ok n
  | None => Raise TypeError
  end.

(** Rule 3: the sequence ends on the tonic. *)
Definition _check_rule_3 (s : CantusFirmus) : result bool :=
  last_note <~ Py.getitem (_degrees s) (-1) ;;
  Ok (last_note =? 0).

(** Rule 4: the final tonic is approached by step. *)
Definition _check_rule_4 (s : CantusFirmus) : result bool :=
  penultimate <~ Py.getitem (_degrees s) (-2) ;;
  Ok (Py.contains penultimate [1; -1; 6; -6]).

(** Rule 6: the range is at most [MAX_RANGE]. *)
Definition _check_rule_6 (s : CantusFirmus) : result bool :=
  lowest_note <~ Py.min (_degrees s) ;;
  highest_note <~ Py.max (_degrees s) ;;
  if Z.abs (highest_note - lowest_note) >? MAX_RANGE then Ok false
  else Ok true.

(** Rule 7: a single climax, in the second half, at least on the third
    step. *)
Definition _check_rule_7 (s : CantusFirmus) : result bool :=
  highest_note <~ Py.max (_degrees s) ;;
  if Py.count Z.eq_dec (_degrees s) highest_note >? 1 then Ok false
  else
    position <~ Py.index (_degrees s) highest_note ;;
    n <~ length_of s ;;
    if position <? n / 2 then Ok false
    else if highest_note <? 3 then Ok false
    else Ok true.

(** Rule 8: some window of three directions is a slope.  The loop counts
    the windows starting at [0 .. len(degrees) - num_steps - 1]. *)
Definition rule_8_step (num_steps : Z) (directions up_slope down_slope : list Z)
           (counts : Z * Z) (i : Z) : Z * Z :=
  let '(up_slopes_count, down_slopes_count) := counts in
  if Py.list_eqb (Py.slice directions i (i + num_steps)) up_slope
  then (up_slopes_count + 1, down_slopes_count)
  else if Py.list_eqb (Py.slice directions i (i + num_steps)) down_slope
  then (up_slopes_count, down_slopes_count + 1)
  else (up_slopes_count, down_slopes_count).

Definition _check_rule_8 (s : CantusFirmus) : result bool :=
  let num_steps := 3 in
  let up_slope := repeat 1 (Z.to_nat num_steps) in
  let down_slope := repeat (-1) (Z.to_nat num_steps) in
  let '(up_slopes_count, down_slopes_count) :=
    fold_left (rule_8_step num_steps (_directions s) up_slope down_slope)
              (Py.range 0 (Py.len (_degrees s) - num_steps)) (0, 0) in
  Ok ((up_slopes_count >? 0) || (down_slopes_count >? 0)).

(** Rule 10: no motive (two consecutive notes) occurs twice. *)
Definition motives_of (degrees : list Z) (n motive_length : Z)
  : list (list Z) :=
  map (fun i => Py.slice degrees i (i + motive_length))
      (Py.range 0 (n - motive_length + 1)).

Fixpoint rule_10_loop (motives entries : list (list Z)) : bool :=
  match entries with
  | [] => true
  | entry :: rest =>
      if Py.count (list_eq_dec Z.eq_dec) motives entry >? 1 then false
      else rule_10_loop motives rest
  end.

Definition _check_rule_10 (s : CantusFirmus) : result bool :=
  let motive_length := 2 in
  n <~ length_of s ;;
  let motives := motives_of (_degrees s) n motive_length in
  Ok (rule_10_loop motives motives).

(** Rule 13: in the major scale the leading tone progresses to the tonic. *)
Fixpoint rule_13_loop (degrees : list Z) (indices : list Z) : result bool :=
  match indices with
  | [] => Ok true
  | i :: rest =>
      d <~ Py.getitem degrees i ;;
      unresolved_below <~
        (if d =? -1 then
           next <~ Py.getitem degrees (i + 1) ;; Ok (negb (next =? 0))
         else Ok false) ;;
      if unresolved_below : bool then Ok false
      else
        unresolved_above <~
          (if d =? 6 then
             next <~ Py.getitem degrees (i + 1) ;; Ok (negb (next =? 7))
           else Ok false) ;;
        if unresolved_above : bool then Ok false
        else rule_13_loop degrees rest
  end.

Definition scale_is (s : CantusFirmus) (scale : list Z) : bool :=
  match _scale s with
  | Some sc => Py.list_eqb sc scale
  | None => false
  end.

Definition _check_rule_13 (s : CantusFirmus) : result bool :=
  if scale_is s MAJOR_SCALE then
    n <~ length_of s ;;
    rule_13_loop (_degrees s) (Py.range 0 (n - 1))
  else Ok true.

(** [_check_rules]: the first failing rule rejects. *)
Definition _check_rules (s : CantusFirmus) : result bool :=
  r3 <~ _check_rule_3 s ;;
  if negb r3 then Ok false else
  r4 <~ _check_rule_4 s ;;
  if negb r4 then Ok false else
  r6 <~ _check_rule_6 s ;;
  if negb r6 then Ok false else
  r7 <~ _check_rule_7 s ;;
  if negb r7 then Ok false else
  r8 <~ _check_rule_8 s ;;
  if negb r8 then Ok false else
  r10 <~ _check_rule_10 s ;;
  if negb r10 then Ok false else
  r13 <~ _check_rule_13 s ;;
  if negb r13 then Ok false else
  Ok true.

(** ** The generation controller *)

(** The body of the [for] loop: [current_note = self._make_next_note(i)]. *)
Definition note_step (i : Z) : M unit := _make_next_note i ;; ret tt.

(** One pass of the body of the [while] loop up to the end of the [for]
    loop: a fresh attempt seeded with the tonic, then one generator step
    per remaining note. *)
Definition attempt : M unit :=
  modify_self (set_degrees [0]) ;;
  modify_self (set_intervals [0]) ;;
  modify_self (set_directions [0]) ;;
  s <- get_self ;;
  n <- lift (length_of s) ;;
  for_each (Py.range 1 n) note_step.

(** The rest of the body: validate, count the cycle. *)
Definition cycle : M bool :=
  attempt ;;
  s <- get_self ;;
  success <- lift (_check_rules s) ;;
  modify_self (fun s => set_cycles (_cycles s + 1) s) ;;
  ret success.

(** [while success is False: ...]. *)
Fixpoint while_not_success (fuel : nat) (success : bool) : M unit :=
  if success then ret tt
  else
    match fuel with
    | O => out_of_fuel
    | S fuel' =>
        s <- get_self ;;
        if _cycles s >? MAX_CYCLES then raise ExhaustionError
        else
          success' <- cycle ;;
          while_not_success fuel' success'
    end.

(** The loop body runs for the counter values [0 .. MAX_CYCLES] and the
    loop is entered once more to raise. *)
Definition make_notes_fuel : nat := Z.to_nat (MAX_CYCLES + 2).

(** [make_notes]; the final [print] has no effect on the object. *)
Definition make_notes (length : Z) (scale : list Z) : M unit :=
  if (length <? 8) || (length >? 16) then raise ConfigurationError
  else
    modify_self (set_length length) ;;
    modify_self (set_scale scale) ;;
    modify_self (set_cycles 0) ;;
    while_not_success make_notes_fuel false.

(** ** The pitch resolver *)

(** [self._scale[i]]. *)
Definition scale_at (s : CantusFirmus) (i : Z) : result Z :=
  match _scale s with
  | Some scale => Py.getitem scale i
  | None => Raise TypeError
  end.

(** The body of the loop of [get_notes]. *)
Definition note_of (s : CantusFirmus) (base_note degree : Z) : result Z :=
  if degree >? 6 then
    offset <~ scale_at s (degree - 7) ;; Ok (base_note + offset + 12)
  else if degree >=? 0 then
    offset <~ scale_at s degree ;; Ok (base_note + offset)
  else
    offset <~ scale_at s (7 + degree) ;; Ok (base_note + offset - 12).

Fixpoint get_notes_loop (s : CantusFirmus) (base_note : Z)
         (degrees : list Z) (result' : list Z) : result (list Z) :=
  match degrees with
  | [] => Ok result'
  | degree :: rest =>
      note <~ note_of s base_note degree ;;
      get_notes_loop s base_note rest (result' ++ [note])
  end.

(** [get_notes]. *)
Definition get_notes (base_note : Z) : M (list Z) :=
  s <- get_self ;;
  if Py.len (_degrees s) =? 0 then raise InvalidStateError
  else lift (get_notes_loop s base_note (_degrees s) []).

(** The index into the scale table that [note_of] uses for a degree. *)
Definition scale_index (degree : Z) : Z :=
  if degree >? 6 then degree - 7
  else if degree >=? 0 then degree
  else 7 + degree.

(** ** Worlds and tapes used in examples *)

Definition fresh_world (t : nat -> nat) : World :=
  {| self := __init__; tape := t; cursor := 0%nat |}.

(** A tape that replays a finite list of draws and then repeats [0]. *)
Definition tape_of (draws : list nat) : nat -> nat :=
  fun k => nth k draws 0%nat.

(** * Notions used in the statements *)

(** ** Draws and the choices of the generator *)

(** A leap is an interval of a fourth or more. *)
Definition leap (interval : Z) : bool := Z.abs interval >? 2.

Definition draw (w : World) : nat := tape w (cursor w).

Definition advance (w : World) : World :=
  {| self := self w; tape := tape w; cursor := S (cursor w) |}.

(** The magnitudes [_choose_interval] draws from, at note [n]. *)
Definition interval_choices (intervals : list Z) (n : nat) : list Z :=
  if (2 <=? n)%nat && leap (nth (n - 1) intervals 0)
     && leap (nth (n - 2) intervals 0)
  then [1; 2] else [1; 2; 3].

(** The three [append]s of [_make_next_note]. *)
Definition push_note (note interval direction : Z) (s : CantusFirmus)
  : CantusFirmus :=
  set_directions (_directions s ++ [direction])
    (set_intervals (_intervals s ++ [interval])
       (set_degrees (_degrees s ++ [note]) s)).

(** ** Well-formed attempts *)

(** What the generator guarantees about note [i >= 1]. *)
Record step_ok (degrees intervals directions : list Z) (i : nat) : Prop := {
  so_direction : nth i directions 0 = 1 \/ nth i directions 0 = -1;
  so_magnitude : 1 <= Z.abs (nth i intervals 0) <= 3;
  so_sign : nth i intervals 0 = Z.abs (nth i intervals 0) * nth i directions 0;
  so_degree : nth i degrees 0 = nth (i - 1) degrees 0 + nth i intervals 0;
  so_recover :
    (2 <= i)%nat -> leap (nth (i - 1) intervals 0) = true ->
    nth i directions 0 = - nth (i - 1) directions 0;
  so_two_leaps :
    (2 <= i)%nat -> leap (nth (i - 1) intervals 0) = true ->
    leap (nth (i - 2) intervals 0) = true ->
    leap (nth i intervals 0) = false
}.

Record generated (s : CantusFirmus) : Prop := {
  gen_nonempty : (1 <= length (_degrees s))%nat;
  gen_intervals : length (_intervals s) = length (_degrees s);
  gen_directions : length (_directions s) = length (_degrees s);
  gen_tonic : nth 0 (_degrees s) 0 = 0;
  gen_interval0 : nth 0 (_intervals s) 0 = 0;
  gen_direction0 : nth 0 (_directions s) 0 = 0;
  gen_steps :
    forall i, (1 <= i < length (_degrees s))%nat ->
              step_ok (_degrees s) (_intervals s) (_directions s) i
}.

(** The attributes a generator step leaves alone. *)
Definition same_settings (s s' : CantusFirmus) : Prop :=
  _length s' = _length s /\ _scale s' = _scale s /\ _cycles s' = _cycles s.

(** A full attempt: the three lists have the requested length. *)
Record completed (s : CantusFirmus) (L : Z) : Prop := {
  cmp_length : _length s = Some L;
  cmp_degrees : Py.len (_degrees s) = L;
  cmp_intervals : Py.len (_intervals s) = L;
  cmp_directions : Py.len (_directions s) = L;
  cmp_range : 8 <= L <= 16
}.

Definition all_rules_hold (s : CantusFirmus) : Prop :=
  _check_rule_3 s = Ok true /\ _check_rule_4 s = Ok true /\
  _check_rule_6 s = Ok true /\ _check_rule_7 s = Ok true /\
  _check_rule_8 s = Ok true /\ _check_rule_10 s = Ok true /\
  _check_rule_13 s = Ok true.

(** An accepted attempt: full, built by the generator, passing the rules. *)
Record accepted (s : CantusFirmus) (L : Z) : Prop := {
  acc_completed : completed s L;
  acc_generated : generated s;
  acc_rules : _check_rules s = Ok true
}.

(** ** The rules and the pitches in the words of the specification *)

Definition is_maximum (l : list Z) (m : Z) : Prop :=
  In m l /\ forall x, In x l -> x <= m.

Definition occurs_once_at (l : list Z) (m : Z) (i : nat) : Prop :=
  nth_error l i = Some m /\ forall j, nth_error l j = Some m -> j = i.

(** The maximum occurs exactly once, at or after the midpoint, and is at
    least 3. *)
Definition single_climax (degrees : list Z) (L : Z) : Prop :=
  exists m i,
    is_maximum degrees m /\ occurs_once_at degrees m i /\
    L / 2 <= Z.of_nat i /\ 3 <= m.

(** Directions [i], [i+1], [i+2] all up or all down. *)
Definition same_sign_run (directions : list Z) (i : nat) : Prop :=
  (nth i directions 0 = 1 /\ nth (i + 1) directions 0 = 1 /\
   nth (i + 2) directions 0 = 1) \/
  (nth i directions 0 = -1 /\ nth (i + 1) directions 0 = -1 /\
   nth (i + 2) directions 0 = -1).

(** In the words of the specification: a run of three among the real
    directions [1 .. L-1], that is, starting at some [1 <= i <= L-3]. *)
Definition directional_coherence (directions : list Z) (L : Z) : Prop :=
  exists i : nat, 1 <= Z.of_nat i <= L - 3 /\ same_sign_run directions i.

(** The windows the loop of [_check_rule_8] looks at. *)
Definition scanned_coherence (directions : list Z) (L : Z) : Prop :=
  exists i : nat, 0 <= Z.of_nat i <= L - 4 /\ same_sign_run directions i.

Definition window_matches (directions : list Z) (i : Z) : Prop :=
  Py.slice directions i (i + 3) = [1; 1; 1] \/
  Py.slice directions i (i + 3) = [-1; -1; -1].

(** The motive starting at note [i]. *)
Definition motive_at (degrees : list Z) (i : nat) : Z * Z :=
  (nth i degrees 0, nth (S i) degrees 0).

(** In the words of the specification: the windows of two consecutive
    degrees, at starts [0 .. L-2], are pairwise distinct as ordered pairs. *)
Definition no_repeated_motive (degrees : list Z) (L : Z) : Prop :=
  forall i j : nat,
    Z.of_nat i + 2 <= L -> Z.of_nat j + 2 <= L -> i <> j ->
    motive_at degrees i <> motive_at degrees j.

(** The pitch of a degree, in the words of the specification. *)
Definition spec_pitch (scale : list Z) (base d : Z) : Z :=
  if 6 <? d then base + nth (Z.to_nat (d - 7)) scale 0 + 12
  else if 0 <=? d then base + nth (Z.to_nat d) scale 0
  else base + nth (Z.to_nat (7 + d)) scale 0 - 12.

(** The octave correction [note_of] applies to a degree. *)
Definition octave_shift (degree : Z) : Z :=
  if degree >? 6 then 12
  else if degree >=? 0 then 0
  else -12.

(** ** The passes of the retry loop *)

(** The world in which the loop of [make_notes] starts. *)
Definition start_world (length : Z) (scale : list Z) (w : World) : World :=
  {| self := set_cycles 0 (set_scale scale (set_length length (self w)));
     tape := tape w; cursor := cursor w |}.

(** One pass of the loop body: the world it leaves and its verdict. *)
Definition cycle_world (w : World) : World := snd (cycle w).

Definition cycle_accepts (w : World) : bool :=
  match fst (cycle w) with
  | Ok true => true
  | _ => false
  end.

(** The world after [k] passes, whatever their verdicts. *)
Fixpoint after_cycles (k : nat) (w : World) : World :=
  match k with
  | O => w
  | S k' => after_cycles k' (cycle_world w)
  end.

(** The verdict on the attempt made when the counter reads [k]. *)
Definition accepted_at (k : nat) (w : World) : bool :=
  cycle_accepts (after_cycles k w).

(** ** Concrete runs *)

(** The tape on which every draw selects the first choice. *)
Definition zero_tape : nat -> nat := fun _ => 0%nat.

(** Draws that make the generator climb [0 1 2 3 4] and come down
    [2 1 0]: each step draws a magnitude, then (unless forced) a direction. *)
Definition climb_tape : nat -> nat :=
  tape_of [0; 0; 0; 0; 0; 0; 0; 0; 1; 1; 0; 1; 0; 1]%nat.

Definition climb_attempt : CantusFirmus :=
  self (snd (attempt (start_world 8 MAJOR_SCALE (fresh_world climb_tape)))).

(** Fourteen draws for the rejected scale run [0 1 ... 7], then the draws
    of [climb_tape]: the second attempt is accepted. *)
Definition retry_tape : nat -> nat :=
  tape_of (repeat 0%nat 14
           ++ [0; 0; 0; 0; 0; 0; 0; 0; 1; 1; 0; 1; 0; 1]%nat).

(** Draws that start with two leaps, [+3] then the forced [-3]: the third
    magnitude is then drawn among 1 and 2 only. *)
Definition leaping_tape : nat -> nat := tape_of [2; 0; 2; 2]%nat.

(** Draws for the 15 notes [0 1 2 0 2 -1 1 3 1 -2 0 -3 -2 -1 0]: the only
    run of three equal directions is the final ascent to the tonic. *)
Definition late_slope_tape : nat -> nat :=
  tape_of [0; 0; 0; 0; 1; 1; 1; 0; 2; 1; 1; 1; 0; 1; 1; 2; 1; 1; 2; 1; 0;
           0; 0; 0; 0]%nat.

Definition late_slope_attempt : CantusFirmus :=
  self (snd (attempt (start_world 15 MINOR_SCALE
                                  (fresh_world late_slope_tape)))).

(** Draws for the 9 notes [0 2 4 2 0 2 4 2 0]. *)
Definition crafted_tape : nat -> nat :=
  tape_of [1; 0; 1; 0; 1; 1; 1; 1; 1; 0; 1; 0; 1; 1; 1; 1]%nat.

Definition crafted_attempt : CantusFirmus :=
  self (snd (attempt (start_world 9 MAJOR_SCALE
                                  (fresh_world crafted_tape)))).

(** ** Notions for the further properties *)

(** Rule 13 in the major scale: over the positions [0 .. L-2], a degree
    [-1] is followed by [0] and a degree [6] by [7]. *)
Definition leading_tone_resolves (degrees : list Z) (L : Z) : Prop :=
  forall i : nat,
    Z.of_nat i + 1 < L ->
    (nth i degrees 0 = -1 -> nth (S i) degrees 0 = 0) /\
    (nth i degrees 0 = 6 -> nth (S i) degrees 0 = 7).

(** Draws for the 8 notes [0 1 2 3 4 2 -1 0], accepted in the major scale:
    the leading tone is reached by a leap and resolves to the tonic. *)
Definition leading_tone_tape : nat -> nat :=
  tape_of [0; 0; 0; 0; 0; 0; 0; 0; 1; 1; 2; 1; 0]%nat.

(** The world a pass of the loop starts from once its three lists are
    reset. *)
Definition seeded (w : World) : World :=
  {| self := set_directions [0] (set_intervals [0] (set_degrees [0] (self w)));
     tape := tape w; cursor := cursor w |}.

Definition leading_tone_attempt : CantusFirmus :=
  self (snd (attempt (start_world 8 MAJOR_SCALE
                                  (fresh_world leading_tone_tape)))).

(** ** Note names *)

Module NoteName.
Import String Ascii.
Local Open Scope string_scope.

(** [str(n)] for an integer: its decimal digits, with a sign if negative. *)
Definition py_str (n : Z) : string :=
  DecimalString.NilZero.string_of_int (Z.to_int n).

(** [d.get(key, default)] on a dictionary given by its items. *)
Fixpoint dict_get (d : list (Z * string)) (key : Z) (default : string)
  : string :=
  match d with
  | [] => default
  | (k, v) :: rest => if (k =? key)%Z then v else dict_get rest key default
  end.

(** The dictionary literal of [note_to_letter]. *)
Definition LETTERS : list (Z * string) :=
  [(0, "C"); (1, "C#"); (2, "D"); (3, "D#"); (4, "E"); (5, "F");
   (6, "F#"); (7, "G"); (8, "G#"); (9, "A"); (10, "A#"); (11, "B")].

(** [note_to_letter]: floor division and modulo by 12, then the f-string
    [f"{letter}{octave}"]. *)
Definition note_to_letter (note : Z) : string :=
  let octave := note / 12 in
  let letter := dict_get LETTERS (note mod 12) "?" in
  letter ++ py_str octave.

End NoteName.

(** ** The MIDI device of [common/device.py] and the script *)

Module Midi.
Import String Ascii NoteName.
Local Open Scope string_scope.

(** The names of the General MIDI Level 1 sound set. *)
Definition GM_INSTRUMENTS : list string :=
  ["Acoustic Grand Piano"; "Bright Acoustic Piano"; "Electric Grand Piano";
   "Honky-tonk Piano"; "Electric Piano 1"; "Electric Piano 2"; "Harpsichord";
   "Clavinet"; "Celesta"; "Glockenspiel"; "Music Box"; "Vibraphone";
   "Marimba"; "Xylophone"; "Tubular Bells"; "Dulcimer"; "Drawbar Organ";
   "Percussive Organ"; "Rock Organ"; "Church Organ"; "Reed Organ";
   "Accordion"; "Harmonica"; "Tango Accordion"; "Acoustic Guitar (nylon)";
   "Acoustic Guitar (steel)"; "Electric Guitar (jazz)";
   "Electric Guitar (clean)"; "Electric Guitar (muted)"; "Overdriven Guitar";
   "Distortion Guitar"; "Guitar harmonics"; "Acoustic Bass";
   "Electric Bass (finger)"; "Electric Bass (pick)"; "Fretless Bass";
   "Slap Bass 1"; "Slap Bass 2"; "Synth Bass 1"; "Synth Bass 2"; "Violin";
   "Viola"; "Cello"; "Contrabass"; "Tremolo Strings"; "Pizzicato Strings";
   "Orchestral Harp"; "Timpani"; "String Ensemble 1"; "String Ensemble 2";
   "Synth Strings 1"; "Synth Strings 2"; "Choir Aahs"; "Voice Oohs";
   "Synth Voice"; "Orchestra Hit"; "Trumpet"; "Trombone"; "Tuba";
   "Muted Trumpet"; "French Horn"; "Brass Section"; "Synth Brass 1";
   "Synth Brass 2"; "Soprano Sax"; "Alto Sax"; "Tenor Sax"; "Baritone Sax";
   "Oboe"; "English Horn"; "Bassoon"; "Clarinet"; "Piccolo"; "Flute";
   "Recorder"; "Pan Flute"; "Blown Bottle"; "Shakuhachi"; "Whistle";
   "Ocarina"; "Lead 1 (square)"; "Lead 2 (sawtooth)"; "Lead 3 (calliope)";
   "Lead 4 (chiff)"; "Lead 5 (charang)"; "Lead 6 (voice)"; "Lead 7 (fifths)";
   "Lead 8 (bass + lead)"; "Pad 1 (new age)"; "Pad 2 (warm)";
   "Pad 3 (polysynth)"; "Pad 4 (choir)"; "Pad 5 (bowed)"; "Pad 6 (metallic)";
   "Pad 7 (halo)"; "Pad 8 (sweep)"; "FX 1 (rain)"; "FX 2 (soundtrack)";
   "FX 3 (crystal)"; "FX 4 (atmosphere)"; "FX 5 (brightness)";
   "FX 6 (goblins)"; "FX 7 (echoes)"; "FX 8 (sci-fi)"; "Sitar"; "Banjo";
   "Shamisen"; "Koto"; "Kalimba"; "Bag pipe"; "Fiddle"; "Shanai";
   "Tinkle Bell"; "Agogo"; "Steel Drums"; "Woodblock"; "Taiko Drum";
   "Melodic Tom"; "Synth Drum"; "Reverse Cymbal"; "Guitar Fret Noise";
   "Breath Noise"; "Seashore"; "Bird Tweet"; "Telephone Ring"; "Helicopter";
   "Applause"; "Gunshot"].

(** The library [rtmidi] is not part of the program.  What its [MidiOut]
    does is a parameter of the model: whether [MidiOut()] and
    [open_port(port)] return, the names [get_ports()] returns if it
    returns, and whether [send_message(message)] transmits the message or
    raises, given the messages transmitted before. *)
Record MidiOut : Type := mkMidiOut {
  open_port : Z -> bool;
  get_ports : option (list string);
  accepts : list (list Z) -> list Z -> bool
}.

(** The state of the output behind [self.midi_out]: the messages
    transmitted, oldest first. *)
Definition Port : Type := list (list Z).

(** How a call that reaches into rtmidi ends: as the program's own code
    does, or with an exception raised inside the library. *)
Inductive outcome (A : Type) : Type :=
| Python (r : result A)
| RtMidiError.

Arguments Python {A} r.
Arguments RtMidiError {A}.

(** Methods of [Device]: the state is the port. *)
Definition Dev (A : Type) : Type := Port -> outcome A * Port.

Definition and_then {A B} (m : Dev A) (k : A -> Dev B) : Dev B :=
  fun port =>
    match m port with
    | (Python (Ok a), port) => k a port
    | (Python (Raise e), port) => (Python (Raise e), port)
    | (Python OutOfFuel, port) => (Python OutOfFuel, port)
    | (RtMidiError, port) => (RtMidiError, port)
    end.

Fixpoint for_in {A} (xs : list A) (body : A -> Dev unit) : Dev unit :=
  match xs with
  | [] => fun port => (Python (Ok tt), port)
  | x :: rest => and_then (body x) (fun _ => for_in rest body)
  end.

(** [Device.__init__]: open the port, then format the log line, whose
    subscript of the port names can raise. *)
Definition init (midi_out : MidiOut) (port : Z) : outcome unit :=
  if open_port midi_out port then
    match get_ports midi_out with
    | Some available_ports =>
        Python (rbind (Py.getitem available_ports port) (fun _ => Ok tt))
    | None => RtMidiError
    end
  else RtMidiError.

(** [self.midi_out.send_message(message)]. *)
Definition send_message (midi_out : MidiOut) (message : list Z) : Dev unit :=
  fun port =>
    if accepts midi_out port message
    then (Python (Ok tt), (port ++ [message])%list)
    else (RtMidiError, port).

(** [set_instrument]: bank select (MSB, LSB), then the program change; the
    log line is formatted last, and its subscript can raise. *)
Definition set_instrument (midi_out : MidiOut)
           (channel instrument msb lsb : Z) : Dev unit :=
  and_then (send_message midi_out [176 + channel; 0; msb]) (fun _ =>
  and_then (send_message midi_out [176 + channel; 32; lsb]) (fun _ =>
  and_then (send_message midi_out [192 + channel; instrument; 0]) (fun _ =>
  fun port =>
    (Python (rbind (Py.getitem GM_INSTRUMENTS instrument) (fun _ => Ok tt)),
     port)))).

Definition note_on (midi_out : MidiOut) (channel note velocity : Z)
  : Dev unit :=
  send_message midi_out [144 + channel; note; velocity].

Definition note_off (midi_out : MidiOut) (channel note velocity : Z)
  : Dev unit :=
  send_message midi_out [128 + channel; note; velocity].

(** [all_notes_off]: one message per channel in [range(0, 16)]. *)
Definition all_notes_off (midi_out : MidiOut) : Dev unit :=
  for_in (Py.range 0 16)
         (fun ch => send_message midi_out [176 + ch; 123; 0]).

(** [test_channel]; the pause between the two messages is not modelled. *)
Definition test_channel (midi_out : MidiOut) (channel : Z) : Dev unit :=
  let note := 60 in
  and_then (note_on midi_out channel note 127)
           (fun _ => note_off midi_out channel note 127).

(** The arguments the script reads from the command line. *)
Record Args : Type := mkArgs {
  length : Z;
  base_note : Z;
  major : bool;
  minor : bool
}.

(** How a run of the script ends; [Unbound] is the [NameError] of reading
    [scale] when neither flag has assigned it, [DiedInRtMidi] an exception
    raised inside the library. *)
Inductive ending : Type :=
| Finished
| Died (e : exn)
| DiedInRtMidi
| Unbound
| Unfinished.

(** What a run of the script leaves: how it ended, what each [print]
    wrote to the standard output, oldest first, and the messages
    transmitted to the port. *)
Record Run : Type := mkRun {
  status : ending;
  printed : list string;
  sent : Port
}.

Definition newline : string := String (ascii_of_nat 10) EmptyString.

Definition ending_of {A} (r : result A) : ending :=
  match r with
  | Ok _ => Finished
  | Raise e => Died e
  | OutOfFuel => Unfinished
  end.

Definition ending_of_outcome {A} (o : outcome A) : ending :=
  match o with
  | Python r => ending_of r
  | RtMidiError => DiedInRtMidi
  end.

(** The playing loop: print the name, sound the note, silence it; the
    pause between the two messages is not modelled.  An exception leaves
    the loop with what was printed and transmitted so far. *)
Fixpoint play (midi_out : MidiOut) (midi_notes : list Z)
         (text : list string) (port : Port)
  : outcome unit * list string * Port :=
  match midi_notes with
  | [] => (Python (Ok tt), text, port)
  | n :: rest =>
      let text := (text ++ [(note_to_letter n ++ " ")%string])%list in
      match and_then (note_on midi_out 0 n 127)
                     (fun _ => note_off midi_out 0 n 127) port with
      | (Python (Ok _), port) => play midi_out rest text port
      | (o, port) => (o, text, port)
      end
  end.

(** The script under [if __name__ == '__main__'], after the arguments are
    parsed; [midi_out] is the behaviour of rtmidi and [t] the tape of draws
    of the run.  The line printed by [make_notes] on success is emitted
    here. *)
Definition main (midi_out : MidiOut) (args : Args) (t : nat -> nat) : Run :=
  let scale := if major args then Some MAJOR_SCALE else None in
  let scale := if minor args then Some MINOR_SCALE else scale in
  match scale with
  | None => {| status := Unbound; printed := []; sent := [] |}
  | Some scale =>
      let cf := fresh_world t in
      match make_notes (length args) scale cf with
      | (Ok _, cf) =>
          let text :=
            ["Generated in " ++ py_str (_cycles (self cf)) ++ " cycles"
             ++ newline] in
          match get_notes (base_note args) cf with
          | (Ok midi_notes, _) =>
              match init midi_out 0 with
              | Python (Ok _) =>
                  match set_instrument midi_out 0 52 0 0 [] with
                  | (Python (Ok _), port) =>
                      match play midi_out midi_notes text port with
                      | (Python (Ok _), text, port) =>
                          {| status := Finished;
                             printed :=
                               (text ++ [(newline ++ newline)%string])%list;
                             sent := port |}
                      | (o, text, port) =>
                          {| status := ending_of_outcome o;
                             printed := text; sent := port |}
                      end
                  | (o, port) =>
                      {| status := ending_of_outcome o;
                         printed := text; sent := port |}
                  end
              | o =>
                  {| status := ending_of_outcome o;
                     printed := text; sent := [] |}
              end
          | (r, _) =>
              {| status := ending_of r; printed := text; sent := [] |}
          end
      | (r, _) => {| status := ending_of r; printed := []; sent := [] |}
      end
  end.

(** *** Notions for the statements about the device *)

(** The messages of a list that the driver transmits when they are sent
    one after the other: all up to the first it refuses. *)
Fixpoint transmitted (midi_out : MidiOut) (port : Port)
         (messages : list (list Z)) : list (list Z) :=
  match messages with
  | [] => []
  | m :: rest =>
      if accepts midi_out port m
      then m :: transmitted midi_out (port ++ [m])%list rest
      else []
  end.

Fixpoint accepts_all (midi_out : MidiOut) (port : Port)
         (messages : list (list Z)) : bool :=
  match messages with
  | [] => true
  | m :: rest =>
      accepts midi_out port m
      && accepts_all midi_out (port ++ [m])%list rest
  end.

(** A channel voice message: a status byte and two data bytes. *)
Definition midi_message (message : list Z) : bool :=
  match message with
  | [st; d1; d2] =>
      ((128 <=? st) && (st <=? 255) && (0 <=? d1) && (d1 <=? 127)
       && (0 <=? d2) && (d2 <=? 127))%Z
  | _ => false
  end.

(** The messages of the script for a list of pitches. *)
Definition script_messages (pitches : list Z) : list (list Z) :=
  ([[176; 0; 0]; [176; 32; 0]; [192; 52; 0]]
   ++ flat_map (fun n => [[144; n; 127]; [128; n; 127]]) pitches)%list.

(** A driver with one port that transmits the channel voice messages and
    refuses everything else, and a driver without any port. *)
Definition one_port : MidiOut :=
  {| open_port := fun port => (port =? 0)%Z;
     get_ports := Some ["Midi Through Port-0"];
     accepts := fun _ message => midi_message message |}.

Definition no_port : MidiOut :=
  {| open_port := fun _ => false;
     get_ports := Some [];
     accepts := fun _ _ => false |}.

End Midi.

(** * Facts about the built-ins *)

Section PyFacts.

Context {A : Type}.
Implicit Types (l : list A) (d : A).

Lemma getitem_nth l (i : nat) d :
  (i < length l)%nat -> Py.getitem l (Z.of_nat i) = Ok (nth i l d).
Proof.
  intros Hi. unfold Py.getitem, Py.len.
  destruct (Z.ltb_spec (Z.of_nat i) 0) as [Hneg|_]; [lia|].
  destruct (Z.ltb_spec (Z.of_nat i) 0) as [Hneg|_]; [lia|].
  destruct (Z.leb_spec (Z.of_nat (length l)) (Z.of_nat i)) as [Hge|_]; [lia|].
  cbn [orb]. rewrite Nat2Z.id.
  now rewrite (nth_error_nth' l d Hi).
Qed.

Lemma getitem_pos l (i : Z) d :
  0 <= i < Py.len l -> Py.getitem l i = Ok (nth (Z.to_nat i) l d).
Proof.
  intros Hi. unfold Py.len in Hi.
  rewrite <- (Z2Nat.id i) at 1 by lia.
  apply getitem_nth. lia.
Qed.

Lemma getitem_neg l (i : Z) d :
  - Py.len l <= i < 0 ->
  Py.getitem l i = Ok (nth (Z.to_nat (i + Py.len l)) l d).
Proof.
  intros Hi. unfold Py.getitem.
  destruct (Z.ltb_spec i 0) as [_|Hge]; [|lia].
  destruct (Z.ltb_spec (i + Py.len l) 0) as [Hlt|_]; [lia|].
  destruct (Z.leb_spec (Py.len l) (i + Py.len l)) as [Hle|_]; [lia|].
  cbn [orb].
  rewrite (nth_error_nth' l d); [reflexivity|].
  unfold Py.len in *. lia.
Qed.

Lemma skipn_nth_cons l (i : nat) d :
  (i < length l)%nat -> skipn i l = nth i l d :: skipn (S i) l.
Proof.
  revert i. induction l as [|a l IH]; intros [|i] Hi; cbn in *; try lia.
  - reflexivity.
  - apply IH. lia.
Qed.

(** A slice that lies inside the list. *)
Lemma slice_inside l (i k : nat) :
  (i + k <= length l)%nat ->
  Py.slice l (Z.of_nat i) (Z.of_nat i + Z.of_nat k) = firstn k (skipn i l).
Proof.
  intros Hik. unfold Py.slice, Py.clamp, Py.len.
  destruct (Z.ltb_spec (Z.of_nat i) 0) as [Hneg|_]; [lia|].
  destruct (Z.ltb_spec (Z.of_nat i + Z.of_nat k) 0) as [Hneg|_]; [lia|].
  rewrite !Z.min_l by lia.
  f_equal; [|f_equal]; lia.
Qed.

Lemma slice_pair l (i : nat) d :
  (S i < length l)%nat ->
  Py.slice l (Z.of_nat i) (Z.of_nat i + 2) = [nth i l d; nth (S i) l d].
Proof.
  intros Hi. change 2 with (Z.of_nat 2).
  rewrite slice_inside by lia.
  rewrite (skipn_nth_cons l i d) by lia.
  rewrite (skipn_nth_cons l (S i) d) by lia.
  reflexivity.
Qed.

Lemma slice_triple l (i : nat) d :
  (S (S i) < length l)%nat ->
  Py.slice l (Z.of_nat i) (Z.of_nat i + 3)
  = [nth i l d; nth (S i) l d; nth (S (S i)) l d].
Proof.
  intros Hi. change 3 with (Z.of_nat 3).
  rewrite slice_inside by lia.
  rewrite (skipn_nth_cons l i d) by lia.
  rewrite (skipn_nth_cons l (S i) d) by lia.
  rewrite (skipn_nth_cons l (S (S i)) d) by lia.
  reflexivity.
Qed.

End PyFacts.

Lemma range_empty (a b : Z) : b <= a -> Py.range a b = [].
Proof.
  intros H. unfold Py.range.
  replace (Z.to_nat (b - a)) with 0%nat by lia. reflexivity.
Qed.

Lemma range_cons (a b : Z) : a < b -> Py.range a b = a :: Py.range (a + 1) b.
Proof.
  intros H. unfold Py.range.
  replace (Z.to_nat (b - a)) with (S (Z.to_nat (b - (a + 1)))) by lia.
  cbn [seq map]. f_equal; [lia|].
  rewrite <- seq_shift, map_map.
  apply map_ext. intros k. lia.
Qed.

Lemma in_range (a b i : Z) : In i (Py.range a b) <-> a <= i < b.
Proof.
  unfold Py.range. rewrite in_map_iff. split.
  - intros (k & <- & Hk). apply in_seq in Hk. lia.
  - intros Hi. exists (Z.to_nat (i - a)). split; [lia|].
    apply in_seq. lia.
Qed.

(** [max] and [min] return a bound that is attained. *)
Lemma fold_max_spec (t : list Z) (x : Z) :
  In (fold_left Z.max t x) (x :: t) /\
  forall y, In y (x :: t) -> y <= fold_left Z.max t x.
Proof.
  revert x. induction t as [|a t IH]; intros x; cbn [fold_left].
  - split; [now left|]. intros y [<-|[]]. lia.
  - destruct (IH (Z.max x a)) as [Hin Hub]. split.
    + destruct Hin as [Heq|Hin].
      * rewrite <- Heq.
        destruct (Z.max_spec x a) as [[_ ->]|[_ ->]]; cbn; auto.
      * right. now right.
    + intros y Hy.
      assert (Hm : Z.max x a <= fold_left Z.max t (Z.max x a))
        by (apply Hub; now left).
      destruct Hy as [<-|[<-|Hy]]; try lia.
      apply Hub. now right.
Qed.

Lemma fold_min_spec (t : list Z) (x : Z) :
  In (fold_left Z.min t x) (x :: t) /\
  forall y, In y (x :: t) -> fold_left Z.min t x <= y.
Proof.
  revert x. induction t as [|a t IH]; intros x; cbn [fold_left].
  - split; [now left|]. intros y [<-|[]]. lia.
  - destruct (IH (Z.min x a)) as [Hin Hlb]. split.
    + destruct Hin as [Heq|Hin].
      * rewrite <- Heq.
        destruct (Z.min_spec x a) as [[_ ->]|[_ ->]]; cbn; auto.
      * right. now right.
    + intros y Hy.
      assert (Hm : fold_left Z.min t (Z.min x a) <= Z.min x a)
        by (apply Hlb; now left).
      destruct Hy as [<-|[<-|Hy]]; try lia.
      apply Hlb. now right.
Qed.

Lemma max_spec (l : list Z) :
  l <> [] ->
  exists m, Py.max l = Ok m /\ In m l /\ forall y, In y l -> y <= m.
Proof.
  destruct l as [|x t]; [congruence|]. intros _.
  exists (fold_left Z.max t x). split; [reflexivity|]. apply fold_max_spec.
Qed.

Lemma min_spec (l : list Z) :
  l <> [] ->
  exists m, Py.min l = Ok m /\ In m l /\ forall y, In y l -> m <= y.
Proof.
  destruct l as [|x t]; [congruence|]. intros _.
  exists (fold_left Z.min t x). split; [reflexivity|]. apply fold_min_spec.
Qed.

(** [index] finds the first occurrence. *)
Lemma index_from_spec (l : list Z) (x k : Z) :
  In x l ->
  exists i : nat,
    (i < length l)%nat /\ Py.index_from l x k = Ok (k + Z.of_nat i) /\
    nth i l 0 = x /\ forall j, (j < i)%nat -> nth j l 0 <> x.
Proof.
  revert k. induction l as [|y t IH]; intros k Hin; [destruct Hin|].
  cbn [Py.index_from]. destruct (Z.eqb_spec y x) as [->|Hne].
  - exists 0%nat. cbn [length nth]. split; [lia|]. split; [|split].
    + f_equal. lia.
    + reflexivity.
    + intros j Hj. lia.
  - destruct Hin as [Heq|Hin]; [congruence|].
    destruct (IH (k + 1) Hin) as (i & Hi & Hidx & Hnth & Hfirst).
    exists (S i). cbn [length nth]. split; [lia|]. split; [|split].
    + rewrite Hidx. f_equal. lia.
    + exact Hnth.
    + intros [|j] Hj; [exact Hne|]. apply Hfirst. lia.
Qed.

Lemma index_spec (l : list Z) (x : Z) :
  In x l ->
  exists i : nat,
    (i < length l)%nat /\ Py.index l x = Ok (Z.of_nat i) /\
    nth i l 0 = x /\ forall j, (j < i)%nat -> nth j l 0 <> x.
Proof.
  intros Hin. destruct (index_from_spec l x 0 Hin) as (i & H1 & H2 & H3 & H4).
  exists i. repeat split; auto.
Qed.

(** * The generator, step by step *)

(** The primitives of the monad, unfolded together when a method is run
    on a given world. *)
Create HintDb monad discriminated.
#[local] Hint Unfold bind ret raise lift get_self modify_self : monad.

Ltac run_monad := autounfold with monad.

Lemma random_choice_run (xs : list Z) (w : World) :
  xs <> [] ->
  random_choice xs w
  = (Ok (nth (Nat.modulo (draw w) (length xs)) xs 0), advance w).
Proof.
  intros Hxs. unfold random_choice, draw, advance.
  assert (Hlt : (Nat.modulo (tape w (cursor w)) (length xs) < length xs)%nat).
  { apply Nat.mod_upper_bound. destruct xs; [congruence|cbn; lia]. }
  now rewrite (nth_error_nth' xs 0 Hlt).
Qed.

Lemma random_choice_in (xs : list Z) (w : World) :
  xs <> [] ->
  exists x, In x xs /\ random_choice xs w = (Ok x, advance w).
Proof.
  intros Hxs. eexists. split; [|apply random_choice_run; exact Hxs].
  apply nth_In. apply Nat.mod_upper_bound.
  destruct xs; [congruence|cbn; lia].
Qed.

Lemma choose_interval_run (w : World) (n : nat) :
  length (_intervals (self w)) = n -> (1 <= n)%nat ->
  _choose_interval (Z.of_nat n) w
  = random_choice (interval_choices (_intervals (self w)) n) w.
Proof.
  intros Hlen Hn. unfold _choose_interval, interval_choices, leap. run_monad.
  destruct (Z.gtb_spec (Z.of_nat n) 1) as [Hgt|Hle].
  - replace (2 <=? n)%nat with true by (symmetry; apply Nat.leb_le; lia).
    replace (Z.of_nat n - 1) with (Z.of_nat (n - 1)) by lia.
    replace (Z.of_nat n - 2) with (Z.of_nat (n - 2)) by lia.
    rewrite (getitem_nth _ (n - 1) 0) by lia.
    cbn [andb].
    destruct (Z.abs (nth (n - 1) (_intervals (self w)) 0) >? 2); cbn [andb].
    + rewrite (getitem_nth _ (n - 2) 0) by lia.
      destruct (Z.abs (nth (n - 2) (_intervals (self w)) 0) >? 2); reflexivity.
    + reflexivity.
  - replace (2 <=? n)%nat with false by (symmetry; apply Nat.leb_gt; lia).
    reflexivity.
Qed.

Lemma choose_direction_run (w : World) (n : nat) :
  length (_intervals (self w)) = n ->
  length (_directions (self w)) = n -> (1 <= n)%nat ->
  _choose_direction (Z.of_nat n) w
  = if (2 <=? n)%nat && leap (nth (n - 1) (_intervals (self w)) 0)
    then (Ok (nth (n - 1) (_directions (self w)) 0 * -1), w)
    else random_choice [1; -1] w.
Proof.
  intros Hlen Hlen' Hn. unfold _choose_direction, leap. run_monad.
  destruct (Z.gtb_spec (Z.of_nat n) 1) as [Hgt|Hle].
  - replace (2 <=? n)%nat with true by (symmetry; apply Nat.leb_le; lia).
    replace (Z.of_nat n - 1) with (Z.of_nat (n - 1)) by lia.
    rewrite (getitem_nth _ (n - 1) 0) by lia.
    cbn [andb].
    destruct (Z.abs (nth (n - 1) (_intervals (self w)) 0) >? 2).
    + rewrite (getitem_nth _ (n - 1) 0) by lia. reflexivity.
    + reflexivity.
  - replace (2 <=? n)%nat with false by (symmetry; apply Nat.leb_gt; lia).
    reflexivity.
Qed.

(** ** The invariant of an attempt under construction *)

Lemma nth_snoc_old (l : list Z) (x : Z) (i : nat) :
  (i < length l)%nat -> nth i (l ++ [x]) 0 = nth i l 0.
Proof. intros H. now apply app_nth1. Qed.

Lemma nth_snoc_new (l : list Z) (x : Z) :
  nth (length l) (l ++ [x]) 0 = x.
Proof. rewrite app_nth2 by lia. now rewrite Nat.sub_diag. Qed.

Lemma step_ok_snoc (dg iv dr : list Z) (x y z : Z) (i : nat) :
  length iv = length dg -> length dr = length dg ->
  (i < length dg)%nat ->
  step_ok dg iv dr i -> step_ok (dg ++ [x]) (iv ++ [y]) (dr ++ [z]) i.
Proof.
  intros Hiv Hdr Hi [H1 H2 H3 H4 H5 H6].
  constructor; rewrite ?nth_snoc_old by lia; auto.
Qed.

(** One generator step, run on an attempt of [n] notes: a magnitude [m] is
    drawn, a direction [d] is forced or drawn, and the note is appended. *)
Lemma make_next_note_run (w : World) (n : nat) :
  (1 <= n)%nat ->
  length (_degrees (self w)) = n ->
  length (_intervals (self w)) = n ->
  length (_directions (self w)) = n ->
  exists m d c,
    In m (interval_choices (_intervals (self w)) n) /\
    (if (2 <=? n)%nat && leap (nth (n - 1) (_intervals (self w)) 0)
     then d = nth (n - 1) (_directions (self w)) 0 * -1
     else d = 1 \/ d = -1) /\
    (cursor w < c)%nat /\
    _make_next_note (Z.of_nat n) w
    = (Ok (nth (n - 1) (_degrees (self w)) 0 + m * d),
       {| self := push_note (nth (n - 1) (_degrees (self w)) 0 + m * d)
                            (m * d) d (self w);
          tape := tape w; cursor := c |}).
Proof.
  intros Hn Hdg Hiv Hdr.
  assert (Hne : interval_choices (_intervals (self w)) n <> []).
  { unfold interval_choices. now destruct (_ && _). }
  destruct (random_choice_in _ w Hne) as (m & Hm & Hrun).
  unfold _make_next_note, bind at 1.
  rewrite (choose_interval_run w n Hiv Hn), Hrun.
  unfold bind at 1.
  rewrite (choose_direction_run (advance w) n Hiv Hdr Hn).
  cbn [self advance].
  replace (Z.of_nat n - 1) with (Z.of_nat (n - 1)) by lia.
  destruct ((2 <=? n)%nat && leap (nth (n - 1) (_intervals (self w)) 0)).
  - exists m, (nth (n - 1) (_directions (self w)) 0 * -1), (S (cursor w)).
    split; [exact Hm|]. split; [reflexivity|]. split; [lia|].
    run_monad. cbn [self advance tape cursor].
    rewrite (getitem_nth _ (n - 1) 0) by lia. reflexivity.
  - assert (Hdirs : [1; -1] <> []) by discriminate.
    destruct (random_choice_in [1; -1] (advance w) Hdirs) as (d & Hd & Hrun').
    rewrite Hrun'.
    exists m, d, (S (S (cursor w))).
    split; [exact Hm|]. split.
    { destruct Hd as [<-|[<-|[]]]; auto. }
    split; [lia|].
    run_monad. cbn [self advance tape cursor].
    rewrite (getitem_nth _ (n - 1) 0) by lia. reflexivity.
Qed.

Lemma interval_choices_bound (intervals : list Z) (n : nat) (m : Z) :
  In m (interval_choices intervals n) -> 1 <= m <= 3.
Proof.
  unfold interval_choices. destruct (_ && _); cbn; intuition lia.
Qed.

Lemma interval_choices_two_leaps (intervals : list Z) (n : nat) (m : Z) :
  (2 <= n)%nat ->
  leap (nth (n - 1) intervals 0) = true ->
  leap (nth (n - 2) intervals 0) = true ->
  In m (interval_choices intervals n) -> m = 1 \/ m = 2.
Proof.
  intros Hn H1 H2. unfold interval_choices.
  replace (2 <=? n)%nat with true by (symmetry; apply Nat.leb_le; lia).
  rewrite H1, H2. cbn. intuition.
Qed.

(** Appending a note preserves the invariant. *)
Lemma generated_push (s : CantusFirmus) (m d : Z) :
  generated s ->
  In m (interval_choices (_intervals s) (length (_degrees s))) ->
  (if (2 <=? length (_degrees s))%nat
      && leap (nth (length (_degrees s) - 1) (_intervals s) 0)
   then d = nth (length (_degrees s) - 1) (_directions s) 0 * -1
   else d = 1 \/ d = -1) ->
  generated (push_note (nth (length (_degrees s) - 1) (_degrees s) 0 + m * d)
                       (m * d) d s).
Proof.
  intros [Hne Hiv Hdr H0 Hi0 Hd0 Hsteps] Hm Hd.
  set (n := length (_degrees s)) in *.
  assert (Hmb : 1 <= m <= 3) by (eapply interval_choices_bound; eauto).
  assert (Hdpm : d = 1 \/ d = -1).
  { destruct (Nat.leb_spec 2 n) as [H2|H2]; cbn [andb] in Hd; [|exact Hd].
    destruct (leap (nth (n - 1) (_intervals s) 0)); [|exact Hd].
    destruct (Hsteps (n - 1)%nat ltac:(lia)) as [[E|E] _ _ _ _ _];
      rewrite E in Hd; lia. }
  constructor; cbn [push_note set_directions set_intervals set_degrees
                    _degrees _intervals _directions].
  - rewrite length_app. cbn. lia.
  - rewrite !length_app. cbn. lia.
  - rewrite !length_app. cbn. lia.
  - rewrite nth_snoc_old by lia. exact H0.
  - rewrite nth_snoc_old by lia. exact Hi0.
  - rewrite nth_snoc_old by lia. exact Hd0.
  - intros i Hi. rewrite length_app in Hi. cbn [length] in Hi.
    destruct (Nat.eq_dec i n) as [->|Hin].
    + fold n.
      assert (En : forall l x, length l = n -> nth n (l ++ [x]) 0 = x).
      { intros l x <-. apply nth_snoc_new. }
      assert (Eabs : Z.abs (m * d) = m)
        by (destruct Hdpm as [-> | ->]; lia).
      constructor; rewrite ?En by auto; rewrite ?nth_snoc_old by lia;
        rewrite ?Eabs.
      * exact Hdpm.
      * lia.
      * reflexivity.
      * reflexivity.
      * intros H2 Hleap.
        replace (2 <=? n)%nat with true in Hd
          by (symmetry; apply Nat.leb_le; lia).
        rewrite Hleap in Hd. cbn [andb] in Hd. lia.
      * intros H2 Hl1 Hl2. unfold leap. rewrite Eabs.
        destruct (interval_choices_two_leaps _ n m H2 Hl1 Hl2 Hm); subst m;
          reflexivity.
    + apply step_ok_snoc; auto; [fold n; lia|]. apply Hsteps. fold n. lia.
Qed.

(** ** A whole attempt *)

Lemma same_settings_refl (s : CantusFirmus) : same_settings s s.
Proof. repeat split. Qed.

Lemma same_settings_trans (s1 s2 s3 : CantusFirmus) :
  same_settings s1 s2 -> same_settings s2 s3 -> same_settings s1 s3.
Proof. unfold same_settings. intuition congruence. Qed.

(** The [for] loop, started on an attempt of [n] notes, appends [k] notes
    and never raises. *)
Lemma for_each_note_step (k n : nat) (w : World) :
  generated (self w) -> length (_degrees (self w)) = n ->
  exists w',
    for_each (Py.range (Z.of_nat n) (Z.of_nat (n + k))) note_step w
    = (Ok tt, w') /\
    generated (self w') /\ length (_degrees (self w')) = (n + k)%nat /\
    same_settings (self w) (self w') /\ tape w' = tape w /\
    (cursor w <= cursor w')%nat.
Proof.
  revert n w. induction k as [|k IH]; intros n w Hgen Hlen.
  - rewrite Nat.add_0_r, range_empty by lia. exists w. cbn [for_each].
    split; [reflexivity|]. split; [exact Hgen|]. split; [exact Hlen|].
    split; [apply same_settings_refl|]. split; [reflexivity|lia].
  - rewrite range_cons by lia. cbn [for_each].
    pose proof (gen_nonempty _ Hgen) as Hne.
    pose proof (gen_intervals _ Hgen) as Hiv.
    pose proof (gen_directions _ Hgen) as Hdr.
    destruct (make_next_note_run w n) as (m & d & c & Hm & Hd & Hc & Hrun);
      try lia.
    unfold bind at 1. unfold note_step at 1. unfold bind at 1. rewrite Hrun.
    unfold ret at 1.
    set (w1 := {| self := _; tape := tape w; cursor := c |}).
    assert (Hgen1 : generated (self w1)).
    { subst w1. cbn [self]. rewrite <- Hlen.
      apply generated_push; rewrite ?Hlen; auto. }
    assert (Hlen1 : length (_degrees (self w1)) = S n).
    { subst w1. cbn. rewrite length_app. cbn. lia. }
    destruct (IH (S n) w1 Hgen1 Hlen1) as (w' & Hfor & Hg & Hl & Hs & Ht & Hcur).
    replace (Z.of_nat n + 1) with (Z.of_nat (S n)) by lia.
    replace (n + S k)%nat with (S n + k)%nat by lia.
    exists w'. split; [exact Hfor|]. split; [exact Hg|]. split; [exact Hl|].
    split; [|split].
    + eapply same_settings_trans; [|exact Hs]. subst w1. repeat split.
    + rewrite Ht. reflexivity.
    + subst w1. cbn [cursor] in Hcur. lia.
Qed.

(** The attempt just reset by the loop body of [make_notes]. *)
Lemma generated_seed (s : CantusFirmus) :
  generated (set_directions [0] (set_intervals [0] (set_degrees [0] s))).
Proof.
  constructor; cbn; try reflexivity; try lia.
Qed.

Lemma attempt_run (w : World) (L : Z) :
  _length (self w) = Some L -> 1 <= L ->
  exists w',
    attempt w = (Ok tt, w') /\
    generated (self w') /\ Py.len (_degrees (self w')) = L /\
    same_settings (self w) (self w') /\ tape w' = tape w /\
    (cursor w <= cursor w')%nat.
Proof.
  intros HL H1. unfold attempt, bind, modify_self, get_self, lift.
  cbn [self tape cursor]. unfold length_of at 1.
  cbn [_length set_degrees set_intervals set_directions]. rewrite HL.
  set (w0 := {| self := _; tape := tape w; cursor := cursor w |}).
  pose proof (generated_seed (self w)) as Hseed.
  destruct (for_each_note_step (Z.to_nat L - 1) 1 w0 Hseed eq_refl)
    as (w' & Hfor & Hg & Hl & Hs & Ht & Hc).
  replace (Z.of_nat (1 + (Z.to_nat L - 1))) with L in Hfor by lia.
  exists w'. split; [exact Hfor|]. split; [exact Hg|]. split.
  { unfold Py.len. rewrite Hl. lia. }
  split; [|split].
  - eapply same_settings_trans; [|exact Hs]. repeat split.
  - exact Ht.
  - exact Hc.
Qed.

(** * The validator *)

(** ** Single climax *)

Lemma count_le_1_unique (l : list Z) (x : Z) (i j : nat) :
  (count_occ Z.eq_dec l x <= 1)%nat ->
  nth_error l i = Some x -> nth_error l j = Some x -> i = j.
Proof.
  revert i j. induction l as [|a t IH]; intros i j Hc Hi Hj.
  - destruct i; discriminate.
  - cbn [count_occ] in Hc. destruct (Z.eq_dec a x) as [->|Hne].
    + assert (Hnot : ~ In x t) by (apply (count_occ_not_In Z.eq_dec); lia).
      destruct i as [|i], j as [|j]; cbn in Hi, Hj; auto;
        exfalso; apply Hnot; eapply nth_error_In; eauto.
    + destruct i as [|i], j as [|j]; cbn in Hi, Hj; try congruence.
      f_equal. eapply IH; eauto.
Qed.

Lemma unique_count_1 (l : list Z) (x : Z) (i : nat) :
  occurs_once_at l x i -> count_occ Z.eq_dec l x = 1%nat.
Proof.
  revert i. induction l as [|a t IH]; intros i [Hi Huniq].
  - destruct i; discriminate.
  - cbn [count_occ]. destruct (Z.eq_dec a x) as [->|Hne].
    + f_equal. apply (count_occ_not_In Z.eq_dec). intros Hin.
      destruct (In_nth_error _ _ Hin) as (j & Hj).
      specialize (Huniq 0%nat eq_refl) as H0.
      specialize (Huniq (S j) Hj). lia.
    + destruct i as [|i]; cbn in Hi; [congruence|].
      apply (IH i). split; [exact Hi|].
      intros j Hj. specialize (Huniq (S j) Hj). lia.
Qed.

Lemma is_maximum_unique (l : list Z) (m m' : Z) :
  is_maximum l m -> is_maximum l m' -> m = m'.
Proof.
  intros [Hin Hub] [Hin' Hub']. specialize (Hub _ Hin'). specialize (Hub' _ Hin). lia.
Qed.

(** What [_check_rule_7] computes on a non-empty attempt. *)
Lemma check_rule_7_run (s : CantusFirmus) (L : Z) :
  _length s = Some L -> _degrees s <> [] ->
  exists b, _check_rule_7 s = Ok b /\
            (b = true <-> single_climax (_degrees s) L).
Proof.
  intros HL Hne.
  destruct (max_spec _ Hne) as (m & Hmax & Hin & Hub).
  assert (Hmaxi : is_maximum (_degrees s) m) by (split; assumption).
  unfold _check_rule_7. rewrite Hmax. cbn [rbind]. unfold Py.count.
  destruct (Z.gtb_spec (Z.of_nat (count_occ Z.eq_dec (_degrees s) m)) 1)
    as [Hmany|Hfew].
  { exists false. split; [reflexivity|]. split; [discriminate|].
    intros (m' & i & Hm' & Honce & _).
    rewrite (is_maximum_unique _ _ _ Hmaxi Hm') in Hmany.
    rewrite (unique_count_1 _ _ _ Honce) in Hmany. lia. }
  destruct (index_spec _ _ Hin) as (i & Hi & Hidx & Hnth & Hfirst).
  rewrite Hidx. cbn [rbind]. unfold length_of. rewrite HL. cbn [rbind].
  assert (Hnthe : nth_error (_degrees s) i = Some m).
  { rewrite <- Hnth. now apply nth_error_nth'. }
  assert (Honce : occurs_once_at (_degrees s) m i).
  { split; [exact Hnthe|]. intros j Hj.
    apply (count_le_1_unique (_degrees s) m); auto. lia. }
  assert (Hsame : forall m' i', is_maximum (_degrees s) m' ->
                    occurs_once_at (_degrees s) m' i' -> m' = m /\ i' = i).
  { intros m' i' Hm' [Hi' Hu']. 
    assert (m' = m) by (eapply is_maximum_unique; eauto). subst m'.
    split; [reflexivity|]. symmetry. now apply Hu'. }
  destruct (Z.ltb_spec (Z.of_nat i) (L / 2)) as [Hearly|Hlate].
  { exists false. split; [reflexivity|]. split; [discriminate|].
    intros (m' & i' & Hm' & Ho' & Hhalf & _).
    destruct (Hsame _ _ Hm' Ho') as [-> ->]. lia. }
  destruct (Z.ltb_spec m 3) as [Hlow|Hhigh].
  { exists false. split; [reflexivity|]. split; [discriminate|].
    intros (m' & i' & Hm' & Ho' & _ & Hthree).
    destruct (Hsame _ _ Hm' Ho') as [-> ->]. lia. }
  exists true. split; [reflexivity|]. split; [|reflexivity].
  intros _. exists m, i. auto.
Qed.

(** ** Rules that cannot fail on a full attempt *)

Lemma completed_nonempty (s : CantusFirmus) (L : Z) :
  completed s L -> _degrees s <> [].
Proof.
  intros [_ Hd _ _ Hr] E. rewrite E in Hd. cbn in Hd. lia.
Qed.

Lemma check_rule_3_run (s : CantusFirmus) :
  _degrees s <> [] ->
  _check_rule_3 s
  = Ok (nth (length (_degrees s) - 1) (_degrees s) 0 =? 0).
Proof.
  intros Hne. unfold _check_rule_3.
  assert (0 < Py.len (_degrees s)).
  { unfold Py.len. destruct (_degrees s); [congruence|cbn; lia]. }
  rewrite (getitem_neg _ (-1) 0) by lia. cbn [rbind].
  do 3 f_equal. unfold Py.len in *. lia.
Qed.

Lemma check_rule_4_run (s : CantusFirmus) :
  (2 <= length (_degrees s))%nat ->
  _check_rule_4 s
  = Ok (Py.contains (nth (length (_degrees s) - 2) (_degrees s) 0)
                    [1; -1; 6; -6]).
Proof.
  intros Hlen. unfold _check_rule_4.
  rewrite (getitem_neg _ (-2) 0) by (unfold Py.len; lia). cbn [rbind].
  do 3 f_equal. unfold Py.len. lia.
Qed.

Lemma check_rule_6_run (s : CantusFirmus) :
  _degrees s <> [] ->
  exists lo hi,
    is_maximum (_degrees s) hi /\
    (In lo (_degrees s) /\ forall x, In x (_degrees s) -> lo <= x) /\
    _check_rule_6 s = Ok (hi - lo <=? MAX_RANGE).
Proof.
  intros Hne.
  destruct (max_spec _ Hne) as (hi & Hmax & Hhi & Hub).
  destruct (min_spec _ Hne) as (lo & Hmin & Hlo & Hlb).
  exists lo, hi. split; [split; assumption|]. split; [split; assumption|].
  unfold _check_rule_6. rewrite Hmin, Hmax. cbn [rbind].
  specialize (Hub _ Hlo).
  rewrite Z.abs_eq by lia.
  destruct (Z.gtb_spec (hi - lo) MAX_RANGE), (Z.leb_spec (hi - lo) MAX_RANGE);
    try reflexivity; lia.
Qed.

Lemma rule_13_loop_total (degrees indices : list Z) :
  (forall i, In i indices -> 0 <= i /\ i + 1 < Py.len degrees) ->
  exists b, rule_13_loop degrees indices = Ok b.
Proof.
  induction indices as [|i rest IH]; intros Hidx.
  - exists true. reflexivity.
  - destruct (Hidx i (or_introl eq_refl)) as [H0 H1].
    destruct IH as [b Hb]; [intros j Hj; apply Hidx; now right|].
    cbn [rule_13_loop].
    rewrite (getitem_pos _ i 0) by lia. cbn [rbind].
    rewrite (getitem_pos _ (i + 1) 0) by lia.
    destruct (_ =? -1); cbn [rbind].
    + destruct (negb _); [now exists false|].
      destruct (_ =? 6); cbn [rbind]; [|now exists b].
      destruct (negb _); [now exists false|now exists b].
    + destruct (_ =? 6); cbn [rbind]; [|now exists b].
      destruct (negb _); [now exists false|now exists b].
Qed.

Lemma check_rule_13_total (s : CantusFirmus) (L : Z) :
  completed s L -> exists b, _check_rule_13 s = Ok b.
Proof.
  intros [HL Hd _ _ Hr]. unfold _check_rule_13.
  destruct (scale_is s MAJOR_SCALE); [|now exists true].
  unfold length_of. rewrite HL. cbn [rbind].
  apply rule_13_loop_total. intros i Hi. apply in_range in Hi. lia.
Qed.

(** ** Directional coherence *)

Lemma list_eqb_eq (a b : list Z) : Py.list_eqb a b = true <-> a = b.
Proof.
  unfold Py.list_eqb. destruct (list_eq_dec Z.eq_dec a b); split;
    congruence.
Qed.

Lemma rule_8_fold (directions : list Z) (indices : list Z) (u0 d0 : Z) :
  0 <= u0 -> 0 <= d0 ->
  forall counts,
    counts = fold_left (rule_8_step 3 directions [1; 1; 1] [-1; -1; -1])
                       indices (u0, d0) ->
    0 <= fst counts /\ 0 <= snd counts /\
    ((0 < fst counts \/ 0 < snd counts) <->
     (0 < u0 \/ 0 < d0 \/
      exists i, In i indices /\ window_matches directions i)).
Proof.
  intros Hu Hd counts ->. revert u0 d0 Hu Hd. induction indices as [|i rest IH]; intros u0 d0 Hu Hd.
  - cbn. split; [exact Hu|]. split; [exact Hd|].
    split; [tauto|]. intros [H|[H|(i & [] & _)]]; auto.
  - cbn [fold_left].
    remember (rule_8_step 3 directions [1; 1; 1] [-1; -1; -1] (u0, d0) i)
      as c eqn:Ec.
    unfold rule_8_step in Ec.
    destruct (Py.list_eqb _ [1; 1; 1]) eqn:Eup; [|
      destruct (Py.list_eqb _ [-1; -1; -1]) eqn:Edown]; subst c.
    + apply list_eqb_eq in Eup.
      destruct (IH (u0 + 1) d0 ltac:(lia) Hd) as (H1 & H2 & H3).
      split; [exact H1|]. split; [exact H2|]. rewrite H3.
      split; [|intros _; left; lia].
      intros _. right. right. exists i. split; [now left|now left].
    + apply list_eqb_eq in Edown.
      destruct (IH u0 (d0 + 1) Hu ltac:(lia)) as (H1 & H2 & H3).
      split; [exact H1|]. split; [exact H2|]. rewrite H3.
      split; [|intros _; right; left; lia].
      intros _. right. right. exists i. split; [now left|now right].
    + destruct (IH u0 d0 Hu Hd) as (H1 & H2 & H3).
      split; [exact H1|]. split; [exact H2|]. rewrite H3.
      assert (Hno : ~ window_matches directions i).
      { intros [H|H]; apply list_eqb_eq in H; congruence. }
      split.
      * intros [H|[H|(j & Hj & Hw)]]; auto.
        right. right. exists j. split; [now right|exact Hw].
      * intros [H|[H|(j & [<-|Hj] & Hw)]]; auto; [contradiction|].
        right. right. exists j. auto.
Qed.

Lemma window_matches_run (directions : list Z) (i : nat) :
  (i + 2 < length directions)%nat ->
  window_matches directions (Z.of_nat i) <-> same_sign_run directions i.
Proof.
  intros Hi. unfold window_matches, same_sign_run.
  rewrite (slice_triple directions i 0) by lia.
  replace (i + 1)%nat with (S i) by lia.
  replace (i + 2)%nat with (S (S i)) by lia.
  split.
  - intros [H|H]; injection H as H1 H2 H3; auto.
  - intros [(-> & -> & ->)|(-> & -> & ->)]; auto.
Qed.

(** What [_check_rule_8] computes: it never raises, and it accepts exactly
    when one of the windows starting at [0 .. L-4] is a run. *)
Lemma check_rule_8_run (s : CantusFirmus) (L : Z) :
  Py.len (_degrees s) = L -> Py.len (_directions s) = L ->
  exists b, _check_rule_8 s = Ok b /\
            (b = true <-> scanned_coherence (_directions s) L).
Proof.
  intros Hdg Hdr. unfold _check_rule_8.
  change (repeat 1 (Z.to_nat 3)) with [1; 1; 1].
  change (repeat (-1) (Z.to_nat 3)) with [-1; -1; -1].
  pose proof (rule_8_fold (_directions s)
                (Py.range 0 (Py.len (_degrees s) - 3)) 0 0
                ltac:(lia) ltac:(lia) _ eq_refl) as Hfold.
  destruct (fold_left _ _ (0, 0)) as [u d]. cbn [fst snd] in Hfold.
  destruct Hfold as (Hu & Hd & Hiff).
  eexists. split; [reflexivity|].
  rewrite orb_true_iff, !Z.gtb_lt, Hiff. rewrite Hdg.
  unfold scanned_coherence. unfold Py.len in Hdr. split.
  - intros [H|[H|(i & Hi & Hw)]]; try lia.
    apply in_range in Hi. exists (Z.to_nat i). split; [lia|].
    apply window_matches_run; [lia|]. now rewrite Z2Nat.id by lia.
  - intros (i & Hi & Hrun). right. right. exists (Z.of_nat i).
    split; [apply in_range; lia|].
    apply window_matches_run; [lia|exact Hrun].
Qed.

(** On a generated attempt the window at [0] holds the sentinel, so the
    scanned windows are those starting at [1 .. L-4]. *)
Lemma scanned_coherence_generated (s : CantusFirmus) (L : Z) :
  generated s ->
  scanned_coherence (_directions s) L <->
  exists i : nat, 1 <= Z.of_nat i <= L - 4 /\ same_sign_run (_directions s) i.
Proof.
  intros Hgen. pose proof (gen_direction0 _ Hgen) as H0. split.
  - intros (i & Hi & Hrun). exists i. split; [|exact Hrun].
    destruct i as [|i]; [|lia].
    destruct Hrun as [(E & _)|(E & _)]; rewrite H0 in E; discriminate.
  - intros (i & Hi & Hrun). exists i. split; [lia|exact Hrun].
Qed.

(** ** No repeated motive *)

Lemma rule_10_loop_spec (motives entries : list (list Z)) :
  rule_10_loop motives entries = true <->
  forall e, In e entries ->
            (count_occ (list_eq_dec Z.eq_dec) motives e <= 1)%nat.
Proof.
  induction entries as [|e rest IH]; cbn [rule_10_loop].
  - split; [intros _ e []|reflexivity].
  - unfold Py.count.
    destruct (Z.gtb_spec
                (Z.of_nat (count_occ (list_eq_dec Z.eq_dec) motives e)) 1)
      as [Hmany|Hfew].
    + split; [discriminate|]. intros H.
      specialize (H e (or_introl eq_refl)). lia.
    + rewrite IH. split.
      * intros H e' [<-|He']; [lia|auto].
      * intros H e' He'. apply H. now right.
Qed.

Lemma rule_10_loop_NoDup (motives : list (list Z)) :
  rule_10_loop motives motives = true <-> NoDup motives.
Proof.
  rewrite rule_10_loop_spec, (NoDup_count_occ (list_eq_dec Z.eq_dec)).
  split; [|auto]. intros H e.
  destruct (in_dec (list_eq_dec Z.eq_dec) e motives) as [Hin|Hout]; [auto|].
  apply (count_occ_not_In (list_eq_dec Z.eq_dec)) in Hout. lia.
Qed.

(** The motives of a full attempt, by position. *)
Lemma motives_of_full (degrees : list Z) (L : Z) :
  Py.len degrees = L ->
  motives_of degrees L 2
  = map (fun k : nat => [nth k degrees 0; nth (S k) degrees 0])
        (seq 0 (Z.to_nat (L - 1))).
Proof.
  intros Hlen. unfold motives_of, Py.range. rewrite map_map.
  replace (L - 2 + 1 - 0) with (L - 1) by lia.
  apply map_ext_in. intros k Hk. apply in_seq in Hk.
  rewrite Z.add_0_l. apply slice_pair. unfold Py.len in Hlen. lia.
Qed.

Lemma NoDup_map_seq {B : Type} (g : nat -> B) (n : nat) :
  NoDup (map g (seq 0 n)) <->
  forall i j, (i < n)%nat -> (j < n)%nat -> g i = g j -> i = j.
Proof.
  rewrite (NoDup_nth _ (g 0%nat)), length_map, length_seq.
  split; intros H i j Hi Hj E; apply H; auto.
  - now rewrite !map_nth, !seq_nth.
  - now rewrite !map_nth, !seq_nth in E.
Qed.

(** What [_check_rule_10] computes on a full attempt. *)
Lemma check_rule_10_run (s : CantusFirmus) (L : Z) :
  _length s = Some L -> Py.len (_degrees s) = L ->
  exists b, _check_rule_10 s = Ok b /\
            (b = true <-> no_repeated_motive (_degrees s) L).
Proof.
  intros HL Hlen. unfold _check_rule_10, length_of. rewrite HL. cbn [rbind].
  eexists. split; [reflexivity|].
  rewrite rule_10_loop_NoDup, (motives_of_full _ _ Hlen), NoDup_map_seq.
  unfold no_repeated_motive, motive_at. split.
  - intros H i j Hi Hj Hne E. apply Hne. apply H; try lia.
    injection E as E1 E2. now rewrite E1, E2.
  - intros H i j Hi Hj E.
    destruct (Nat.eq_dec i j) as [|Hne]; [assumption|].
    exfalso. apply (H i j); try lia.
    injection E as E1 E2. now rewrite E1, E2.
Qed.

(** ** The conjunction of the rules *)

Lemma check_rules_true (s : CantusFirmus) :
  _check_rules s = Ok true <-> all_rules_hold s.
Proof.
  unfold _check_rules, all_rules_hold. split.
  - destruct (_check_rule_3 s) as [[|]| |]; cbn; try discriminate.
    destruct (_check_rule_4 s) as [[|]| |]; cbn; try discriminate.
    destruct (_check_rule_6 s) as [[|]| |]; cbn; try discriminate.
    destruct (_check_rule_7 s) as [[|]| |]; cbn; try discriminate.
    destruct (_check_rule_8 s) as [[|]| |]; cbn; try discriminate.
    destruct (_check_rule_10 s) as [[|]| |]; cbn; try discriminate.
    destruct (_check_rule_13 s) as [[|]| |]; cbn; try discriminate.
    intros _. repeat split.
  - intros (-> & -> & -> & -> & -> & -> & ->). reflexivity.
Qed.

Lemma check_rules_total (s : CantusFirmus) (L : Z) :
  completed s L -> exists b, _check_rules s = Ok b.
Proof.
  intros Hc. pose proof (completed_nonempty _ _ Hc) as Hne.
  pose proof (cmp_length _ _ Hc) as HL.
  pose proof (cmp_degrees _ _ Hc) as Hdg.
  pose proof (cmp_directions _ _ Hc) as Hdr.
  pose proof (cmp_range _ _ Hc) as Hr.
  assert (Hlen2 : (2 <= length (_degrees s))%nat)
    by (unfold Py.len in Hdg; lia).
  destruct (check_rule_6_run s Hne) as (lo & hi & _ & _ & H6).
  destruct (check_rule_7_run s L HL Hne) as (b7 & H7 & _).
  destruct (check_rule_8_run s L Hdg Hdr) as (b8 & H8 & _).
  destruct (check_rule_10_run s L HL Hdg) as (b10 & H10 & _).
  destruct (check_rule_13_total s L Hc) as (b13 & H13).
  unfold _check_rules.
  rewrite (check_rule_3_run s Hne), (check_rule_4_run s Hlen2), H6, H7, H8,
    H10, H13.
  cbn [rbind].
  repeat match goal with
         | |- context [negb ?b] => destruct b; cbn [negb rbind]
         end; eexists; reflexivity.
Qed.

(** * The controller *)

Lemma cycle_run (w : World) (L : Z) :
  _length (self w) = Some L -> 8 <= L <= 16 ->
  exists b w1,
    attempt w = (Ok tt, w1) /\
    generated (self w1) /\ completed (self w1) L /\
    same_settings (self w) (self w1) /\ tape w1 = tape w /\
    _check_rules (self w1) = Ok b /\
    cycle w = (Ok b, {| self := set_cycles (_cycles (self w1) + 1) (self w1);
                        tape := tape w1; cursor := cursor w1 |}).
Proof.
  intros HL Hr.
  destruct (attempt_run w L HL ltac:(lia))
    as (w1 & Hatt & Hgen & Hlen & Hsame & Htape & _).
  assert (Hcmp : completed (self w1) L).
  { destruct Hsame as (E1 & _). constructor; auto.
    - congruence.
    - unfold Py.len in *. now rewrite (gen_intervals _ Hgen).
    - unfold Py.len in *. now rewrite (gen_directions _ Hgen). }
  destruct (check_rules_total _ _ Hcmp) as (b & Hb).
  exists b, w1. repeat (split; [assumption|]).
  unfold cycle, bind. rewrite Hatt. unfold get_self, lift. rewrite Hb.
  reflexivity.
Qed.

Lemma cycle_world_settings (w : World) (L : Z) :
  _length (self w) = Some L -> 8 <= L <= 16 ->
  _length (self (cycle_world w)) = Some L /\
  _scale (self (cycle_world w)) = _scale (self w) /\
  _cycles (self (cycle_world w)) = _cycles (self w) + 1 /\
  tape (cycle_world w) = tape w.
Proof.
  intros HL Hr.
  destruct (cycle_run w L HL Hr)
    as (b & w1 & _ & _ & _ & (E1 & E2 & E3) & Ht & _ & Hcyc).
  unfold cycle_world. rewrite Hcyc. cbn.
  repeat split; congruence.
Qed.

Lemma after_cycles_settings (k : nat) (w : World) (L : Z) :
  _length (self w) = Some L -> 8 <= L <= 16 ->
  _length (self (after_cycles k w)) = Some L /\
  _scale (self (after_cycles k w)) = _scale (self w) /\
  _cycles (self (after_cycles k w)) = _cycles (self w) + Z.of_nat k /\
  tape (after_cycles k w) = tape w.
Proof.
  revert w. induction k as [|k IH]; intros w HL Hr; cbn [after_cycles].
  - split; [exact HL|]. split; [reflexivity|]. split; [lia|reflexivity].
  - destruct (cycle_world_settings w L HL Hr) as (E1 & E2 & E3 & E4).
    destruct (IH (cycle_world w) E1 Hr) as (F1 & F2 & F3 & F4).
    split; [exact F1|]. split; [congruence|]. split; [lia|congruence].
Qed.

Lemma after_cycles_S (k : nat) (w : World) :
  after_cycles (S k) w = cycle_world (after_cycles k w).
Proof.
  revert w. induction k as [|k IH]; intros w; [reflexivity|].
  change (after_cycles (S (S k)) w) with (after_cycles (S k) (cycle_world w)).
  now rewrite IH.
Qed.

(** The outcome of a pass, read off its verdict. *)
Lemma cycle_verdict (w : World) (L : Z) :
  _length (self w) = Some L -> 8 <= L <= 16 ->
  cycle w = (Ok (cycle_accepts w), cycle_world w).
Proof.
  intros HL Hr.
  destruct (cycle_run w L HL Hr) as (b & w1 & _ & _ & _ & _ & _ & _ & Hcyc).
  unfold cycle_accepts, cycle_world. rewrite Hcyc. cbn. now destruct b.
Qed.

Lemma cycle_accepts_accepted (w : World) (L : Z) :
  _length (self w) = Some L -> 8 <= L <= 16 ->
  cycle_accepts w = true -> accepted (self (cycle_world w)) L.
Proof.
  intros HL Hr Hacc.
  destruct (cycle_run w L HL Hr)
    as (b & w1 & _ & Hgen & Hcmp & _ & _ & Hb & Hcyc).
  unfold cycle_accepts, cycle_world in *. rewrite Hcyc in *. cbn in *.
  destruct b; [|discriminate].
  destruct Hcmp as [C1 C2 C3 C4 C5].
  destruct Hgen as [G1 G2 G3 G4 G5 G6 G7].
  constructor; [constructor|constructor|]; assumption.
Qed.

(** ** The retry loop *)

Lemma while_done (fuel : nat) (w : World) :
  while_not_success fuel true w = (Ok tt, w).
Proof. destruct fuel; reflexivity. Qed.

Lemma while_step (fuel : nat) (w : World) (L : Z) :
  _length (self w) = Some L -> 8 <= L <= 16 ->
  _cycles (self w) <= MAX_CYCLES ->
  while_not_success (S fuel) false w
  = while_not_success fuel (cycle_accepts w) (cycle_world w).
Proof.
  intros HL Hr Hc. cbn [while_not_success]. unfold bind at 1, get_self at 1.
  destruct (Z.gtb_spec (_cycles (self w)) MAX_CYCLES) as [Hgt|_]; [lia|].
  unfold bind. now rewrite (cycle_verdict w L HL Hr).
Qed.

Lemma while_raise (fuel : nat) (w : World) :
  MAX_CYCLES < _cycles (self w) ->
  while_not_success (S fuel) false w = (Raise ExhaustionError, w).
Proof.
  intros Hc. cbn [while_not_success]. run_monad.
  destruct (Z.gtb_spec (_cycles (self w)) MAX_CYCLES) as [_|Hle]; [|lia].
  reflexivity.
Qed.

(** The loop stops at the first accepted attempt. *)
Lemma while_accepts (k : nat) :
  forall (fuel : nat) (w : World) (L : Z),
    _length (self w) = Some L -> 8 <= L <= 16 ->
    _cycles (self w) + Z.of_nat k <= MAX_CYCLES ->
    (k < fuel)%nat ->
    (forall j, (j < k)%nat -> accepted_at j w = false) ->
    accepted_at k w = true ->
    while_not_success fuel false w = (Ok tt, after_cycles (S k) w).
Proof.
  induction k as [|k IH]; intros fuel w L HL Hr Hc Hfuel Hrej Hacc;
    (destruct fuel as [|fuel]; [lia|]);
    rewrite (while_step fuel w L HL Hr) by lia.
  - unfold accepted_at in Hacc. cbn [after_cycles] in *. rewrite Hacc.
    apply while_done.
  - assert (H0 : cycle_accepts w = false) by (apply (Hrej 0%nat); lia).
    rewrite H0.
    destruct (cycle_world_settings w L HL Hr) as (E1 & _ & E3 & _).
    change (after_cycles (S (S k)) w)
      with (after_cycles (S k) (cycle_world w)).
    apply (IH fuel (cycle_world w) L E1 Hr); try lia.
    + intros j Hj. apply (Hrej (S j)). lia.
    + exact Hacc.
Qed.

(** The loop raises once the counter has passed the ceiling. *)
Lemma while_exhausts (n : nat) :
  forall (fuel : nat) (w : World) (L : Z),
    _length (self w) = Some L -> 8 <= L <= 16 ->
    _cycles (self w) + Z.of_nat n = MAX_CYCLES + 1 ->
    (n < fuel)%nat ->
    (forall j, (j < n)%nat -> accepted_at j w = false) ->
    while_not_success fuel false w
    = (Raise ExhaustionError, after_cycles n w).
Proof.
  induction n as [|n IH]; intros fuel w L HL Hr Hc Hfuel Hrej;
    (destruct fuel as [|fuel]; [lia|]).
  - cbn [after_cycles]. apply while_raise. lia.
  - rewrite (while_step fuel w L HL Hr) by lia.
    assert (H0 : cycle_accepts w = false) by (apply (Hrej 0%nat); lia).
    rewrite H0.
    destruct (cycle_world_settings w L HL Hr) as (E1 & _ & E3 & _).
    cbn [after_cycles].
    apply (IH fuel (cycle_world w) L E1 Hr); try lia.
    intros j Hj. apply (Hrej (S j)). lia.
Qed.

Lemma first_verdict (f : nat -> bool) (n : nat) :
  (forall k, (k < n)%nat -> f k = false) \/
  (exists k, (k < n)%nat /\ f k = true /\
             forall j, (j < k)%nat -> f j = false).
Proof.
  induction n as [|n [Hall|(k & Hk & Hf & Hfirst)]].
  - left. intros k Hk. lia.
  - destruct (f n) eqn:En.
    + right. exists n. split; [lia|]. split; [exact En|exact Hall].
    + left. intros k Hk.
      destruct (Nat.eq_dec k n) as [->|Hne]; [exact En|apply Hall; lia].
  - right. exists k. split; [lia|]. split; assumption.
Qed.

Lemma make_notes_invalid (length : Z) (scale : list Z) (w : World) :
  length < 8 \/ 16 < length ->
  make_notes length scale w = (Raise ConfigurationError, w).
Proof.
  intros H. unfold make_notes.
  destruct (Z.ltb_spec length 8), (Z.gtb_spec length 16); try lia;
    reflexivity.
Qed.

Lemma make_notes_valid (length : Z) (scale : list Z) (w : World) :
  8 <= length <= 16 ->
  make_notes length scale w
  = while_not_success make_notes_fuel false (start_world length scale w).
Proof.
  intros H. unfold make_notes.
  destruct (Z.ltb_spec length 8), (Z.gtb_spec length 16); try lia.
  reflexivity.
Qed.

Lemma make_notes_fuel_enough :
  (Z.to_nat (MAX_CYCLES + 1) < make_notes_fuel)%nat.
Proof. unfold make_notes_fuel, MAX_CYCLES. lia. Qed.

(** The two ways a valid call of [make_notes] ends. *)
Lemma make_notes_outcome (length : Z) (scale : list Z) (w : World) :
  8 <= length <= 16 ->
  let w0 := start_world length scale w in
  (exists k : nat,
      Z.of_nat k <= MAX_CYCLES /\ accepted_at k w0 = true /\
      (forall j, (j < k)%nat -> accepted_at j w0 = false) /\
      make_notes length scale w = (Ok tt, after_cycles (S k) w0)) \/
  ((forall k : nat, Z.of_nat k <= MAX_CYCLES -> accepted_at k w0 = false) /\
   make_notes length scale w
   = (Raise ExhaustionError, after_cycles (Z.to_nat (MAX_CYCLES + 1)) w0)).
Proof.
  intros Hr w0. rewrite (make_notes_valid length scale w Hr). fold w0.
  assert (HL : _length (self w0) = Some length) by reflexivity.
  assert (Hc : _cycles (self w0) = 0) by reflexivity.
  assert (Hmax : 0 <= MAX_CYCLES) by (unfold MAX_CYCLES; lia).
  pose proof make_notes_fuel_enough as Hfuel.
  destruct (first_verdict (fun k => accepted_at k w0)
                          (Z.to_nat (MAX_CYCLES + 1)))
    as [Hall|(k & Hk & Hacc & Hfirst)].
  - right. split; [intros k Hk; apply Hall; lia|].
    apply (while_exhausts _ _ w0 length HL Hr); auto; lia.
  - left. exists k. split; [lia|]. split; [exact Hacc|].
    split; [exact Hfirst|].
    apply (while_accepts _ _ w0 length HL Hr); auto; lia.
Qed.

(** ** What a successful call leaves behind *)

Lemma make_notes_accepted (length : Z) (scale : list Z) (w : World) :
  fst (make_notes length scale w) = Ok tt ->
  8 <= length <= 16 /\
  accepted (self (snd (make_notes length scale w))) length /\
  _scale (self (snd (make_notes length scale w))) = Some scale /\
  1 <= _cycles (self (snd (make_notes length scale w))) <= MAX_CYCLES + 1.
Proof.
  intros Hok.
  assert (Hr : 8 <= length <= 16).
  { destruct (Z_lt_dec length 8) as [Hlo|Hlo];
      [rewrite make_notes_invalid in Hok by lia; discriminate|].
    destruct (Z_lt_dec 16 length) as [Hhi|Hhi];
      [rewrite make_notes_invalid in Hok by lia; discriminate|].
    lia. }
  split; [exact Hr|].
  destruct (make_notes_outcome length scale w Hr)
    as [(k & Hk & Hacc & _ & Hrun)|(_ & Hrun)];
    rewrite Hrun in *; [|discriminate].
  cbn [snd]. rewrite after_cycles_S.
  set (w0 := start_world length scale w) in *.
  destruct (after_cycles_settings k w0 length eq_refl Hr)
    as (E1 & E2 & E3 & _).
  destruct (cycle_world_settings (after_cycles k w0) length E1 Hr)
    as (F1 & F2 & F3 & _).
  split; [now apply cycle_accepts_accepted|].
  split; [rewrite F2, E2; reflexivity|].
  rewrite F3, E3. subst w0. cbn [start_world self _cycles set_cycles]. lia.
Qed.

(** Rule 6 and the tonic at index 0 keep every degree within an octave of
    the tonic. *)
Lemma accepted_degree_bound (s : CantusFirmus) (L : Z) (d : Z) :
  accepted s L -> In d (_degrees s) -> -7 <= d <= 7.
Proof.
  intros [Hcmp Hgen Hrules] Hd.
  pose proof (completed_nonempty _ _ Hcmp) as Hne.
  apply check_rules_true in Hrules.
  destruct Hrules as (_ & _ & H6 & _).
  destruct (check_rule_6_run s Hne)
    as (lo & hi & (_ & Hub) & (_ & Hlb) & Hrun).
  rewrite Hrun in H6. injection H6 as H6. apply Z.leb_le in H6.
  unfold MAX_RANGE in H6.
  assert (H0 : In 0 (_degrees s)).
  { rewrite <- (gen_tonic _ Hgen). apply nth_In.
    pose proof (gen_nonempty _ Hgen). lia. }
  pose proof (Hub _ H0). pose proof (Hlb _ H0).
  pose proof (Hub _ Hd). pose proof (Hlb _ Hd). lia.
Qed.

(** * The pitch resolver *)

Lemma scale_index_bound (d : Z) : -7 <= d <= 13 -> 0 <= scale_index d <= 6.
Proof.
  intros Hd. unfold scale_index.
  destruct (Z.gtb_spec d 6); [lia|].
  destruct (Z.geb_spec d 0); lia.
Qed.

Lemma note_of_spec (s : CantusFirmus) (scale : list Z) (base d : Z) :
  _scale s = Some scale -> length scale = 7%nat -> -7 <= d <= 13 ->
  note_of s base d = Ok (spec_pitch scale base d).
Proof.
  intros Hs Hlen Hd. unfold note_of, spec_pitch, scale_at. rewrite Hs.
  destruct (Z.gtb_spec d 6), (Z.ltb_spec 6 d); try lia.
  - rewrite (getitem_pos scale (d - 7) 0) by (unfold Py.len; lia).
    reflexivity.
  - destruct (Z.geb_spec d 0), (Z.leb_spec 0 d); try lia.
    + rewrite (getitem_pos scale d 0) by (unfold Py.len; lia). reflexivity.
    + rewrite (getitem_pos scale (7 + d) 0) by (unfold Py.len; lia).
      reflexivity.
Qed.

Lemma get_notes_loop_spec (s : CantusFirmus) (scale : list Z) (base : Z)
      (degrees acc : list Z) :
  _scale s = Some scale -> length scale = 7%nat ->
  (forall d, In d degrees -> -7 <= d <= 13) ->
  get_notes_loop s base degrees acc
  = Ok (acc ++ map (spec_pitch scale base) degrees).
Proof.
  intros Hs Hlen. revert acc.
  induction degrees as [|d rest IH]; intros acc Hb; cbn [get_notes_loop map].
  - now rewrite app_nil_r.
  - rewrite (note_of_spec s scale base d Hs Hlen) by (apply Hb; now left).
    cbn [rbind]. rewrite IH by (intros x Hx; apply Hb; now right).
    now rewrite <- app_assoc.
Qed.

Lemma get_notes_empty (base : Z) (w : World) :
  _degrees (self w) = [] ->
  get_notes base w = (Raise InvalidStateError, w).
Proof.
  intros He. unfold get_notes. run_monad. rewrite He. reflexivity.
Qed.

Lemma get_notes_nonempty (base : Z) (w : World) :
  _degrees (self w) <> [] ->
  get_notes base w
  = (get_notes_loop (self w) base (_degrees (self w)) [], w).
Proof.
  intros Hne. unfold get_notes. run_monad.
  destruct (Z.eqb_spec (Py.len (_degrees (self w))) 0) as [E|_];
    [|now destruct (get_notes_loop _ _ _ _)].
  unfold Py.len in E. destruct (_degrees (self w)); [congruence|].
  cbn in E. lia.
Qed.

(** The loop of [get_notes] raises nothing but the built-in exceptions of
    its subscripts. *)
Lemma get_notes_loop_not_invalid (s : CantusFirmus) (base : Z)
      (degrees acc : list Z) :
  get_notes_loop s base degrees acc <> Raise InvalidStateError.
Proof.
  revert acc. induction degrees as [|d rest IH]; intros acc;
    cbn [get_notes_loop]; [discriminate|].
  assert (Hnote : note_of s base d <> Raise InvalidStateError).
  { unfold note_of, scale_at, Py.getitem.
    destruct (_scale s) as [scale|];
      repeat match goal with
             | |- context [if ?b then _ else _] => destruct b
             | |- context [match nth_error ?l ?i with _ => _ end] =>
                 destruct (nth_error l i)
             end; cbn; discriminate. }
  destruct (note_of s base d) as [note|e|]; cbn [rbind];
    [apply IH|congruence|discriminate].
Qed.

(** * The claims *)

(** ** Generator *)

(** C5.  In every full attempt the generator produces, whatever the draws,
    a step whose two preceding intervals are both leaps (magnitude above 2)
    has magnitude 1 or 2, so no three consecutive intervals are all leaps.
    The generator never raises and fills the attempt to the requested
    length. *)
Theorem no_three_consecutive_leaps (w : World) (L : Z) :
  _length (self w) = Some L -> 1 <= L ->
  let s := self (snd (attempt w)) in
  fst (attempt w) = Ok tt /\
  Py.len (_degrees s) = L /\ Py.len (_intervals s) = L /\
  (forall i : nat,
      (2 <= i < length (_intervals s))%nat ->
      leap (nth (i - 1) (_intervals s) 0) = true ->
      leap (nth (i - 2) (_intervals s) 0) = true ->
      Z.abs (nth i (_intervals s) 0) = 1 \/
      Z.abs (nth i (_intervals s) 0) = 2) /\
  (forall i : nat,
      (i + 2 < length (_intervals s))%nat ->
      ~ (leap (nth i (_intervals s) 0) = true /\
         leap (nth (i + 1) (_intervals s) 0) = true /\
         leap (nth (i + 2) (_intervals s) 0) = true)).
Proof.
  intros HL H1.
  destruct (attempt_run w L HL H1) as (w' & Hatt & Hgen & Hlen & _).
  rewrite Hatt. cbn [fst snd]. cbv zeta.
  pose proof (gen_intervals _ Hgen) as Hiv.
  assert (Hstep : forall i : nat,
             (2 <= i < length (_intervals (self w')))%nat ->
             leap (nth (i - 1) (_intervals (self w')) 0) = true ->
             leap (nth (i - 2) (_intervals (self w')) 0) = true ->
             Z.abs (nth i (_intervals (self w')) 0) = 1 \/
             Z.abs (nth i (_intervals (self w')) 0) = 2).
  { intros i Hi Hl1 Hl2.
    destruct (gen_steps _ Hgen i ltac:(lia)) as [_ Hmag _ _ _ Htwo].
    specialize (Htwo ltac:(lia) Hl1 Hl2). unfold leap in Htwo.
    destruct (Z.gtb_spec (Z.abs (nth i (_intervals (self w')) 0)) 2);
      [discriminate|lia]. }
  split; [reflexivity|]. split; [exact Hlen|].
  split; [unfold Py.len in *; lia|]. split; [exact Hstep|].
  intros i Hi (Hl0 & Hl1 & Hl2).
  destruct (Hstep (i + 2)%nat ltac:(lia)) as [E|E].
  - now replace (i + 2 - 1)%nat with (i + 1)%nat by lia.
  - now replace (i + 2 - 2)%nat with i by lia.
  - unfold leap in Hl2. rewrite E in Hl2. discriminate.
  - unfold leap in Hl2. rewrite E in Hl2. discriminate.
Qed.

Lemma no_three_consecutive_leaps_witness :
  let w := start_world 8 MAJOR_SCALE (fresh_world leaping_tape) in
  let s := self (snd (attempt w)) in
  _length (self w) = Some 8 /\ 1 <= 8 /\
  firstn 4 (_intervals s) = [0; 3; -3; 1] /\
  (Z.abs (nth 3 (_intervals s) 0) = 1 \/ Z.abs (nth 3 (_intervals s) 0) = 2).
Proof.
  intros w s.
  split; [reflexivity|]. split; [lia|]. split; [reflexivity|].
  destruct (no_three_consecutive_leaps w 8 eq_refl ltac:(lia))
    as (_ & _ & _ & Hstep & _).
  apply (Hstep 3%nat); [vm_compute; lia|reflexivity|reflexivity].
Defined.

(** C6.  In every full attempt the generator produces, the direction that
    follows a leap is the opposite of the leap's direction, so the two
    intervals have opposite signs.  At a single step the direction is
    forced (and no draw is consumed) exactly when the preceding interval is
    a leap; otherwise it is the next draw among +1 and -1. *)
Theorem leap_recovery (w : World) (L : Z) :
  _length (self w) = Some L -> 1 <= L ->
  let s := self (snd (attempt w)) in
  fst (attempt w) = Ok tt /\
  Py.len (_directions s) = L /\
  (forall i : nat,
      (1 <= i)%nat -> (i + 1 < length (_directions s))%nat ->
      leap (nth i (_intervals s) 0) = true ->
      nth (i + 1) (_directions s) 0 = nth i (_directions s) 0 * -1 /\
      nth i (_intervals s) 0 * nth (i + 1) (_intervals s) 0 < 0) /\
  (forall i : nat,
      (1 <= i < length (_directions s))%nat ->
      nth i (_directions s) 0 = 1 \/ nth i (_directions s) 0 = -1) /\
  (forall (w1 : World) (n : nat),
      generated (self w1) -> length (_degrees (self w1)) = n ->
      _choose_direction (Z.of_nat n) w1
      = if (2 <=? n)%nat && leap (nth (n - 1) (_intervals (self w1)) 0)
        then (Ok (nth (n - 1) (_directions (self w1)) 0 * -1), w1)
        else (Ok (if (Nat.modulo (draw w1) 2 =? 0)%nat then 1 else -1),
              advance w1)).
Proof.
  intros HL H1.
  destruct (attempt_run w L HL H1) as (w' & Hatt & Hgen & Hlen & _).
  rewrite Hatt. cbn [fst snd]. cbv zeta.
  pose proof (gen_intervals _ Hgen) as Hiv.
  pose proof (gen_directions _ Hgen) as Hdr.
  split; [reflexivity|]. split; [unfold Py.len in *; lia|].
  split; [|split].
  - intros i Hi1 Hi Hleap.
    destruct (gen_steps _ Hgen i ltac:(lia)) as [Hd Hmag Hsign _ _ _].
    destruct (gen_steps _ Hgen (i + 1)%nat ltac:(lia))
      as [Hd' Hmag' Hsign' _ Hrec _].
    replace (i + 1 - 1)%nat with i in Hrec by lia.
    specialize (Hrec ltac:(lia) Hleap).
    split; [lia|]. rewrite Hsign, Hsign', Hrec.
    destruct Hd as [-> | ->]; nia.
  - intros i Hi. now destruct (gen_steps _ Hgen i ltac:(lia)).
  - intros w1 n Hg Hn.
    rewrite (choose_direction_run w1 n); 
      rewrite ?(gen_intervals _ Hg), ?(gen_directions _ Hg); auto;
      [|pose proof (gen_nonempty _ Hg); lia].
    destruct (_ && _); [reflexivity|].
    rewrite random_choice_run by discriminate. cbn [length].
    pose proof (Nat.mod_upper_bound (draw w1) 2 ltac:(lia)) as Hmod.
    destruct (Nat.modulo (draw w1) 2) as [|[|r]]; [reflexivity|reflexivity|lia].
Qed.

Lemma leap_recovery_witness :
  let w := start_world 15 MINOR_SCALE (fresh_world late_slope_tape) in
  let s := self (snd (attempt w)) in
  _length (self w) = Some 15 /\ 1 <= 15 /\
  nth 5 (_intervals s) 0 = -3 /\
  nth 6 (_directions s) 0 = nth 5 (_directions s) 0 * -1.
Proof.
  intros w s.
  split; [reflexivity|]. split; [lia|]. split; [reflexivity|].
  destruct (leap_recovery w 15 eq_refl ltac:(lia)) as (_ & _ & Hrec & _).
  apply (Hrec 5%nat); [lia|vm_compute; lia|reflexivity].
Defined.

(** ** Validator *)

Lemma late_slope_attempt_completed : completed late_slope_attempt 15.
Proof. constructor; try reflexivity. lia. Qed.

(** C3.  On every completed attempt the single-climax check returns a
    verdict, and it accepts exactly when the maximum degree occurs once,
    at an index at least [L // 2], with value at least 3; so an attempt
    that passes all the rules has such a climax. *)
Theorem single_climax_rule (s : CantusFirmus) (L : Z) :
  completed s L ->
  (exists b, _check_rule_7 s = Ok b) /\
  (_check_rule_7 s = Ok true <-> single_climax (_degrees s) L) /\
  (_check_rules s = Ok true -> single_climax (_degrees s) L).
Proof.
  intros Hc.
  destruct (check_rule_7_run s L (cmp_length _ _ Hc)
                             (completed_nonempty _ _ Hc))
    as (b & Hrun & Hiff).
  assert (Hspec : _check_rule_7 s = Ok true <-> single_climax (_degrees s) L).
  { rewrite Hrun, <- Hiff. split; congruence. }
  split; [now exists b|]. split; [exact Hspec|].
  intros Hall. apply Hspec. apply check_rules_true in Hall.
  now destruct Hall as (_ & _ & _ & H7 & _).
Qed.

Lemma single_climax_rule_witness :
  completed climb_attempt 8 /\ single_climax (_degrees climb_attempt) 8.
Proof.
  assert (Hc : completed climb_attempt 8)
    by (constructor; try reflexivity; lia).
  split; [exact Hc|].
  apply (single_climax_rule climb_attempt 8 Hc).
  reflexivity.
Defined.

(** C4.  On every completed attempt the no-repeated-motive check returns a
    verdict, and it accepts exactly when the windows of two consecutive
    degrees are pairwise distinct as ordered pairs; the attempt with
    degrees [0 2 4 2 0 2 4 2 0] is rejected. *)
Theorem no_repeated_motive_rule (s : CantusFirmus) (L : Z) :
  completed s L ->
  (exists b, _check_rule_10 s = Ok b) /\
  (_check_rule_10 s = Ok true <-> no_repeated_motive (_degrees s) L) /\
  (_degrees s = [0; 2; 4; 2; 0; 2; 4; 2; 0] -> _check_rule_10 s = Ok false).
Proof.
  intros Hc.
  destruct (check_rule_10_run s L (cmp_length _ _ Hc) (cmp_degrees _ _ Hc))
    as (b & Hrun & Hiff).
  split; [now exists b|]. split.
  { rewrite Hrun, <- Hiff. split; congruence. }
  intros Hdeg. rewrite Hrun. destruct b; [|reflexivity].
  exfalso.
  assert (HL : L = 9).
  { rewrite <- (cmp_degrees _ _ Hc), Hdeg. reflexivity. }
  destruct Hiff as [Hno _]. specialize (Hno eq_refl).
  apply (Hno 0%nat 4%nat); try lia.
  rewrite Hdeg. reflexivity.
Qed.

Lemma no_repeated_motive_rule_witness :
  completed crafted_attempt 9 /\
  _degrees crafted_attempt = [0; 2; 4; 2; 0; 2; 4; 2; 0] /\
  _check_rule_10 crafted_attempt = Ok false.
Proof.
  assert (Hc : completed crafted_attempt 9)
    by (constructor; try reflexivity; lia).
  split; [exact Hc|]. split; [reflexivity|].
  apply (no_repeated_motive_rule crafted_attempt 9 Hc).
  reflexivity.
Defined.

(** The last window of real directions, starting at [L-3], is not among
    the windows [_check_rule_8] scans: an attempt whose only run lies there
    is rejected. *)
Lemma check_rule_8_last_window_unseen (s : CantusFirmus) (L : Z) :
  completed s L -> generated s ->
  (forall i : nat, 1 <= Z.of_nat i <= L - 4 ->
                   ~ same_sign_run (_directions s) i) ->
  _check_rule_8 s = Ok false.
Proof.
  intros Hc Hgen Hnone.
  destruct (check_rule_8_run s L (cmp_degrees _ _ Hc) (cmp_directions _ _ Hc))
    as (b & Hrun & Hiff).
  rewrite Hrun. destruct b; [|reflexivity]. exfalso.
  destruct Hiff as [Hscan _]. specialize (Hscan eq_refl).
  apply (scanned_coherence_generated s L Hgen) in Hscan.
  destruct Hscan as (i & Hi & Hrun'). exact (Hnone i Hi Hrun').
Qed.

(** C1.  The attempt [0 1 2 0 2 -1 1 3 1 -2 0 -3 -2 -1 0], which the
    generator produces in the minor scale, has a run of three equal
    directions at the last valid offset [L-3 = 12], so it is directionally
    coherent in the sense of the specification; [_check_rule_8] rejects it,
    and it is the only rule that does. *)
Theorem check_rule_8_misses_final_run :
  _degrees late_slope_attempt
  = [0; 1; 2; 0; 2; -1; 1; 3; 1; -2; 0; -3; -2; -1; 0] /\
  _directions late_slope_attempt
  = [0; 1; 1; -1; 1; -1; 1; 1; -1; -1; 1; -1; 1; 1; 1] /\
  completed late_slope_attempt 15 /\
  same_sign_run (_directions late_slope_attempt) 12 /\
  directional_coherence (_directions late_slope_attempt) 15 /\
  _check_rule_8 late_slope_attempt = Ok false /\
  _check_rule_3 late_slope_attempt = Ok true /\
  _check_rule_4 late_slope_attempt = Ok true /\
  _check_rule_6 late_slope_attempt = Ok true /\
  _check_rule_7 late_slope_attempt = Ok true /\
  _check_rule_10 late_slope_attempt = Ok true /\
  _check_rule_13 late_slope_attempt = Ok true /\
  _check_rules late_slope_attempt = Ok false.
Proof.
  assert (Hrun : same_sign_run (_directions late_slope_attempt) 12).
  { left. repeat split. }
  split; [reflexivity|]. split; [reflexivity|].
  split; [exact late_slope_attempt_completed|].
  split; [exact Hrun|].
  split; [exists 12%nat; split; [lia|exact Hrun]|].
  repeat split; vm_compute; reflexivity.
Qed.

(** ** Controller *)

Lemma cycle_world_completed (w : World) (L : Z) :
  _length (self w) = Some L -> 8 <= L <= 16 ->
  completed (self (cycle_world w)) L /\ generated (self (cycle_world w)).
Proof.
  intros HL Hr.
  destruct (cycle_run w L HL Hr)
    as (b & w1 & _ & Hgen & Hcmp & _ & _ & _ & Hcyc).
  unfold cycle_world. rewrite Hcyc. cbn [snd self].
  destruct Hcmp as [C1 C2 C3 C4 C5].
  destruct Hgen as [G1 G2 G3 G4 G5 G6 G7].
  split; constructor; assumption.
Qed.

Lemma first_accept_unique (f : nat -> bool) (k k' : nat) :
  f k = true -> (forall j, (j < k)%nat -> f j = false) ->
  f k' = true -> (forall j, (j < k')%nat -> f j = false) -> k = k'.
Proof.
  intros Hk Hfirst Hk' Hfirst'.
  destruct (Nat.lt_trichotomy k k') as [Hlt|[Heq|Hgt]]; [|exact Heq|].
  - rewrite (Hfirst' k Hlt) in Hk. discriminate.
  - rewrite (Hfirst k' Hgt) in Hk'. discriminate.
Qed.

(** C7.  On a valid length the cycle counter starts at 0 and reads [k]
    after [k] attempts; the call succeeds at the first accepted attempt,
    leaving the counter at the number of attempts made, and it raises the
    exhaustion error exactly when none of the attempts made at counter
    values [0 .. 100000] is accepted, the counter then reading 100001.  No
    other outcome occurs. *)
Theorem make_notes_cycle_counter (w : World) (length : Z) (scale : list Z) :
  8 <= length <= 16 ->
  let w0 := start_world length scale w in
  let run := make_notes length scale w in
  MAX_CYCLES = 100000 /\
  (forall k : nat, _cycles (self (after_cycles k w0)) = Z.of_nat k) /\
  (forall k : nat,
      Z.of_nat k <= MAX_CYCLES -> accepted_at k w0 = true ->
      (forall j, (j < k)%nat -> accepted_at j w0 = false) ->
      run = (Ok tt, after_cycles (S k) w0) /\
      _cycles (self (snd run)) = Z.of_nat k + 1) /\
  ((forall k : nat, Z.of_nat k <= MAX_CYCLES -> accepted_at k w0 = false) ->
   run = (Raise ExhaustionError, after_cycles (Z.to_nat (MAX_CYCLES + 1)) w0)
   /\ _cycles (self (snd run)) = MAX_CYCLES + 1) /\
  (fst run = Raise ExhaustionError <->
   forall k : nat, Z.of_nat k <= MAX_CYCLES -> accepted_at k w0 = false) /\
  (fst run = Ok tt <->
   exists k : nat, Z.of_nat k <= MAX_CYCLES /\ accepted_at k w0 = true) /\
  (fst run = Ok tt \/ fst run = Raise ExhaustionError).
Proof.
  intros Hr w0 run.
  assert (Hcount : forall k : nat,
             _cycles (self (after_cycles k w0)) = Z.of_nat k).
  { intros k.
    destruct (after_cycles_settings k w0 length eq_refl Hr) as (_ & _ & E & _).
    rewrite E. reflexivity. }
  assert (Hmax : 0 <= MAX_CYCLES) by (unfold MAX_CYCLES; lia).
  pose proof (make_notes_outcome length scale w Hr) as Hout.
  cbv zeta in Hout. fold w0 run in Hout.
  split; [reflexivity|]. split; [exact Hcount|].
  split; [|split; [|split; [|split]]].
  - intros k Hk Hacc Hfirst.
    destruct Hout as [(k' & _ & Hacc' & Hfirst' & Hrun)|(Hall & _)].
    + assert (k = k')
        by (apply (first_accept_unique (fun i => accepted_at i w0)); auto).
      subst k'. rewrite Hrun. split; [reflexivity|].
      cbn [snd]. rewrite Hcount. lia.
    + rewrite (Hall k Hk) in Hacc. discriminate.
  - intros Hall.
    destruct Hout as [(k' & Hk' & Hacc' & _)|(_ & Hrun)].
    + rewrite (Hall k' Hk') in Hacc'. discriminate.
    + rewrite Hrun. split; [reflexivity|].
      cbn [snd]. rewrite Hcount. lia.
  - destruct Hout as [(k' & Hk' & Hacc' & _ & Hrun)|(Hall & Hrun)];
      rewrite Hrun; cbn [fst]; split; auto; try discriminate.
    intros Hall. rewrite (Hall k' Hk') in Hacc'. discriminate.
  - destruct Hout as [(k' & Hk' & Hacc' & _ & Hrun)|(Hall & Hrun)];
      rewrite Hrun; cbn [fst]; split; auto; try discriminate.
    + intros _. now exists k'.
    + intros (k & Hk & Hacc). rewrite (Hall k Hk) in Hacc. discriminate.
  - destruct Hout as [(k' & _ & _ & _ & Hrun)|(_ & Hrun)]; rewrite Hrun;
      auto.
Qed.

Lemma make_notes_cycle_counter_witness :
  let w := fresh_world retry_tape in
  8 <= 8 <= 16 /\
  make_notes 8 MAJOR_SCALE w
  = (Ok tt, after_cycles 2 (start_world 8 MAJOR_SCALE w)) /\
  _cycles (self (snd (make_notes 8 MAJOR_SCALE w))) = 2.
Proof.
  intros w. split; [lia|].
  destruct (make_notes_cycle_counter w 8 MAJOR_SCALE ltac:(lia))
    as (_ & _ & Hfirst & _).
  apply (Hfirst 1%nat).
  - unfold MAX_CYCLES. lia.
  - vm_compute. reflexivity.
  - intros j Hj. replace j with 0%nat by lia. vm_compute. reflexivity.
Defined.

(** C8.  For a length outside 8..16 [make_notes] raises the configuration
    error and leaves the world as it was: no draw is consumed, the cycle
    counter and the attempt are untouched. *)
Theorem make_notes_rejects_length (w : World) (length : Z) (scale : list Z) :
  length < 8 \/ 16 < length ->
  make_notes length scale w = (Raise ConfigurationError, w) /\
  cursor (snd (make_notes length scale w)) = cursor w /\
  _cycles (self (snd (make_notes length scale w))) = _cycles (self w) /\
  _degrees (self (snd (make_notes length scale w))) = _degrees (self w) /\
  _intervals (self (snd (make_notes length scale w))) = _intervals (self w) /\
  _directions (self (snd (make_notes length scale w)))
  = _directions (self w).
Proof.
  intros H. rewrite (make_notes_invalid length scale w H). repeat split.
Qed.

Lemma make_notes_rejects_length_witness :
  (7 < 8 \/ 16 < 7) /\
  make_notes 7 MAJOR_SCALE (fresh_world zero_tape)
  = (Raise ConfigurationError, fresh_world zero_tape) /\
  (17 < 8 \/ 16 < 17) /\
  make_notes 17 MAJOR_SCALE (fresh_world zero_tape)
  = (Raise ConfigurationError, fresh_world zero_tape).
Proof.
  split; [left; lia|]. split.
  { apply (make_notes_rejects_length (fresh_world zero_tape) 7 MAJOR_SCALE).
    left. lia. }
  split; [right; lia|].
  apply (make_notes_rejects_length (fresh_world zero_tape) 17 MAJOR_SCALE).
  right. lia.
Defined.

(** ** Pitch resolver *)

(** On the all-zero tape every attempt is the scale run [0 1 ... 7], which
    does not end on the tonic. *)
Lemma zero_tape_cycle (w : World) :
  tape w = zero_tape -> _length (self w) = Some 8 ->
  cycle_accepts w = false /\
  _degrees (self (cycle_world w)) = [0; 1; 2; 3; 4; 5; 6; 7].
Proof.
  destruct w as [[len sc dg iv dr cy] t c]. cbn [tape self _length].
  intros -> ->. split; vm_compute; reflexivity.
Qed.

Lemma zero_tape_exhausts :
  make_notes 8 MAJOR_SCALE (fresh_world zero_tape)
  = (Raise ExhaustionError,
     after_cycles (Z.to_nat (MAX_CYCLES + 1))
                  (start_world 8 MAJOR_SCALE (fresh_world zero_tape))).
Proof.
  destruct (make_notes_outcome 8 MAJOR_SCALE (fresh_world zero_tape)
                               ltac:(lia))
    as [(k & _ & Hacc & _)|(_ & Hrun)]; [exfalso|exact Hrun].
  set (w0 := start_world 8 MAJOR_SCALE (fresh_world zero_tape)) in *.
  destruct (after_cycles_settings k w0 8 eq_refl ltac:(lia))
    as (E1 & _ & _ & E4).
  destruct (zero_tape_cycle (after_cycles k w0) E4 E1) as (Hrej & _).
  unfold accepted_at in Hacc. congruence.
Qed.

(** The counterexample to C2: after [make_notes] has given up, the last
    rejected attempt is still stored and [get_notes] resolves it. *)
Lemma get_notes_after_exhaustion :
  fst (make_notes 8 MAJOR_SCALE (fresh_world zero_tape))
  = Raise ExhaustionError /\
  fst (get_notes 60 (snd (make_notes 8 MAJOR_SCALE (fresh_world zero_tape))))
  = Ok [60; 62; 64; 65; 67; 69; 71; 72] /\
  fst (get_notes 60 (snd (make_notes 8 MAJOR_SCALE (fresh_world zero_tape))))
  <> Raise InvalidStateError.
Proof.
  rewrite zero_tape_exhausts. cbn [fst snd].
  set (w0 := start_world 8 MAJOR_SCALE (fresh_world zero_tape)).
  replace (Z.to_nat (MAX_CYCLES + 1)) with (S (Z.to_nat MAX_CYCLES))
    by (unfold MAX_CYCLES; lia).
  rewrite after_cycles_S.
  set (wk := after_cycles (Z.to_nat MAX_CYCLES) w0).
  destruct (after_cycles_settings (Z.to_nat MAX_CYCLES) w0 8 eq_refl
                                  ltac:(lia))
    as (E1 & E2 & _ & E4).
  fold wk in E1, E2, E4.
  destruct (zero_tape_cycle wk E4 E1) as (_ & Hdeg).
  destruct (cycle_world_settings wk 8 E1 ltac:(lia)) as (_ & F2 & _).
  assert (Hget : fst (get_notes 60 (cycle_world wk))
                 = Ok [60; 62; 64; 65; 67; 69; 71; 72]).
  { rewrite get_notes_nonempty by (rewrite Hdeg; discriminate).
    cbn [fst]. rewrite Hdeg.
    rewrite (get_notes_loop_spec _ MAJOR_SCALE)
      by (rewrite ?F2, ?E2; try reflexivity;
          intros d Hd; cbn in Hd; intuition lia).
    reflexivity. }
  split; [reflexivity|]. split; [exact Hget|].
  rewrite Hget. discriminate.
Qed.

(** A call of [make_notes] with a valid length stores an attempt, whether
    it accepts or gives up. *)
Lemma make_notes_leaves_attempt (w : World) (length : Z) (scale : list Z) :
  8 <= length <= 16 ->
  _degrees (self (snd (make_notes length scale w))) <> [].
Proof.
  intros Hr. set (w0 := start_world length scale w).
  assert (Hcyc : forall k, _degrees (self (after_cycles (S k) w0)) <> []).
  { intros k. rewrite after_cycles_S.
    destruct (after_cycles_settings k w0 length eq_refl Hr) as (E1 & _).
    destruct (cycle_world_completed _ _ E1 Hr) as (Hcmp & _).
    exact (completed_nonempty _ _ Hcmp). }
  destruct (make_notes_outcome length scale w Hr)
    as [(k & _ & _ & _ & Hrun)|(_ & Hrun)]; rewrite Hrun; cbn [snd].
  - apply Hcyc.
  - replace (Z.to_nat (MAX_CYCLES + 1)) with (S (Z.to_nat MAX_CYCLES))
      by (unfold MAX_CYCLES; lia).
    apply Hcyc.
Qed.

(** C2, amended.  [get_notes] raises the invalid-state error, and returns
    no pitch list, exactly when the stored degree list is empty: so it does
    on a fresh object, and still after calls of [make_notes] rejected for
    their length, which leave the object as it was. *)
Theorem get_notes_before_generation (t : nat -> nat) (base_note : Z) :
  get_notes base_note (fresh_world t)
  = (Raise InvalidStateError, fresh_world t) /\
  (forall length scale,
      length < 8 \/ 16 < length ->
      get_notes base_note (snd (make_notes length scale (fresh_world t)))
      = (Raise InvalidStateError, fresh_world t)) /\
  (forall w : World,
      fst (get_notes base_note w) = Raise InvalidStateError <->
      _degrees (self w) = []).
Proof.
  split; [now apply get_notes_empty|]. split.
  - intros length scale Hbad. rewrite make_notes_invalid by exact Hbad.
    now apply get_notes_empty.
  - intros w. split.
    + intros Hraise.
      destruct (_degrees (self w)) as [|d rest] eqn:E; [reflexivity|].
      rewrite get_notes_nonempty in Hraise by (rewrite E; discriminate).
      cbn [fst] in Hraise.
      now apply get_notes_loop_not_invalid in Hraise.
    + intros E. now rewrite get_notes_empty.
Qed.

Lemma note_of_index (s : CantusFirmus) (base degree : Z) :
  note_of s base degree
  = rbind (scale_at s (scale_index degree))
          (fun offset => Ok (base + offset + octave_shift degree)).
Proof.
  unfold note_of, scale_index, octave_shift.
  destruct (degree >? 6); [reflexivity|].
  destruct (degree >=? 0); destruct (scale_at s _); cbn [rbind];
    try reflexivity; f_equal; lia.
Qed.

Lemma scales_rooted (scale : list Z) :
  In scale SCALES -> length scale = 7%nat /\ nth 0 scale 0 = 0.
Proof.
  intros H. repeat destruct H as [<-|H]; try (split; reflexivity).
  destruct H.
Qed.

(** The counterexample to C9: a table of seven entries whose first entry is
    not 0.  The sequence is accepted, its first and last degree are 0, and
    they resolve to 61 for the base note 60. *)
Lemma get_notes_shifted_table :
  let scale := [1; 2; 3; 4; 5; 6; 7] in
  let w' := snd (make_notes 8 scale (fresh_world climb_tape)) in
  List.length scale = 7%nat /\
  fst (make_notes 8 scale (fresh_world climb_tape)) = Ok tt /\
  _degrees (self w') = [0; 1; 2; 3; 4; 2; 1; 0] /\
  fst (get_notes 60 w') = Ok [61; 62; 63; 64; 65; 63; 62; 61] /\
  nth_error (_degrees (self w')) 0 = Some 0 /\
  (forall pitches, fst (get_notes 60 w') = Ok pitches ->
                   nth_error pitches 0 <> Some 60).
Proof.
  intros scale w'.
  assert (Hget : fst (get_notes 60 w') = Ok [61; 62; 63; 64; 65; 63; 62; 61])
    by (vm_compute; reflexivity).
  split; [reflexivity|]. split; [vm_compute; reflexivity|].
  split; [vm_compute; reflexivity|]. split; [exact Hget|].
  split; [vm_compute; reflexivity|].
  intros pitches Hp. rewrite Hget in Hp. injection Hp as <-.
  cbn. discriminate.
Qed.

(** C9, amended.  After a successful [make_notes], with a scale table of
    seven entries, [get_notes] returns one pitch per degree, computed by
    the three-way octave wrap of the specification.  A degree 0 resolves to
    the base note plus the first entry of the table; the degrees 0 resolve
    to the base note itself exactly when that entry is 0, as it is in every
    table of [common/scales.py].  The first and the last degree are 0. *)
Theorem get_notes_resolves (w : World) (length : Z) (scale : list Z)
        (base_note : Z) :
  fst (make_notes length scale w) = Ok tt ->
  List.length scale = 7%nat ->
  let w' := snd (make_notes length scale w) in
  let degrees := _degrees (self w') in
  let pitches := map (spec_pitch scale base_note) degrees in
  get_notes base_note w' = (Ok pitches, w') /\
  List.length pitches = List.length degrees /\
  Py.len degrees = length /\
  (forall i d, nth_error degrees i = Some d ->
               nth_error pitches i = Some (spec_pitch scale base_note d)) /\
  (forall i, nth_error degrees i = Some 0 ->
             nth_error pitches i = Some (base_note + nth 0 scale 0)) /\
  ((forall i, nth_error degrees i = Some 0 ->
              nth_error pitches i = Some base_note)
   <-> nth 0 scale 0 = 0) /\
  (In scale SCALES -> nth 0 scale 0 = 0) /\
  nth_error degrees 0 = Some 0 /\
  nth_error degrees (Z.to_nat (length - 1)) = Some 0.
Proof.
  intros Hok Hlen w' degrees pitches.
  destruct (make_notes_accepted length scale w Hok)
    as (Hr & Hacc & Hscale & _).
  fold w' in Hacc, Hscale.
  pose proof (acc_completed _ _ Hacc) as Hcmp.
  pose proof (acc_generated _ _ Hacc) as Hgen.
  pose proof (completed_nonempty _ _ Hcmp) as Hne.
  pose proof (cmp_degrees _ _ Hcmp) as Hdg. fold degrees in Hne, Hdg.
  assert (Hpitch : forall i d,
             nth_error degrees i = Some d ->
             nth_error pitches i = Some (spec_pitch scale base_note d)).
  { intros i d Hi. unfold pitches. now rewrite nth_error_map, Hi. }
  assert (Hzero : forall i,
             nth_error degrees i = Some 0 ->
             nth_error pitches i = Some (base_note + nth 0 scale 0)).
  { intros i Hi. now rewrite (Hpitch i 0 Hi). }
  assert (Hfirst : nth_error degrees 0 = Some 0).
  { unfold Py.len in Hdg.
    rewrite <- (gen_tonic _ Hgen). apply nth_error_nth'. fold degrees. lia. }
  split.
  { rewrite get_notes_nonempty by exact Hne. fold degrees.
    rewrite (get_notes_loop_spec _ scale base_note degrees [] Hscale Hlen);
      [reflexivity|].
    intros d Hd. pose proof (accepted_degree_bound _ _ d Hacc Hd). lia. }
  split; [apply length_map|]. split; [exact Hdg|].
  split; [exact Hpitch|]. split; [exact Hzero|]. split.
  { split.
    - intros Hbase. specialize (Hbase 0%nat Hfirst).
      rewrite (Hzero 0%nat Hfirst) in Hbase. injection Hbase as Hbase. lia.
    - intros Hroot i Hi. rewrite (Hzero i Hi), Hroot. f_equal. lia. }
  split; [intros Hin; now destruct (scales_rooted scale Hin)|].
  unfold Py.len in Hdg. split; [exact Hfirst|].
  pose proof (acc_rules _ _ Hacc) as Hrules.
  apply check_rules_true in Hrules. destruct Hrules as (H3 & _).
  rewrite (check_rule_3_run _ Hne) in H3. injection H3 as H3.
  apply Z.eqb_eq in H3. fold degrees in H3.
  replace (Z.to_nat (length - 1)) with (List.length degrees - 1)%nat by lia.
  rewrite <- H3. apply nth_error_nth'. lia.
Qed.

Lemma get_notes_resolves_witness :
  fst (make_notes 8 MAJOR_SCALE (fresh_world climb_tape)) = Ok tt /\
  List.length MAJOR_SCALE = 7%nat /\
  fst (get_notes 60 (snd (make_notes 8 MAJOR_SCALE (fresh_world climb_tape))))
  = Ok [60; 62; 64; 65; 67; 64; 62; 60].
Proof.
  split; [vm_compute; reflexivity|]. split; [reflexivity|].
  destruct (get_notes_resolves (fresh_world climb_tape) 8 MAJOR_SCALE 60)
    as (Hget & _); [vm_compute; reflexivity|reflexivity|].
  rewrite Hget. vm_compute. reflexivity.
Defined.

(** C10.  After a successful [make_notes] every stored degree lies between
    -7 and 7, the index [get_notes] computes for it lies between 0 and 6,
    and with a table of seven entries every lookup succeeds: [get_notes]
    returns a pitch list and raises nothing. *)
Theorem accepted_degrees_within_octave (w : World) (length : Z)
        (scale : list Z) (base_note : Z) :
  fst (make_notes length scale w) = Ok tt ->
  let w' := snd (make_notes length scale w) in
  nth_error (_degrees (self w')) 0 = Some 0 /\
  (forall d, In d (_degrees (self w')) ->
             -7 <= d <= 7 /\ 0 <= scale_index d <= 6 /\
             note_of (self w') base_note d
             = rbind (scale_at (self w') (scale_index d))
                     (fun offset =>
                        Ok (base_note + offset + octave_shift d)) /\
             (List.length scale = 7%nat ->
              scale_at (self w') (scale_index d)
              = Ok (nth (Z.to_nat (scale_index d)) scale 0))) /\
  (List.length scale = 7%nat ->
   exists pitches, get_notes base_note w' = (Ok pitches, w')).
Proof.
  intros Hok w'.
  destruct (make_notes_accepted length scale w Hok)
    as (Hr & Hacc & Hscale & _).
  fold w' in Hacc, Hscale.
  pose proof (acc_generated _ _ Hacc) as Hgen.
  pose proof (completed_nonempty _ _ (acc_completed _ _ Hacc)) as Hne.
  split; [|split].
  - rewrite <- (gen_tonic _ Hgen). apply nth_error_nth'.
    pose proof (gen_nonempty _ Hgen). lia.
  - intros d Hd.
    pose proof (accepted_degree_bound _ _ d Hacc Hd) as Hb.
    pose proof (scale_index_bound d ltac:(lia)) as Hi.
    split; [exact Hb|]. split; [exact Hi|].
    split; [apply note_of_index|].
    intros Hlen. unfold scale_at. rewrite Hscale.
    apply getitem_pos. unfold Py.len. lia.
  - intros Hlen. eexists.
    rewrite get_notes_nonempty by exact Hne.
    rewrite (get_notes_loop_spec _ scale base_note _ [] Hscale Hlen);
      [reflexivity|].
    intros d Hd. pose proof (accepted_degree_bound _ _ d Hacc Hd). lia.
Qed.

Lemma accepted_degrees_within_octave_witness :
  fst (make_notes 8 MAJOR_SCALE (fresh_world climb_tape)) = Ok tt /\
  nth_error
    (_degrees
       (self (snd (make_notes 8 MAJOR_SCALE (fresh_world climb_tape))))) 0
  = Some 0.
Proof.
  split; [vm_compute; reflexivity|].
  apply (accepted_degrees_within_octave (fresh_world climb_tape) 8
                                        MAJOR_SCALE 60).
  vm_compute. reflexivity.
Defined.

(** * Further properties *)

(** ** The remaining rules *)

Lemma rule_13_loop_spec (degrees indices : list Z) :
  (forall i, In i indices -> 0 <= i /\ i + 1 < Py.len degrees) ->
  exists b,
    rule_13_loop degrees indices = Ok b /\
    (b = true <->
     forall i, In i indices ->
               (nth (Z.to_nat i) degrees 0 = -1 ->
                nth (Z.to_nat (i + 1)) degrees 0 = 0) /\
               (nth (Z.to_nat i) degrees 0 = 6 ->
                nth (Z.to_nat (i + 1)) degrees 0 = 7)).
Proof.
  induction indices as [|i rest IH]; intros Hidx.
  - exists true. split; [reflexivity|]. split; [intros _ i []|reflexivity].
  - destruct (Hidx i (or_introl eq_refl)) as [H0 H1].
    destruct IH as (b & Hb & Hiff); [intros j Hj; apply Hidx; now right|].
    cbn [rule_13_loop].
    rewrite (getitem_pos _ i 0) by lia. cbn [rbind].
    rewrite (getitem_pos _ (i + 1) 0) by lia.
    set (d := nth (Z.to_nat i) degrees 0) in *.
    set (d' := nth (Z.to_nat (i + 1)) degrees 0) in *.
    assert (Hbad :
               (d = -1 /\ d' <> 0) \/ (d = 6 /\ d' <> 7) ->
               (false = true <->
                forall j, In j (i :: rest) ->
                  (nth (Z.to_nat j) degrees 0 = -1 ->
                   nth (Z.to_nat (j + 1)) degrees 0 = 0) /\
                  (nth (Z.to_nat j) degrees 0 = 6 ->
                   nth (Z.to_nat (j + 1)) degrees 0 = 7))).
    { intros Hviol. split; [discriminate|]. intros Hall.
      destruct (Hall i (or_introl eq_refl)) as [Ha Hb'].
      fold d d' in Ha, Hb'.
      destruct Hviol as [[E N]|[E N]]; [apply Ha in E|apply Hb' in E]; lia. }
    assert (Hgood : (d = -1 -> d' = 0) -> (d = 6 -> d' = 7) ->
               (b = true <->
                forall j, In j (i :: rest) ->
                  (nth (Z.to_nat j) degrees 0 = -1 ->
                   nth (Z.to_nat (j + 1)) degrees 0 = 0) /\
                  (nth (Z.to_nat j) degrees 0 = 6 ->
                   nth (Z.to_nat (j + 1)) degrees 0 = 7))).
    { intros Ha Hb'. rewrite Hiff. split.
      - intros Hall j [<-|Hj]; [split; assumption|now apply Hall].
      - intros Hall j Hj. apply Hall. now right. }
    destruct (Z.eqb_spec d (-1)) as [E1|N1]; cbn [rbind].
    + destruct (Z.eqb_spec d' 0) as [E0|N0]; cbn [negb].
      * destruct (Z.eqb_spec d 6) as [E6|N6]; [lia|]. cbn [rbind].
        exists b. split; [exact Hb|]. apply Hgood; intros; lia.
      * exists false. split; [reflexivity|]. apply Hbad. left. lia.
    + destruct (Z.eqb_spec d 6) as [E6|N6]; cbn [rbind].
      * destruct (Z.eqb_spec d' 7) as [E7|N7]; cbn [negb].
        -- exists b. split; [exact Hb|]. apply Hgood; intros; lia.
        -- exists false. split; [reflexivity|]. apply Hbad. right. lia.
      * exists b. split; [exact Hb|]. apply Hgood; intros; lia.
Qed.

Lemma scale_is_spec (s : CantusFirmus) (scale : list Z) :
  scale_is s scale = true <-> _scale s = Some scale.
Proof.
  unfold scale_is. destruct (_scale s) as [sc|].
  - rewrite list_eqb_eq. split; congruence.
  - split; discriminate.
Qed.

(** X1.  On a completed attempt the leading-tone check returns a verdict.
    In the major scale it accepts exactly when, over the positions
    [0 .. L-2], every degree -1 is followed by 0 and every degree 6 by 7;
    with any other scale it accepts. *)
Theorem leading_tone_rule (s : CantusFirmus) (L : Z) :
  completed s L ->
  (exists b, _check_rule_13 s = Ok b) /\
  (_scale s = Some MAJOR_SCALE ->
   (_check_rule_13 s = Ok true <-> leading_tone_resolves (_degrees s) L)) /\
  (_scale s <> Some MAJOR_SCALE -> _check_rule_13 s = Ok true).
Proof.
  intros Hc. split; [exact (check_rule_13_total s L Hc)|].
  pose proof (cmp_length _ _ Hc) as HL.
  pose proof (cmp_degrees _ _ Hc) as Hd.
  unfold _check_rule_13. split.
  - intros Hmaj. apply scale_is_spec in Hmaj. rewrite Hmaj.
    unfold length_of. rewrite HL. cbn [rbind].
    destruct (rule_13_loop_spec (_degrees s) (Py.range 0 (L - 1)))
      as (b & Hb & Hiff).
    { intros i Hi. apply in_range in Hi. lia. }
    rewrite Hb. unfold leading_tone_resolves.
    split.
    + intros E. injection E as ->. destruct Hiff as [Hall _].
      specialize (Hall eq_refl). intros i Hi.
      specialize (Hall (Z.of_nat i)).
      rewrite Nat2Z.id in Hall.
      replace (Z.to_nat (Z.of_nat i + 1)) with (S i) in Hall by lia.
      apply Hall. apply in_range. lia.
    + intros Hall. f_equal. apply Hiff. intros i Hi. apply in_range in Hi.
      specialize (Hall (Z.to_nat i) ltac:(lia)).
      now replace (S (Z.to_nat i)) with (Z.to_nat (i + 1)) in Hall by lia.
  - intros Hother. destruct (scale_is s MAJOR_SCALE) eqn:E; [|reflexivity].
    apply scale_is_spec in E. contradiction.
Qed.

Lemma leading_tone_rule_witness :
  completed leading_tone_attempt 8 /\
  _degrees leading_tone_attempt = [0; 1; 2; 3; 4; 2; -1; 0] /\
  leading_tone_resolves (_degrees leading_tone_attempt) 8.
Proof.
  assert (Hc : completed leading_tone_attempt 8)
    by (constructor; try reflexivity; lia).
  split; [exact Hc|]. split; [reflexivity|].
  destruct (leading_tone_rule leading_tone_attempt 8 Hc) as (_ & Hmaj & _).
  apply (Hmaj eq_refl). reflexivity.
Defined.

(** X2.  The range check raises [ValueError] on an empty degree list; on a
    non-empty one it returns a verdict and accepts exactly when no two
    degrees are more than [MAX_RANGE] apart. *)
Theorem range_rule (s : CantusFirmus) :
  (_degrees s = [] -> _check_rule_6 s = Raise ValueError) /\
  (_degrees s <> [] ->
   exists b,
     _check_rule_6 s = Ok b /\
     (b = true <->
      forall x y, In x (_degrees s) -> In y (_degrees s) ->
                  x - y <= MAX_RANGE)).
Proof.
  split.
  - intros E. unfold _check_rule_6. rewrite E. reflexivity.
  - intros Hne.
    destruct (check_rule_6_run s Hne)
      as (lo & hi & (Hhi & Hub) & (Hlo & Hlb) & Hrun).
    eexists. split; [exact Hrun|]. rewrite Z.leb_le. split.
    + intros Hspread x y Hx Hy.
      pose proof (Hub _ Hx). pose proof (Hlb _ Hy). lia.
    + intros Hall. now apply Hall.
Qed.

(** X3.  On a completed attempt none of the seven rules raises, and the
    verdict of [_check_rules] is the conjunction of their verdicts, whatever
    the order in which they are tried. *)
Theorem check_rules_conjunction (s : CantusFirmus) (L : Z) :
  completed s L ->
  exists r3 r4 r6 r7 r8 r10 r13 : bool,
    _check_rule_3 s = Ok r3 /\ _check_rule_4 s = Ok r4 /\
    _check_rule_6 s = Ok r6 /\ _check_rule_7 s = Ok r7 /\
    _check_rule_8 s = Ok r8 /\ _check_rule_10 s = Ok r10 /\
    _check_rule_13 s = Ok r13 /\
    _check_rules s = Ok (r3 && r4 && r6 && r7 && r8 && r10 && r13).
Proof.
  intros Hc. pose proof (completed_nonempty _ _ Hc) as Hne.
  pose proof (cmp_length _ _ Hc) as HL.
  pose proof (cmp_degrees _ _ Hc) as Hdg.
  pose proof (cmp_directions _ _ Hc) as Hdr.
  pose proof (cmp_range _ _ Hc) as Hr.
  assert (Hlen2 : (2 <= length (_degrees s))%nat)
    by (unfold Py.len in Hdg; lia).
  destruct (check_rule_6_run s Hne) as (lo & hi & _ & _ & H6).
  destruct (check_rule_7_run s L HL Hne) as (r7 & H7 & _).
  destruct (check_rule_8_run s L Hdg Hdr) as (r8 & H8 & _).
  destruct (check_rule_10_run s L HL Hdg) as (r10 & H10 & _).
  destruct (check_rule_13_total s L Hc) as (r13 & H13).
  pose proof (check_rule_3_run s Hne) as H3.
  pose proof (check_rule_4_run s Hlen2) as H4.
  do 7 eexists.
  repeat (split; [eassumption|]).
  unfold _check_rules. rewrite H3, H4, H6, H7, H8, H10, H13. cbn [rbind].
  repeat match goal with
         | |- context [negb ?b] => destruct b; cbn [negb rbind andb]
         end; reflexivity.
Qed.

Lemma check_rules_conjunction_witness :
  completed climb_attempt 8 /\ _check_rules climb_attempt = Ok true.
Proof.
  assert (Hc : completed climb_attempt 8)
    by (constructor; try reflexivity; lia).
  split; [exact Hc|].
  destruct (check_rules_conjunction climb_attempt 8 Hc)
    as (r3 & r4 & r6 & r7 & r8 & r10 & r13 & H3 & H4 & H6 & H7 & H8 & H10
        & H13 & Hall).
  rewrite Hall.
  vm_compute in H3, H4, H6, H7, H8, H10, H13.
  injection H3 as <-. injection H4 as <-. injection H6 as <-.
  injection H7 as <-. injection H8 as <-. injection H10 as <-.
  injection H13 as <-. reflexivity.
Defined.

(** X4.  On an object that holds no degrees yet, as [CantusFirmus()]
    leaves it, the rules that subscript the list raise [IndexError], those
    that take its maximum raise [ValueError], the slope check rejects, and
    [_check_rules] raises the [IndexError] of its first rule. *)
Theorem rules_on_empty_attempt (s : CantusFirmus) :
  _degrees s = [] ->
  _check_rule_3 s = Raise IndexError /\
  _check_rule_4 s = Raise IndexError /\
  _check_rule_6 s = Raise ValueError /\
  _check_rule_7 s = Raise ValueError /\
  _check_rule_8 s = Ok false /\
  _check_rules s = Raise IndexError.
Proof.
  intros E.
  unfold _check_rules, _check_rule_3, _check_rule_4, _check_rule_6,
    _check_rule_7, _check_rule_8.
  rewrite E. repeat split; reflexivity.
Qed.

Lemma rules_on_empty_attempt_witness :
  _degrees __init__ = [] /\ _check_rules __init__ = Raise IndexError.
Proof.
  split; [reflexivity|].
  apply (rules_on_empty_attempt __init__). reflexivity.
Defined.

(** ** The shape of an accepted sequence *)

Lemma contains_spec (x : Z) (l : list Z) :
  Py.contains x l = true <-> In x l.
Proof.
  unfold Py.contains. rewrite existsb_exists. split.
  - intros (y & Hy & E). apply Z.eqb_eq in E. now subst.
  - intros H. exists x. split; [exact H|apply Z.eqb_refl].
Qed.

(** What the rules say of an accepted attempt, position by position. *)
Lemma accepted_ends (s : CantusFirmus) (L : Z) :
  accepted s L ->
  length (_degrees s) = Z.to_nat L /\
  nth (Z.to_nat L - 1) (_degrees s) 0 = 0 /\
  (nth (Z.to_nat L - 2) (_degrees s) 0 = 1 \/
   nth (Z.to_nat L - 2) (_degrees s) 0 = -1) /\
  Z.abs (nth (Z.to_nat L - 1) (_intervals s) 0) = 1.
Proof.
  intros [Hcmp Hgen Hrules].
  pose proof (completed_nonempty _ _ Hcmp) as Hne.
  pose proof (cmp_degrees _ _ Hcmp) as Hdg.
  pose proof (cmp_range _ _ Hcmp) as Hr.
  unfold Py.len in Hdg.
  assert (Hn : length (_degrees s) = Z.to_nat L) by lia.
  apply check_rules_true in Hrules.
  destruct Hrules as (H3 & H4 & _).
  rewrite (check_rule_3_run s Hne) in H3. injection H3 as H3.
  apply Z.eqb_eq in H3. rewrite Hn in H3.
  rewrite (check_rule_4_run s) in H4 by lia.
  assert (H4' : Py.contains (nth (length (_degrees s) - 2) (_degrees s) 0)
                            [1; -1; 6; -6] = true) by congruence.
  apply contains_spec in H4'. rewrite Hn in H4'.
  destruct (gen_steps _ Hgen (Z.to_nat L - 1)%nat ltac:(lia))
    as [_ Hmag _ Hdeg _ _].
  replace (Z.to_nat L - 1 - 1)%nat with (Z.to_nat L - 2)%nat in Hdeg by lia.
  rewrite H3 in Hdeg.
  split; [exact Hn|]. split; [exact H3|].
  cbn [In] in H4'. split; lia.
Qed.

(** X5.  After a successful [make_notes] the sequence ends on the tonic,
    approached by a step of one degree from 1 or from -1: the degrees 6 and
    -6 that rule 4 also admits never occur there, since the generator moves
    by at most three degrees.  The single climax, at least 3, lies between
    the positions [L // 2] and [L - 3]. *)
Theorem accepted_cadence (w : World) (length : Z) (scale : list Z) :
  fst (make_notes length scale w) = Ok tt ->
  let s := self (snd (make_notes length scale w)) in
  let n := Z.to_nat length in
  nth (n - 1) (_degrees s) 0 = 0 /\
  (nth (n - 2) (_degrees s) 0 = 1 \/ nth (n - 2) (_degrees s) 0 = -1) /\
  Z.abs (nth (n - 1) (_intervals s) 0) = 1 /\
  exists (m : Z) (i : nat),
    is_maximum (_degrees s) m /\ occurs_once_at (_degrees s) m i /\
    3 <= m /\ length / 2 <= Z.of_nat i <= length - 3.
Proof.
  intros Hok s n.
  destruct (make_notes_accepted length scale w Hok) as (Hr & Hacc & _).
  fold s in Hacc.
  destruct (accepted_ends s length Hacc) as (Hn & Hlast & Hpen & Hstep).
  fold n in Hn, Hlast, Hpen, Hstep.
  split; [exact Hlast|]. split; [exact Hpen|]. split; [exact Hstep|].
  pose proof (acc_rules _ _ Hacc) as Hrules.
  apply check_rules_true in Hrules.
  destruct Hrules as (_ & _ & _ & H7 & _).
  destruct (check_rule_7_run s length (cmp_length _ _ (acc_completed _ _ Hacc))
              (completed_nonempty _ _ (acc_completed _ _ Hacc)))
    as (b & Hrun & Hiff).
  rewrite Hrun in H7. injection H7 as ->.
  destruct Hiff as [Hclimax _].
  destruct (Hclimax eq_refl) as (m & i & Hmax & Honce & Hhalf & Hm).
  exists m, i. split; [exact Hmax|]. split; [exact Honce|].
  split; [exact Hm|]. split; [exact Hhalf|].
  destruct Honce as [Hi _].
  assert (Hnth : nth i (_degrees s) 0 = m) by now apply nth_error_nth.
  assert (Hlt : (i < List.length (_degrees s))%nat)
    by (apply nth_error_Some; congruence).
  destruct (Nat.eq_dec i (n - 1)) as [->|N1]; [lia|].
  destruct (Nat.eq_dec i (n - 2)) as [->|N2]; [lia|].
  lia.
Qed.

Lemma accepted_cadence_witness :
  fst (make_notes 8 MAJOR_SCALE (fresh_world climb_tape)) = Ok tt /\
  nth 7 (_degrees (self (snd (make_notes 8 MAJOR_SCALE
                                         (fresh_world climb_tape))))) 0 = 0.
Proof.
  split; [vm_compute; reflexivity|].
  apply (accepted_cadence (fresh_world climb_tape) 8 MAJOR_SCALE).
  vm_compute. reflexivity.
Defined.

Lemma count_le_1_of_unique (l : list Z) (x : Z) :
  (forall i j, nth_error l i = Some x -> nth_error l j = Some x -> i = j) ->
  (count_occ Z.eq_dec l x <= 1)%nat.
Proof.
  induction l as [|a t IH]; intros Huniq; [cbn; lia|].
  cbn [count_occ]. destruct (Z.eq_dec a x) as [->|Hne].
  - assert (Hnot : ~ In x t).
    { intros Hin. destruct (In_nth_error _ _ Hin) as (j & Hj).
      specialize (Huniq 0%nat (S j) eq_refl Hj). discriminate. }
    apply (count_occ_not_In Z.eq_dec) in Hnot. lia.
  - apply IH. intros i j Hi Hj.
    specialize (Huniq (S i) (S j) Hi Hj). lia.
Qed.

(** X6.  After a successful [make_notes] in the major scale the leading
    tone -1 occurs at most once, and so does the degree 6: each occurrence
    is followed by the same note, and no motive occurs twice. *)
Theorem major_leading_tone_once (w : World) (length : Z) :
  fst (make_notes length MAJOR_SCALE w) = Ok tt ->
  let s := self (snd (make_notes length MAJOR_SCALE w)) in
  (count_occ Z.eq_dec (_degrees s) (-1)%Z <= 1)%nat /\
  (count_occ Z.eq_dec (_degrees s) 6%Z <= 1)%nat /\
  leading_tone_resolves (_degrees s) length.
Proof.
  intros Hok s.
  destruct (make_notes_accepted length MAJOR_SCALE w Hok)
    as (Hr & Hacc & Hscale & _).
  fold s in Hacc, Hscale.
  pose proof (acc_completed _ _ Hacc) as Hcmp.
  destruct (accepted_ends s length Hacc) as (Hn & Hlast & _).
  pose proof (acc_rules _ _ Hacc) as Hrules.
  apply check_rules_true in Hrules.
  destruct Hrules as (_ & _ & _ & _ & _ & H10 & H13).
  apply (leading_tone_rule s length Hcmp) in H13; [|exact Hscale].
  destruct (check_rule_10_run s length (cmp_length _ _ Hcmp)
                              (cmp_degrees _ _ Hcmp))
    as (b & Hrun & Hiff).
  rewrite Hrun in H10. injection H10 as ->.
  destruct Hiff as [Hmot _]. specialize (Hmot eq_refl).
  assert (Honce : forall x y : Z,
             x <> 0 ->
             (forall i : nat, Z.of_nat i + 1 < length ->
                              nth i (_degrees s) 0 = x ->
                              nth (S i) (_degrees s) 0 = y) ->
             (count_occ Z.eq_dec (_degrees s) x <= 1)%nat).
  { intros x y Hx Hnext. apply count_le_1_of_unique. intros i j Hi Hj.
    assert (Hpos : forall k, nth_error (_degrees s) k = Some x ->
                             nth k (_degrees s) 0 = x /\
                             Z.of_nat k + 1 < length).
    { intros k Hk. split; [now apply nth_error_nth|].
      assert (k < List.length (_degrees s))%nat
        by (apply nth_error_Some; congruence).
      destruct (Nat.eq_dec k (Z.to_nat length - 1)) as [->|Hne]; [|lia].
      apply (nth_error_nth _ _ 0) in Hk. congruence. }
    destruct (Hpos i Hi) as (Ei & Bi). destruct (Hpos j Hj) as (Ej & Bj).
    destruct (Nat.eq_dec i j) as [|Hne]; [assumption|exfalso].
    apply (Hmot i j); try lia. unfold motive_at.
    now rewrite Ei, Ej, (Hnext i Bi Ei), (Hnext j Bj Ej). }
  split; [|split; [|exact H13]].
  - apply (Honce (-1) 0); [lia|]. intros i Hi. now apply H13.
  - apply (Honce 6 7); [lia|]. intros i Hi. now apply H13.
Qed.

Lemma major_leading_tone_once_witness :
  let w := fresh_world leading_tone_tape in
  fst (make_notes 8 MAJOR_SCALE w) = Ok tt /\
  _degrees (self (snd (make_notes 8 MAJOR_SCALE w)))
  = [0; 1; 2; 3; 4; 2; -1; 0] /\
  (count_occ Z.eq_dec (_degrees (self (snd (make_notes 8 MAJOR_SCALE w))))
             (-1)%Z <= 1)%nat.
Proof.
  intros w. split; [vm_compute; reflexivity|].
  split; [vm_compute; reflexivity|].
  apply (major_leading_tone_once w 8). vm_compute. reflexivity.
Defined.

(** ** The generator *)

(** X7.  In every attempt the generator produces, each note differs from
    the one before by the stored interval, whose magnitude is 1, 2 or 3 and
    whose sign is the stored direction: no note is repeated and no step
    exceeds a fourth, so note [i] lies within [3 * i] degrees of the
    tonic.  Position 0 holds the tonic and the two sentinels. *)
Theorem generator_steps (w : World) (L : Z) :
  _length (self w) = Some L -> 1 <= L ->
  let s := self (snd (attempt w)) in
  nth 0 (_degrees s) 0 = 0 /\
  nth 0 (_intervals s) 0 = 0 /\
  nth 0 (_directions s) 0 = 0 /\
  forall i : nat,
    (1 <= i)%nat -> Z.of_nat i < L ->
    nth i (_degrees s) 0 - nth (i - 1) (_degrees s) 0
    = nth i (_intervals s) 0 /\
    1 <= Z.abs (nth i (_intervals s) 0) <= 3 /\
    nth i (_directions s) 0 = Z.sgn (nth i (_intervals s) 0) /\
    Z.abs (nth i (_degrees s) 0) <= 3 * Z.of_nat i.
Proof.
  intros HL H1.
  destruct (attempt_run w L HL H1) as (w' & Hatt & Hgen & Hlen & _).
  rewrite Hatt. cbn [snd]. cbv zeta. unfold Py.len in Hlen.
  split; [exact (gen_tonic _ Hgen)|].
  split; [exact (gen_interval0 _ Hgen)|].
  split; [exact (gen_direction0 _ Hgen)|].
  assert (Hstep : forall i : nat,
             (1 <= i)%nat -> Z.of_nat i < L ->
             nth i (_degrees (self w')) 0 - nth (i - 1) (_degrees (self w')) 0
             = nth i (_intervals (self w')) 0 /\
             1 <= Z.abs (nth i (_intervals (self w')) 0) <= 3 /\
             nth i (_directions (self w')) 0
             = Z.sgn (nth i (_intervals (self w')) 0)).
  { intros i Hi HiL.
    destruct (gen_steps _ Hgen i ltac:(lia)) as [Hd Hmag Hsign Hdeg _ _].
    split; [lia|]. split; [exact Hmag|].
    destruct Hd as [E1|E1]; rewrite E1 in *; lia. }
  intros i Hi HiL. destruct (Hstep i Hi HiL) as (E & M & S).
  split; [exact E|]. split; [exact M|]. split; [exact S|].
  clear E M S Hi. induction i as [|i IH].
  - rewrite (gen_tonic _ Hgen). lia.
  - destruct (Hstep (S i) ltac:(lia) HiL) as (E & M & _).
    replace (S i - 1)%nat with i in E by lia.
    specialize (IH ltac:(lia)). lia.
Qed.

Lemma generator_steps_witness :
  let w := start_world 8 MAJOR_SCALE (fresh_world leaping_tape) in
  _length (self w) = Some 8 /\ 1 <= 8 /\
  nth 2 (_degrees (self (snd (attempt w)))) 0
  - nth 1 (_degrees (self (snd (attempt w)))) 0 = -3.
Proof.
  intros w. split; [reflexivity|]. split; [lia|].
  destruct (generator_steps w 8 eq_refl ltac:(lia)) as (_ & _ & _ & Hstep).
  destruct (Hstep 2%nat ltac:(lia) ltac:(lia)) as (E & _).
  cbn [Nat.sub] in E. rewrite E. reflexivity.
Defined.

(** ** The controller and the state of the object *)

Lemma attempt_seeded (w : World) : attempt w = attempt (seeded w).
Proof. reflexivity. Qed.

Lemma seeded_same (w1 w2 : World) :
  tape w1 = tape w2 -> cursor w1 = cursor w2 ->
  _length (self w1) = _length (self w2) ->
  _scale (self w1) = _scale (self w2) ->
  _cycles (self w1) = _cycles (self w2) ->
  seeded w1 = seeded w2.
Proof.
  intros Ht Hc Hl Hs Hy. unfold seeded, set_directions, set_intervals,
    set_degrees. cbn [_length _scale _degrees _intervals _directions _cycles].
  now rewrite Ht, Hc, Hl, Hs, Hy.
Qed.

Lemma cycle_same (w1 w2 : World) :
  tape w1 = tape w2 -> cursor w1 = cursor w2 ->
  _length (self w1) = _length (self w2) ->
  _scale (self w1) = _scale (self w2) ->
  _cycles (self w1) = _cycles (self w2) ->
  cycle w1 = cycle w2.
Proof.
  intros Ht Hc Hl Hs Hy. unfold cycle, bind.
  rewrite (attempt_seeded w1), (attempt_seeded w2).
  now rewrite (seeded_same w1 w2 Ht Hc Hl Hs Hy).
Qed.

(** X8.  A call of [make_notes] with a valid length does not depend on
    what the object held before: started on the same draws, it ends with
    the same outcome and leaves the same object, whatever attempt, counter,
    length or scale an earlier call had stored. *)
Theorem make_notes_forgets_earlier_state (w1 w2 : World) (length : Z)
        (scale : list Z) :
  8 <= length <= 16 ->
  tape w1 = tape w2 -> cursor w1 = cursor w2 ->
  make_notes length scale w1 = make_notes length scale w2.
Proof.
  intros Hr Ht Hc. rewrite !make_notes_valid by exact Hr.
  pose proof make_notes_fuel_enough as Hfuel.
  destruct make_notes_fuel as [|fuel]; [lia|].
  assert (Hmax : 0 <= MAX_CYCLES) by (unfold MAX_CYCLES; lia).
  rewrite (while_step fuel (start_world length scale w1) length eq_refl Hr)
    by exact Hmax.
  rewrite (while_step fuel (start_world length scale w2) length eq_refl Hr)
    by exact Hmax.
  unfold cycle_accepts, cycle_world.
  now rewrite (cycle_same (start_world length scale w1)
                          (start_world length scale w2) Ht Hc
                          eq_refl eq_refl eq_refl).
Qed.

Lemma make_notes_forgets_earlier_state_witness :
  let w1 := fresh_world climb_tape in
  let w2 := {| self := late_slope_attempt; tape := climb_tape;
               cursor := 0%nat |} in
  8 <= 8 <= 16 /\ tape w1 = tape w2 /\ cursor w1 = cursor w2 /\
  make_notes 8 MAJOR_SCALE w1 = make_notes 8 MAJOR_SCALE w2.
Proof.
  intros w1 w2. split; [lia|]. split; [reflexivity|]. split; [reflexivity|].
  apply (make_notes_forgets_earlier_state w1 w2 8 MAJOR_SCALE);
    [lia|reflexivity|reflexivity].
Defined.

(** ** The pitch resolver *)

Lemma note_of_shift (s : CantusFirmus) (base k d : Z) :
  note_of s (base + k) d
  = rbind (note_of s base d) (fun p => Ok (p + k)).
Proof.
  unfold note_of.
  destruct (d >? 6); [|destruct (d >=? 0)];
    destruct (scale_at s _); cbn [rbind]; try reflexivity; f_equal; lia.
Qed.

Lemma get_notes_loop_shift (s : CantusFirmus) (base k : Z)
      (degrees acc : list Z) :
  get_notes_loop s (base + k) degrees (map (fun p => p + k) acc)
  = rbind (get_notes_loop s base degrees acc)
          (fun ps => Ok (map (fun p => p + k) ps)).
Proof.
  revert acc. induction degrees as [|d rest IH]; intros acc;
    cbn [get_notes_loop]; [reflexivity|].
  rewrite note_of_shift.
  destruct (note_of s base d) as [p|e|]; cbn [rbind]; try reflexivity.
  rewrite <- IH. now rewrite map_app.
Qed.

(** X9.  [get_notes] only reads the object: it returns the world it was
    given, so a second call gives the same answer.  Raising the base note
    by [k] raises every pitch by [k], and changes nothing to an error. *)
Theorem get_notes_transposes (w : World) (base_note k : Z) :
  snd (get_notes base_note w) = w /\
  fst (get_notes (base_note + k) w)
  = rbind (fst (get_notes base_note w))
          (fun pitches => Ok (map (fun p => p + k) pitches)).
Proof.
  destruct (_degrees (self w)) as [|d rest] eqn:E.
  - rewrite !get_notes_empty by exact E. split; reflexivity.
  - assert (Hne : _degrees (self w) <> []) by (rewrite E; discriminate).
    rewrite !get_notes_nonempty by exact Hne. split; [reflexivity|].
    cbn [fst]. apply (get_notes_loop_shift (self w) base_note k _ []).
Qed.

(** X10.  With a table of seven entries the subscript of [note_of] is in
    bounds for the degrees -14 to 13 only; outside it raises [IndexError].
    From -7 to 13 the pitch follows the octave wrap; from -14 to -8 the
    negative subscript wraps round the table, so the pitch is only one
    octave below the table entry it reaches. *)
Theorem note_of_domain (s : CantusFirmus) (scale : list Z) (base d : Z) :
  _scale s = Some scale -> length scale = 7%nat ->
  (d < -14 \/ 13 < d -> note_of s base d = Raise IndexError) /\
  (-7 <= d <= 13 -> note_of s base d = Ok (spec_pitch scale base d)) /\
  (-14 <= d < -7 ->
   note_of s base d = Ok (base + nth (Z.to_nat (14 + d)) scale 0 - 12)).
Proof.
  intros Hs Hlen. split; [|split].
  - intros Hout. unfold note_of, scale_at. rewrite Hs.
    unfold Py.getitem, Py.len. rewrite Hlen.
    destruct (Z.gtb_spec d 6); [|destruct (Z.geb_spec d 0)]; try lia.
    + destruct (Z.ltb_spec (d - 7) 0); [lia|].
      destruct (Z.ltb_spec (d - 7) 0); [lia|].
      destruct (Z.leb_spec (Z.of_nat 7) (d - 7)); [reflexivity|lia].
    + destruct (Z.ltb_spec (7 + d) 0); [|lia].
      destruct (Z.ltb_spec (7 + d + Z.of_nat 7) 0); [reflexivity|lia].
  - intros Hin. now apply note_of_spec.
  - intros Hlow. unfold note_of, scale_at. rewrite Hs.
    destruct (Z.gtb_spec d 6); [lia|]. destruct (Z.geb_spec d 0); [lia|].
    rewrite (getitem_neg scale (7 + d) 0) by (unfold Py.len; lia).
    cbn [rbind]. unfold Py.len. rewrite Hlen.
    do 4 f_equal. lia.
Qed.

Lemma note_of_domain_witness :
  _scale (set_scale MAJOR_SCALE __init__) = Some MAJOR_SCALE /\
  length MAJOR_SCALE = 7%nat /\
  note_of (set_scale MAJOR_SCALE __init__) 60 14 = Raise IndexError /\
  note_of (set_scale MAJOR_SCALE __init__) 60 (-8) = Ok 59.
Proof.
  split; [reflexivity|]. split; [reflexivity|].
  destruct (note_of_domain (set_scale MAJOR_SCALE __init__) MAJOR_SCALE 60 14
              eq_refl eq_refl) as (Hout & _).
  destruct (note_of_domain (set_scale MAJOR_SCALE __init__) MAJOR_SCALE 60 (-8)
              eq_refl eq_refl) as (_ & _ & Hlow).
  split; [apply Hout; lia|]. rewrite Hlow by lia. reflexivity.
Defined.

Lemma spec_pitch_base (scale : list Z) (base d : Z) :
  spec_pitch scale base d = base + spec_pitch scale 0 d.
Proof.
  unfold spec_pitch. destruct (6 <? d); [|destruct (0 <=? d)]; lia.
Qed.

Lemma spec_pitch_succ (scale : list Z) (base d : Z) :
  In scale SCALES -> -7 <= d < 7 ->
  spec_pitch scale base d < spec_pitch scale base (d + 1).
Proof.
  intros Hin Hd.
  rewrite (spec_pitch_base scale base d), (spec_pitch_base scale base (d + 1)).
  apply Z.add_lt_mono_l.
  assert (Hcases : d = -7 \/ d = -6 \/ d = -5 \/ d = -4 \/ d = -3 \/
                   d = -2 \/ d = -1 \/ d = 0 \/ d = 1 \/ d = 2 \/ d = 3 \/
                   d = 4 \/ d = 5 \/ d = 6) by lia.
  clear Hd.
  repeat destruct Hin as [<-|Hin]; try destruct Hin;
    repeat destruct Hcases as [->|Hcases]; try subst d;
    vm_compute; reflexivity.
Qed.

Lemma spec_pitch_increasing (scale : list Z) (base d1 d2 : Z) :
  In scale SCALES -> -7 <= d1 -> d1 < d2 -> d2 <= 7 ->
  spec_pitch scale base d1 < spec_pitch scale base d2.
Proof.
  intros Hin Hlo Hlt Hhi.
  assert (Hgap : forall k : nat,
             d1 + 1 + Z.of_nat k <= 7 ->
             spec_pitch scale base d1
             < spec_pitch scale base (d1 + 1 + Z.of_nat k)).
  { induction k as [|k IH]; intros Hk.
    - rewrite Z.add_0_r. apply spec_pitch_succ; [exact Hin|lia].
    - specialize (IH ltac:(lia)).
      pose proof (spec_pitch_succ scale base (d1 + 1 + Z.of_nat k) Hin
                                  ltac:(lia)) as Hs.
      replace (d1 + 1 + Z.of_nat (S k)) with (d1 + 1 + Z.of_nat k + 1) by lia.
      lia. }
  specialize (Hgap (Z.to_nat (d2 - d1 - 1)) ltac:(lia)).
  now replace (d1 + 1 + Z.of_nat (Z.to_nat (d2 - d1 - 1))) with d2 in Hgap
    by lia.
Qed.

Lemma spec_pitch_ends (scale : list Z) (base : Z) :
  In scale SCALES ->
  spec_pitch scale base (-7) = base - 12 /\
  spec_pitch scale base 7 = base + 12.
Proof.
  intros Hin.
  rewrite (spec_pitch_base scale base (-7)), (spec_pitch_base scale base 7).
  assert (Hz : spec_pitch scale 0 (-7) = -12 /\ spec_pitch scale 0 7 = 12)
    by (repeat destruct Hin as [<-|Hin]; try destruct Hin;
        split; reflexivity).
  lia.
Qed.

Lemma spec_pitch_within_octave (scale : list Z) (base d : Z) :
  In scale SCALES -> -7 <= d <= 7 ->
  base - 12 <= spec_pitch scale base d <= base + 12.
Proof.
  intros Hin Hd.
  destruct (spec_pitch_ends scale base Hin) as (Elo & Ehi).
  assert (Hlo : spec_pitch scale base (-7) <= spec_pitch scale base d).
  { destruct (Z.eq_dec d (-7)) as [->|Hne]; [lia|].
    pose proof (spec_pitch_increasing scale base (-7) d Hin). lia. }
  assert (Hhi : spec_pitch scale base d <= spec_pitch scale base 7).
  { destruct (Z.eq_dec d 7) as [->|Hne]; [lia|].
    pose proof (spec_pitch_increasing scale base d 7 Hin). lia. }
  lia.
Qed.

(** The pitches of an accepted sequence, in one of the tables of
    [common/scales.py]. *)
Lemma accepted_get_notes (w : World) (length : Z) (scale : list Z)
      (base_note : Z) :
  fst (make_notes length scale w) = Ok tt -> In scale SCALES ->
  let w' := snd (make_notes length scale w) in
  let pitches := map (spec_pitch scale base_note) (_degrees (self w')) in
  get_notes base_note w' = (Ok pitches, w') /\
  List.length pitches = Z.to_nat length /\
  8 <= length <= 16 /\
  forall p, In p pitches -> base_note - 12 <= p <= base_note + 12.
Proof.
  intros Hok Hin w' pitches.
  destruct (scales_rooted scale Hin) as (Hlen & _).
  destruct (make_notes_accepted length scale w Hok)
    as (Hr & Hacc & Hscale & _).
  fold w' in Hacc, Hscale.
  pose proof (cmp_degrees _ _ (acc_completed _ _ Hacc)) as Hdg.
  pose proof (completed_nonempty _ _ (acc_completed _ _ Hacc)) as Hne.
  unfold Py.len in Hdg.
  assert (Hb : forall d, In d (_degrees (self w')) -> -7 <= d <= 7)
    by (intros d; apply (accepted_degree_bound _ _ d Hacc)).
  split.
  { rewrite get_notes_nonempty by exact Hne.
    rewrite (get_notes_loop_spec _ scale base_note _ [] Hscale Hlen);
      [reflexivity|].
    intros d Hd. specialize (Hb d Hd). lia. }
  split; [unfold pitches; rewrite length_map; lia|]. split; [exact Hr|].
  intros p Hp. apply in_map_iff in Hp. destruct Hp as (d & <- & Hd).
  apply spec_pitch_within_octave; [exact Hin|now apply Hb].
Qed.

(** X11.  After a successful [make_notes] with one of the scale tables of
    [common/scales.py], the pitches returned by [get_notes] stay within an
    octave of the base note, and a higher degree always resolves to a
    higher pitch: the melody keeps its contour and its single climax. *)
Theorem accepted_pitches_ordered (w : World) (length : Z) (scale : list Z)
        (base_note : Z) :
  fst (make_notes length scale w) = Ok tt -> In scale SCALES ->
  let w' := snd (make_notes length scale w) in
  exists pitches,
    get_notes base_note w' = (Ok pitches, w') /\
    List.length pitches = Z.to_nat length /\
    (forall i : nat,
        Z.of_nat i < length ->
        base_note - 12 <= nth i pitches 0 <= base_note + 12) /\
    (forall i j : nat,
        Z.of_nat i < length -> Z.of_nat j < length ->
        nth i (_degrees (self w')) 0 < nth j (_degrees (self w')) 0 ->
        nth i pitches 0 < nth j pitches 0).
Proof.
  intros Hok Hin w'.
  destruct (scales_rooted scale Hin) as (Hlen & _).
  destruct (make_notes_accepted length scale w Hok)
    as (Hr & Hacc & Hscale & _).
  fold w' in Hacc, Hscale.
  pose proof (cmp_degrees _ _ (acc_completed _ _ Hacc)) as Hdg.
  pose proof (completed_nonempty _ _ (acc_completed _ _ Hacc)) as Hne.
  unfold Py.len in Hdg.
  assert (Hb : forall d, In d (_degrees (self w')) -> -7 <= d <= 7)
    by (intros d; apply (accepted_degree_bound _ _ d Hacc)).
  exists (map (spec_pitch scale base_note) (_degrees (self w'))).
  assert (Hnth : forall i : nat,
             Z.of_nat i < length ->
             nth i (map (spec_pitch scale base_note) (_degrees (self w'))) 0
             = spec_pitch scale base_note (nth i (_degrees (self w')) 0) /\
             -7 <= nth i (_degrees (self w')) 0 <= 7).
  { intros i Hi. split.
    - rewrite (nth_indep _ 0 (spec_pitch scale base_note 0))
        by (rewrite length_map; lia).
      apply map_nth.
    - apply Hb. apply nth_In. lia. }
  split.
  { rewrite get_notes_nonempty by exact Hne.
    rewrite (get_notes_loop_spec _ scale base_note _ [] Hscale Hlen);
      [reflexivity|].
    intros d Hd. specialize (Hb d Hd). lia. }
  split; [rewrite length_map; lia|]. split.
  - intros i Hi. destruct (Hnth i Hi) as (-> & Hd).
    destruct (spec_pitch_ends scale base_note Hin) as (Elo & Ehi).
    set (d := nth i (_degrees (self w')) 0) in *.
    assert (Hlo : spec_pitch scale base_note (-7)
                  <= spec_pitch scale base_note d).
    { destruct (Z.eq_dec d (-7)) as [->|Hne']; [lia|].
      pose proof (spec_pitch_increasing scale base_note (-7) d Hin). lia. }
    assert (Hhi : spec_pitch scale base_note d
                  <= spec_pitch scale base_note 7).
    { destruct (Z.eq_dec d 7) as [->|Hne']; [lia|].
      pose proof (spec_pitch_increasing scale base_note d 7 Hin). lia. }
    lia.
  - intros i j Hi Hj Hlt.
    destruct (Hnth i Hi) as (-> & Hdi). destruct (Hnth j Hj) as (-> & Hdj).
    apply spec_pitch_increasing; [exact Hin|lia|exact Hlt|lia].
Qed.

Lemma accepted_pitches_ordered_witness :
  let w := fresh_world leading_tone_tape in
  fst (make_notes 8 MAJOR_SCALE w) = Ok tt /\ In MAJOR_SCALE SCALES /\
  exists pitches,
    get_notes 60 (snd (make_notes 8 MAJOR_SCALE w))
    = (Ok pitches, snd (make_notes 8 MAJOR_SCALE w)) /\
    List.length pitches = 8%nat.
Proof.
  intros w. split; [vm_compute; reflexivity|]. split; [now left|].
  destruct (accepted_pitches_ordered w 8 MAJOR_SCALE 60)
    as (pitches & Hget & Hlen & _); [vm_compute; reflexivity|now left|].
  exists pitches. split; [exact Hget|exact Hlen].
Defined.

(** ** Slopes and draws *)

(** X18.  After a successful [make_notes] the sequence contains four
    consecutive notes that rise, or four that fall: the run of three equal
    directions that [_check_rule_8] found starts at one of the positions
    [1 .. L-4]. *)
Theorem accepted_has_slope (w : World) (length : Z) (scale : list Z) :
  fst (make_notes length scale w) = Ok tt ->
  let s := self (snd (make_notes length scale w)) in
  exists i : nat,
    1 <= Z.of_nat i <= length - 4 /\
    same_sign_run (_directions s) i /\
    ((nth (i - 1) (_degrees s) 0 < nth i (_degrees s) 0 /\
      nth i (_degrees s) 0 < nth (i + 1) (_degrees s) 0 /\
      nth (i + 1) (_degrees s) 0 < nth (i + 2) (_degrees s) 0) \/
     (nth (i - 1) (_degrees s) 0 > nth i (_degrees s) 0 /\
      nth i (_degrees s) 0 > nth (i + 1) (_degrees s) 0 /\
      nth (i + 1) (_degrees s) 0 > nth (i + 2) (_degrees s) 0)).
Proof.
  intros Hok s.
  destruct (make_notes_accepted length scale w Hok) as (Hr & Hacc & _).
  fold s in Hacc.
  pose proof (acc_completed _ _ Hacc) as Hcmp.
  pose proof (acc_generated _ _ Hacc) as Hgen.
  pose proof (cmp_degrees _ _ Hcmp) as Hdg. unfold Py.len in Hdg.
  pose proof (acc_rules _ _ Hacc) as Hrules.
  apply check_rules_true in Hrules.
  destruct Hrules as (_ & _ & _ & _ & H8 & _).
  destruct (check_rule_8_run s length (cmp_degrees _ _ Hcmp)
                             (cmp_directions _ _ Hcmp))
    as (b & Hrun & Hiff).
  rewrite Hrun in H8. injection H8 as ->.
  destruct Hiff as [Hscan _]. specialize (Hscan eq_refl).
  apply (scanned_coherence_generated s length Hgen) in Hscan.
  destruct Hscan as (i & Hi & Hslope).
  exists i. split; [exact Hi|]. split; [exact Hslope|].
  destruct (gen_steps _ Hgen i ltac:(lia)) as [_ M0 S0 D0 _ _].
  destruct (gen_steps _ Hgen (i + 1)%nat ltac:(lia)) as [_ M1 S1 D1 _ _].
  destruct (gen_steps _ Hgen (i + 2)%nat ltac:(lia)) as [_ M2 S2 D2 _ _].
  replace (i + 1 - 1)%nat with i in D1 by lia.
  replace (i + 2 - 1)%nat with (i + 1)%nat in D2 by lia.
  destruct Hslope as [(E0 & E1 & E2)|(E0 & E1 & E2)];
    rewrite E0 in S0; rewrite E1 in S1; rewrite E2 in S2; [left|right]; lia.
Qed.

Lemma accepted_has_slope_witness :
  let w := fresh_world leading_tone_tape in
  fst (make_notes 8 MAJOR_SCALE w) = Ok tt /\
  exists i : nat,
    1 <= Z.of_nat i <= 8 - 4 /\
    same_sign_run
      (_directions (self (snd (make_notes 8 MAJOR_SCALE w)))) i.
Proof.
  intros w. split; [vm_compute; reflexivity|].
  destruct (accepted_has_slope w 8 MAJOR_SCALE) as (i & Hi & Hrun & _);
    [vm_compute; reflexivity|].
  exists i. split; [exact Hi|exact Hrun].
Defined.

(** One generator step reads its magnitude from the tape, and its
    direction too unless that is forced: one or two draws. *)
Lemma make_next_note_draws (w : World) (n : nat) :
  (1 <= n)%nat ->
  length (_degrees (self w)) = n ->
  length (_intervals (self w)) = n ->
  length (_directions (self w)) = n ->
  (cursor w + 1 <= cursor (snd (_make_next_note (Z.of_nat n) w))
   <= cursor w + 2)%nat.
Proof.
  intros Hn Hdg Hiv Hdr.
  assert (Hne : interval_choices (_intervals (self w)) n <> []).
  { unfold interval_choices. now destruct (_ && _). }
  destruct (random_choice_in _ w Hne) as (m & Hm & Hrun).
  assert (Hc : exists c,
             cursor (snd (_make_next_note (Z.of_nat n) w)) = c /\
             (cursor w + 1 <= c <= cursor w + 2)%nat).
  { unfold _make_next_note, bind at 1.
    rewrite (choose_interval_run w n Hiv Hn), Hrun.
    unfold bind at 1.
    rewrite (choose_direction_run (advance w) n Hiv Hdr Hn).
    cbn [self advance].
    replace (Z.of_nat n - 1) with (Z.of_nat (n - 1)) by lia.
    destruct ((2 <=? n)%nat && leap (nth (n - 1) (_intervals (self w)) 0)).
    - run_monad. cbn [self advance tape cursor].
      rewrite (getitem_nth _ (n - 1) 0) by lia. cbn [snd cursor].
      eexists. split; [reflexivity|lia].
    - assert (Hdirs : [1; -1] <> []) by discriminate.
      destruct (random_choice_in [1; -1] (advance w) Hdirs)
        as (d & Hd & Hrun').
      rewrite Hrun'.
      run_monad. cbn [self advance tape cursor].
      rewrite (getitem_nth _ (n - 1) 0) by lia. cbn [snd cursor].
      eexists. split; [reflexivity|lia]. }
  destruct Hc as (c & -> & Hc). exact Hc.
Qed.

Lemma for_each_note_draws (k n : nat) (w : World) :
  generated (self w) -> length (_degrees (self w)) = n ->
  exists c,
    cursor (snd (for_each (Py.range (Z.of_nat n) (Z.of_nat (n + k)))
                          note_step w)) = c /\
    (cursor w + k <= c <= cursor w + 2 * k)%nat.
Proof.
  revert n w. induction k as [|k IH]; intros n w Hgen Hlen.
  - rewrite Nat.add_0_r, range_empty by lia. cbn.
    eexists. split; [reflexivity|lia].
  - rewrite range_cons by lia. cbn [for_each].
    pose proof (gen_nonempty _ Hgen) as Hne.
    pose proof (gen_intervals _ Hgen) as Hiv.
    pose proof (gen_directions _ Hgen) as Hdr.
    pose proof (make_next_note_draws w n ltac:(lia) Hlen ltac:(lia)
                                     ltac:(lia)) as Hdraw.
    destruct (make_next_note_run w n) as (m & d & c & Hm & Hd & Hc & Hrun);
      try lia.
    rewrite Hrun in Hdraw. cbn [snd cursor] in Hdraw.
    unfold bind at 1. unfold note_step at 1. unfold bind at 1. rewrite Hrun.
    unfold ret at 1.
    set (w1 := {| self := _; tape := tape w; cursor := c |}).
    assert (Hgen1 : generated (self w1)).
    { subst w1. cbn [self]. rewrite <- Hlen.
      apply generated_push; rewrite ?Hlen; auto. }
    assert (Hlen1 : length (_degrees (self w1)) = S n).
    { subst w1. cbn. rewrite length_app. cbn. lia. }
    destruct (IH (S n) w1 Hgen1 Hlen1) as (c' & Hc' & Hb).
    replace (Z.of_nat n + 1) with (Z.of_nat (S n)) by lia.
    replace (n + S k)%nat with (S n + k)%nat by lia.
    exists c'. split; [exact Hc'|].
    subst w1. cbn [cursor] in Hb. lia.
Qed.

(** X19.  Building one attempt of [L] notes consumes at least [L - 1] and
    at most [2 * (L - 1)] draws and leaves the tape as it was: each of the
    [L - 1] steps draws a magnitude, and a direction unless a leap forces
    it. *)
Theorem attempt_draws (w : World) (L : Z) :
  _length (self w) = Some L -> 1 <= L ->
  tape (snd (attempt w)) = tape w /\
  Z.of_nat (cursor w) + (L - 1)
  <= Z.of_nat (cursor (snd (attempt w)))
  <= Z.of_nat (cursor w) + 2 * (L - 1).
Proof.
  intros HL H1.
  destruct (attempt_run w L HL H1) as (w' & Hatt & _ & _ & _ & Htape & _).
  split; [now rewrite Hatt|].
  destruct (for_each_note_draws (Z.to_nat L - 1) 1 (seeded w)
                                (generated_seed _) eq_refl)
    as (c & Hc & Hb).
  replace (Z.of_nat (1 + (Z.to_nat L - 1))) with L in Hc by lia.
  change (Z.of_nat 1) with 1 in Hc.
  assert (Hrun : attempt w = for_each (Py.range 1 L) note_step (seeded w)).
  { unfold attempt, bind, modify_self, get_self, lift.
    cbn [self tape cursor]. unfold length_of.
    cbn [_length set_degrees set_intervals set_directions]. rewrite HL.
    reflexivity. }
  rewrite Hrun, Hc. cbn [seeded cursor] in Hb. lia.
Qed.

Lemma attempt_draws_witness :
  let w := start_world 8 MAJOR_SCALE (fresh_world leaping_tape) in
  _length (self w) = Some 8 /\ 1 <= 8 /\
  Z.of_nat (cursor (snd (attempt w))) <= 14.
Proof.
  intros w. split; [reflexivity|]. split; [lia|].
  destruct (attempt_draws w 8 eq_refl ltac:(lia)) as (_ & _ & Hhi).
  exact Hhi.
Defined.

(** ** Note names *)

Module NoteNameFacts.
Import String Ascii NoteName.
Local Open Scope string_scope.

Lemma py_str_head (n : Z) :
  exists c rest, py_str n = String c rest /\ c <> "#"%char.
Proof.
  unfold py_str. destruct (Z.to_int n) as [d|d]; cbn.
  - destruct d; cbn; eexists; eexists; split; try reflexivity; discriminate.
  - eexists; eexists; split; [reflexivity|discriminate].
Qed.

Lemma py_str_inj (n m : Z) : py_str n = py_str m -> n = m.
Proof.
  unfold py_str. intros E.
  assert (Hparse : forall z,
             DecimalString.NilZero.int_of_string
               (DecimalString.NilZero.string_of_int (Z.to_int z))
             = Some (Z.to_int z)).
  { intros z. apply DecimalString.NilZero.isi; destruct z; cbn;
      try discriminate; intros [= H];
      now apply DecimalPos.Unsigned.to_uint_nonnil in H. }
  apply DecimalZ.to_int_inj.
  pose proof (Hparse n) as Hn. rewrite E, Hparse in Hn. congruence.
Qed.

Lemma pitch_class_cases (note : Z) :
  let p := note mod 12 in
  p = 0 \/ p = 1 \/ p = 2 \/ p = 3 \/ p = 4 \/ p = 5 \/
  p = 6 \/ p = 7 \/ p = 8 \/ p = 9 \/ p = 10 \/ p = 11.
Proof.
  intros p. pose proof (Z.mod_pos_bound note 12 ltac:(lia)). subst p. lia.
Qed.

(** X12.  The name of a note is one of the twelve letters of the table,
    never the default ["?"], followed by the decimal octave [note // 12];
    twelve semitones higher the letter is the same and the octave one
    more. *)
Theorem note_to_letter_names (note : Z) :
  exists name,
    In name (map snd LETTERS) /\ name <> "?" /\
    note_to_letter note = name ++ py_str (note / 12) /\
    note_to_letter (note + 12) = name ++ py_str (note / 12 + 1).
Proof.
  unfold note_to_letter. cbv zeta.
  replace ((note + 12) mod 12) with (note mod 12)
    by (rewrite <- (Z.mod_add note 1 12) by lia; f_equal; lia).
  replace ((note + 12) / 12) with (note / 12 + 1)
    by (rewrite <- (Z.div_add note 1 12) by lia; f_equal; lia).
  exists (dict_get LETTERS (note mod 12) "?").
  split; [|split; [|split; reflexivity]];
    destruct (pitch_class_cases note) as
      [E|[E|[E|[E|[E|[E|[E|[E|[E|[E|[E|E]]]]]]]]]]];
    rewrite E; cbn; try discriminate; tauto.
Qed.

(** X13.  Distinct notes have distinct names: the letter gives the pitch
    class and the digits after it the octave. *)
Theorem note_to_letter_injective (n m : Z) :
  note_to_letter n = note_to_letter m -> n = m.
Proof.
  unfold note_to_letter. cbv zeta. intros E.
  assert (Hsplit : n mod 12 = m mod 12 /\ n / 12 = m / 12).
  { destruct (py_str_head (n / 12)) as (c & r & Hc & Nc).
    destruct (py_str_head (m / 12)) as (c' & r' & Hc' & Nc').
    destruct (pitch_class_cases n) as
      [P|[P|[P|[P|[P|[P|[P|[P|[P|[P|[P|P]]]]]]]]]]];
      destruct (pitch_class_cases m) as
        [Q|[Q|[Q|[Q|[Q|[Q|[Q|[Q|[Q|[Q|[Q|Q]]]]]]]]]]];
      rewrite P, Q in E |- *; cbn in E;
      try discriminate E;
      try (split; [reflexivity|]; apply py_str_inj; congruence);
      exfalso; rewrite ?Hc, ?Hc' in E; congruence. }
  destruct Hsplit as [Hmod Hdiv].
  rewrite (Z.div_mod n 12), (Z.div_mod m 12) by lia. congruence.
Qed.

Lemma note_to_letter_injective_witness :
  note_to_letter 61 = "C#5" /\ note_to_letter 61 = note_to_letter 61 /\
  61 = 61.
Proof.
  split; [reflexivity|]. split; [reflexivity|].
  apply (note_to_letter_injective 61 61). reflexivity.
Defined.

End NoteNameFacts.

(** ** The MIDI device and the script *)

Module MidiFacts.
Import String Ascii NoteName Midi.
Local Open Scope string_scope.

Lemma transmitted_prefix (midi_out : MidiOut) (messages : list (list Z))
      (port : Port) :
  exists k : nat,
    (k <= List.length messages)%nat /\
    transmitted midi_out port messages = firstn k messages.
Proof.
  revert port. induction messages as [|m rest IH]; intros port.
  - exists 0%nat. split; [cbn; lia|reflexivity].
  - cbn [transmitted]. destruct (accepts midi_out port m).
    + destruct (IH (port ++ [m])%list) as (k & Hk & ->).
      exists (S k). split; [cbn; lia|reflexivity].
    + exists 0%nat. split; [cbn; lia|reflexivity].
Qed.

Lemma accepts_all_transmitted (midi_out : MidiOut)
      (messages : list (list Z)) (port : Port) :
  accepts_all midi_out port messages = true <->
  transmitted midi_out port messages = messages.
Proof.
  revert port. induction messages as [|m rest IH]; intros port.
  - split; reflexivity.
  - cbn [accepts_all transmitted]. destruct (accepts midi_out port m).
    + cbn [andb]. rewrite IH. split; congruence.
    + split; discriminate.
Qed.

Lemma accepts_all_midi (midi_out : MidiOut) (messages : list (list Z))
      (port : Port) :
  (forall port message,
      midi_message message = true -> accepts midi_out port message = true) ->
  (forall message, In message messages -> midi_message message = true) ->
  accepts_all midi_out port messages = true.
Proof.
  intros Hdrv. revert port.
  induction messages as [|m rest IH]; intros port Hall; [reflexivity|].
  cbn [accepts_all].
  rewrite (Hdrv port m) by (apply Hall; now left).
  apply IH. intros message Hin. apply Hall. now right.
Qed.

(** Sending a list of messages one after the other. *)
Lemma send_each (midi_out : MidiOut) {A : Type} (f : A -> list Z)
      (xs : list A) (port : Port) :
  for_in xs (fun x => send_message midi_out (f x)) port
  = (if accepts_all midi_out port (map f xs)
     then Python (Ok tt) else RtMidiError,
     (port ++ transmitted midi_out port (map f xs))%list).
Proof.
  revert port. induction xs as [|x rest IH]; intros port.
  - cbn. now rewrite app_nil_r.
  - cbn [for_in map accepts_all transmitted].
    unfold and_then, send_message at 1.
    destruct (accepts midi_out port (f x)).
    + rewrite IH. cbn [andb]. now rewrite <- app_assoc.
    + cbn [andb]. now rewrite app_nil_r.
Qed.

Lemma getitem_instrument (instrument : Z) :
  (-128 <= instrument <= 127 ->
   exists name, Py.getitem GM_INSTRUMENTS instrument = Ok name) /\
  (instrument < -128 \/ 127 < instrument ->
   Py.getitem GM_INSTRUMENTS instrument = Raise IndexError).
Proof.
  assert (Hlen : Py.len GM_INSTRUMENTS = 128) by reflexivity.
  split.
  - intros Hi. destruct (Z_lt_dec instrument 0).
    + eexists. apply (getitem_neg _ _ ""). rewrite Hlen. lia.
    + eexists. apply (getitem_pos _ _ ""). rewrite Hlen. lia.
  - intros [Hlo|Hhi]; unfold Py.getitem; rewrite Hlen.
    + destruct (Z.ltb_spec instrument 0); [|lia].
      destruct (Z.ltb_spec (instrument + 128) 0); [reflexivity|lia].
    + destruct (Z.ltb_spec instrument 0); [lia|].
      destruct (Z.ltb_spec instrument 0); [lia|].
      destruct (Z.leb_spec 128 instrument); [reflexivity|lia].
Qed.

Lemma set_instrument_run (midi_out : MidiOut)
      (channel instrument msb lsb : Z) (port : Port) :
  let messages := [[176 + channel; 0; msb]; [176 + channel; 32; lsb];
                   [192 + channel; instrument; 0]] in
  set_instrument midi_out channel instrument msb lsb port
  = (if accepts_all midi_out port messages
     then Python (rbind (Py.getitem GM_INSTRUMENTS instrument)
                        (fun _ => Ok tt))
     else RtMidiError,
     (port ++ transmitted midi_out port messages)%list).
Proof.
  cbv zeta. unfold set_instrument, and_then, send_message.
  cbn [accepts_all transmitted].
  destruct (accepts midi_out port _); cbn [andb];
    [|now rewrite app_nil_r].
  destruct (accepts midi_out (port ++ _)%list _); cbn [andb];
    [|reflexivity].
  destruct (accepts midi_out ((port ++ _) ++ _)%list _); cbn [andb];
    [|now rewrite <- !app_assoc].
  now rewrite <- !app_assoc.
Qed.

(** X14.  [set_instrument] hands three messages to the driver, in order:
    bank select MSB, bank select LSB and program change.  It stops at the
    first one the driver refuses, with the driver's exception; what was
    transmitted is then a proper prefix of the three.  When the driver
    transmits all three, the method returns normally exactly when the
    instrument number subscripts the table of 128 names, that is from -128
    to 127, and otherwise raises [IndexError], the three messages having
    been transmitted all the same. *)
Theorem set_instrument_messages (midi_out : MidiOut)
        (channel instrument msb lsb : Z) (port : Port) :
  let messages := [[176 + channel; 0; msb]; [176 + channel; 32; lsb];
                   [192 + channel; instrument; 0]] in
  let run := set_instrument midi_out channel instrument msb lsb port in
  snd run = (port ++ transmitted midi_out port messages)%list /\
  (exists k : nat,
      (k <= 3)%nat /\ transmitted midi_out port messages = firstn k messages) /\
  (fst run = Python (Ok tt) <->
   accepts_all midi_out port messages = true /\ -128 <= instrument <= 127) /\
  (fst run = Python (Raise IndexError) <->
   accepts_all midi_out port messages = true /\
   (instrument < -128 \/ 127 < instrument)) /\
  (fst run = RtMidiError <-> accepts_all midi_out port messages = false) /\
  (accepts_all midi_out port messages = true ->
   snd run = (port ++ messages)%list).
Proof.
  intros messages run.
  destruct (getitem_instrument instrument) as (Hin & Hout).
  pose proof (set_instrument_run midi_out channel instrument msb lsb port)
    as Hrun.
  cbv zeta in Hrun. fold messages run in Hrun.
  rewrite Hrun. cbn [fst snd].
  split; [reflexivity|].
  split; [apply (transmitted_prefix midi_out messages port)|].
  destruct (accepts_all midi_out port messages) eqn:Hall.
  - apply accepts_all_transmitted in Hall.
    destruct (Z_lt_dec instrument (-128)) as [Hlo|Hlo];
      [|destruct (Z_lt_dec 127 instrument) as [Hhi|Hhi]].
    + rewrite Hout by lia. cbn [rbind].
      repeat split; try discriminate; try lia; intuition (try lia).
      now rewrite Hall.
    + rewrite Hout by lia. cbn [rbind].
      repeat split; try discriminate; try lia; intuition (try lia).
      now rewrite Hall.
    + destruct Hin as (name & ->); [lia|]. cbn [rbind].
      repeat split; try discriminate; try lia; intuition (try lia);
        try discriminate.
      now rewrite Hall.
  - repeat split; try discriminate; intuition (try discriminate).
Qed.

(** X15.  [all_notes_off] hands sixteen messages to the driver: for each
    channel from 0 to 15, in order, the controller 123 with value 0 on the
    status byte [176 + channel].  Each is a well-formed channel message.
    The loop stops at the first message the driver refuses; a driver that
    transmits them all, as one that transmits every well-formed message
    does, gets the sixteen after those already sent, and the method
    returns. *)
Theorem all_notes_off_messages (midi_out : MidiOut) (port : Port) :
  exists messages,
    List.length messages = 16%nat /\
    (forall k : nat,
        (k < 16)%nat -> nth k messages [] = [176 + Z.of_nat k; 123; 0]) /\
    (forall message, In message messages -> midi_message message = true) /\
    snd (all_notes_off midi_out port)
    = (port ++ transmitted midi_out port messages)%list /\
    (accepts_all midi_out port messages = true ->
     all_notes_off midi_out port = (Python (Ok tt), (port ++ messages)%list)) /\
    (accepts_all midi_out port messages = false ->
     fst (all_notes_off midi_out port) = RtMidiError) /\
    ((forall port message,
         midi_message message = true ->
         accepts midi_out port message = true) ->
     all_notes_off midi_out port = (Python (Ok tt), (port ++ messages)%list)).
Proof.
  exists (map (fun ch => [176 + ch; 123; 0]) (Py.range 0 16)).
  assert (Hwf : forall message,
             In message (map (fun ch => [176 + ch; 123; 0]) (Py.range 0 16)) ->
             midi_message message = true).
  { intros message Hin. apply in_map_iff in Hin.
    destruct Hin as (ch & <- & Hch). apply in_range in Hch.
    unfold midi_message.
    repeat (apply andb_true_intro; split); apply Z.leb_le; lia. }
  assert (Hsent : forall E : accepts_all midi_out port
                     (map (fun ch => [176 + ch; 123; 0]) (Py.range 0 16))
                   = true,
             all_notes_off midi_out port
             = (Python (Ok tt),
                (port ++ map (fun ch => [176 + ch; 123; 0])
                             (Py.range 0 16))%list)).
  { intros E. unfold all_notes_off. rewrite send_each, E.
    apply accepts_all_transmitted in E. now rewrite E. }
  split; [reflexivity|]. split.
  { intros k Hk. do 16 (destruct k as [|k]; [reflexivity|]). lia. }
  split; [exact Hwf|]. split.
  { unfold all_notes_off. now rewrite send_each. }
  split; [exact Hsent|]. split.
  { intros E. unfold all_notes_off. now rewrite send_each, E. }
  intros Hdrv. apply Hsent. now apply accepts_all_midi.
Qed.

Lemma accepts_all_app (midi_out : MidiOut) (xs ys : list (list Z))
      (port : Port) :
  accepts_all midi_out port (xs ++ ys)
  = accepts_all midi_out port xs
    && accepts_all midi_out (port ++ xs)%list ys.
Proof.
  revert port. induction xs as [|x rest IH]; intros port.
  - cbn. now rewrite app_nil_r.
  - cbn [app accepts_all]. rewrite IH, <- app_assoc. cbn [app].
    now rewrite andb_assoc.
Qed.

Lemma transmitted_app (midi_out : MidiOut) (xs ys : list (list Z))
      (port : Port) :
  transmitted midi_out port (xs ++ ys)
  = if accepts_all midi_out port xs
    then (xs ++ transmitted midi_out (port ++ xs)%list ys)%list
    else transmitted midi_out port xs.
Proof.
  revert port. induction xs as [|x rest IH]; intros port.
  - cbn. now rewrite app_nil_r.
  - cbn [app accepts_all transmitted].
    destruct (accepts midi_out port x); cbn [andb]; [|reflexivity].
    rewrite IH, <- app_assoc. cbn [app].
    now destruct (accepts_all midi_out (port ++ [x])%list rest).
Qed.

(** The playing loop transmits the note-on and note-off of each pitch in
    turn, up to the first message the driver refuses. *)
Lemma play_run (midi_out : MidiOut) (midi_notes : list Z)
      (text : list string) (port : Port) :
  let messages :=
    flat_map (fun n => [[144; n; 127]; [128; n; 127]]) midi_notes in
  snd (play midi_out midi_notes text port)
  = (port ++ transmitted midi_out port messages)%list /\
  (accepts_all midi_out port messages = true ->
   play midi_out midi_notes text port
   = (Python (Ok tt),
      (text ++ map (fun n => (note_to_letter n ++ " ")%string)
                   midi_notes)%list,
      (port ++ messages)%list)) /\
  (accepts_all midi_out port messages = false ->
   fst (fst (play midi_out midi_notes text port)) = RtMidiError).
Proof.
  cbv zeta. revert text port.
  induction midi_notes as [|n rest IH]; intros text port.
  - cbn. rewrite !app_nil_r. repeat split; discriminate.
  - cbn [play flat_map app accepts_all transmitted map].
    unfold and_then, note_on, note_off, send_message.
    change (144 + 0) with 144. change (128 + 0) with 128.
    destruct (accepts midi_out port [144; n; 127]); cbn [andb];
      [|rewrite app_nil_r; repeat split; discriminate].
    destruct (accepts midi_out (port ++ [[144; n; 127]])%list
                      [128; n; 127]); cbn [andb];
      [|repeat split; discriminate].
    destruct (IH (text ++ [(note_to_letter n ++ " ")%string])%list
                 ((port ++ [[144; n; 127]]) ++ [[128; n; 127]])%list)
      as (Hsnd & Hok & Hbad).
    split; [|split].
    + rewrite Hsnd, <- !app_assoc. reflexivity.
    + intros E. rewrite (Hok E), <- !app_assoc. reflexivity.
    + exact Hbad.
Qed.

Lemma chosen_scale (args : Args) :
  major args = true \/ minor args = true ->
  (if minor args then Some MINOR_SCALE
   else if major args then Some MAJOR_SCALE else None)
  = Some (if minor args then MINOR_SCALE else MAJOR_SCALE) /\
  In (if minor args then MINOR_SCALE else MAJOR_SCALE) SCALES.
Proof.
  intros H. destruct (minor args), (major args); cbn; intuition congruence.
Qed.

Lemma main_unfold (midi_out : MidiOut) (args : Args) (t : nat -> nat)
      (scale : list Z) :
  (if minor args then Some MINOR_SCALE
   else if major args then Some MAJOR_SCALE else None) = Some scale ->
  main midi_out args t
  = match make_notes (length args) scale (fresh_world t) with
    | (Ok _, cf) =>
        let text :=
          ["Generated in " ++ py_str (_cycles (self cf)) ++ " cycles"
           ++ newline] in
        match get_notes (base_note args) cf with
        | (Ok midi_notes, _) =>
            match init midi_out 0 with
            | Python (Ok _) =>
                match set_instrument midi_out 0 52 0 0 [] with
                | (Python (Ok _), port) =>
                    match play midi_out midi_notes text port with
                    | (Python (Ok _), text, port) =>
                        {| status := Finished;
                           printed :=
                             (text ++ [(newline ++ newline)%string])%list;
                           sent := port |}
                    | (o, text, port) =>
                        {| status := ending_of_outcome o;
                           printed := text; sent := port |}
                    end
                | (o, port) =>
                    {| status := ending_of_outcome o;
                       printed := text; sent := port |}
                end
            | o =>
                {| status := ending_of_outcome o;
                   printed := text; sent := [] |}
            end
        | (r, _) =>
            {| status := ending_of r; printed := text; sent := [] |}
        end
    | (r, _) => {| status := ending_of r; printed := []; sent := [] |}
    end.
Proof.
  intros E. unfold main.
  replace (if minor args then Some MINOR_SCALE
           else if major args then Some MAJOR_SCALE else None)
    with (Some scale). reflexivity.
Qed.

(** X16.  Started with a length outside 8..16, the script dies of the
    configuration error before it prints anything or opens the device: no
    message is sent, whatever the driver. *)
Theorem main_rejects_length (midi_out : MidiOut) (args : Args)
        (t : nat -> nat) :
  length args < 8 \/ 16 < length args ->
  major args = true \/ minor args = true ->
  main midi_out args t
  = {| status := Died ConfigurationError; printed := []; sent := [] |}.
Proof.
  intros Hbad Hflag. destruct (chosen_scale args Hflag) as (Hscale & _).
  rewrite (main_unfold midi_out args t _ Hscale).
  now rewrite make_notes_invalid by exact Hbad.
Qed.

Lemma main_rejects_length_witness :
  let args := {| length := 17; base_note := 60; major := true;
                 minor := false |} in
  (length args < 8 \/ 16 < length args) /\
  (major args = true \/ minor args = true) /\
  sent (main one_port args zero_tape) = [].
Proof.
  intros args. split; [right; cbn; lia|]. split; [now left|].
  rewrite (main_rejects_length one_port args zero_tape);
    [reflexivity|right; cbn; lia|now left].
Defined.

Lemma flat_map_pairs_length {A B : Type} (f g : A -> B) (l : list A) :
  List.length (flat_map (fun x => [f x; g x]) l) = (2 * List.length l)%nat.
Proof.
  induction l as [|x l IH]; [reflexivity|].
  cbn [flat_map List.length app]. rewrite IH. lia.
Qed.

(** What the script does once the pitches are resolved. *)
Lemma main_with_pitches (midi_out : MidiOut) (args : Args) (t : nat -> nat)
      (scale : list Z) (cf : World) (pitches : list Z) :
  (if minor args then Some MINOR_SCALE
   else if major args then Some MAJOR_SCALE else None) = Some scale ->
  make_notes (length args) scale (fresh_world t) = (Ok tt, cf) ->
  get_notes (base_note args) cf = (Ok pitches, cf) ->
  let line := ("Generated in " ++ py_str (_cycles (self cf)) ++ " cycles"
               ++ newline)%string in
  (init midi_out 0 <> Python (Ok tt) ->
   main midi_out args t
   = {| status := ending_of_outcome (init midi_out 0);
        printed := [line]; sent := [] |}) /\
  (init midi_out 0 = Python (Ok tt) ->
   sent (main midi_out args t)
   = transmitted midi_out [] (script_messages pitches) /\
   (accepts_all midi_out [] (script_messages pitches) = true ->
    main midi_out args t
    = {| status := Finished;
         printed :=
           ([line] ++ map (fun n => (note_to_letter n ++ " ")%string) pitches
            ++ [(newline ++ newline)%string])%list;
         sent := script_messages pitches |}) /\
   (accepts_all midi_out [] (script_messages pitches) = false ->
    status (main midi_out args t) = DiedInRtMidi)).
Proof.
  intros Hscale Hmake Hget line.
  rewrite (main_unfold midi_out args t scale Hscale), Hmake.
  cbv zeta. rewrite Hget. fold line.
  split.
  { intros Hinit. destruct (init midi_out 0) as [[[]| |]|];
      try reflexivity. contradiction. }
  intros Hinit. rewrite Hinit.
  pose proof (set_instrument_run midi_out 0 52 0 0 []) as Hset.
  cbv zeta in Hset. change (176 + 0) with 176 in Hset.
  change (192 + 0) with 192 in Hset.
  destruct (getitem_instrument 52) as (Hname & _).
  destruct Hname as (name & Hname); [lia|].
  rewrite Hname in Hset. cbn [rbind app] in Hset. rewrite Hset.
  unfold script_messages.
  set (M3 := [[176; 0; 0]; [176; 32; 0]; [192; 52; 0]]) in *.
  set (rest := flat_map (fun n => [[144; n; 127]; [128; n; 127]]) pitches).
  rewrite accepts_all_app, transmitted_app. cbn [app].
  destruct (accepts_all midi_out [] M3) eqn:E3.
  - apply accepts_all_transmitted in E3. rewrite E3. cbn [andb].
    destruct (play_run midi_out pitches [line] M3) as (Hsnd & Hok & Hbad).
    fold rest in Hsnd, Hok, Hbad.
    destruct (accepts_all midi_out M3 rest) eqn:Er.
    + rewrite (Hok eq_refl). cbn [sent].
      apply accepts_all_transmitted in Er. rewrite Er.
      split; [reflexivity|]. split; [|discriminate].
      intros _. now rewrite <- app_assoc.
    + specialize (Hbad eq_refl).
      destruct (play midi_out pitches [line] M3) as [[o text'] port'].
      cbn [fst snd] in Hbad, Hsnd. subst o port'. cbn [sent status].
      split; [reflexivity|]. split; [discriminate|reflexivity].
  - cbn [andb sent status ending_of_outcome].
    split; [reflexivity|]. split; [discriminate|reflexivity].
Qed.

(** X17.  When [make_notes] accepts a sequence, the script resolves the
    pitches with the scale the flags select (minor if asked for, major
    otherwise) and only then opens the device.  If [Device(0)] fails, the
    script ends with that exception, having printed the cycle count and
    sent nothing.  Otherwise it hands to the driver the three messages of
    [set_instrument(0, 52)] and then, for each pitch in turn, a note-on
    immediately followed by the note-off of the same pitch; what is
    transmitted is this list up to the first message the driver refuses.
    If the driver transmits them all the script finishes, having printed
    the cycle count, one name per pitch and a blank line; if not, it ends
    with the driver's exception.  With a base note from 12 to 115 every
    message of the list is a well-formed channel message. *)
Theorem main_plays_accepted (midi_out : MidiOut) (args : Args)
        (t : nat -> nat) :
  major args = true \/ minor args = true ->
  let scale := if minor args then MINOR_SCALE else MAJOR_SCALE in
  fst (make_notes (length args) scale (fresh_world t)) = Ok tt ->
  let cf := snd (make_notes (length args) scale (fresh_world t)) in
  let pitches := map (spec_pitch scale (base_note args)) (_degrees (self cf)) in
  let line := ("Generated in " ++ py_str (_cycles (self cf)) ++ " cycles"
               ++ newline)%string in
  get_notes (base_note args) cf = (Ok pitches, cf) /\
  List.length pitches = Z.to_nat (length args) /\
  List.length (script_messages pitches)
  = (3 + 2 * Z.to_nat (length args))%nat /\
  (12 <= base_note args <= 115 ->
   forall message,
     In message (script_messages pitches) -> midi_message message = true) /\
  (init midi_out 0 <> Python (Ok tt) ->
   main midi_out args t
   = {| status := ending_of_outcome (init midi_out 0);
        printed := [line]; sent := [] |}) /\
  (init midi_out 0 = Python (Ok tt) ->
   sent (main midi_out args t)
   = transmitted midi_out [] (script_messages pitches) /\
   (accepts_all midi_out [] (script_messages pitches) = true ->
    main midi_out args t
    = {| status := Finished;
         printed :=
           ([line] ++ map (fun n => (note_to_letter n ++ " ")%string) pitches
            ++ [(newline ++ newline)%string])%list;
         sent := script_messages pitches |}) /\
   (accepts_all midi_out [] (script_messages pitches) = false ->
    status (main midi_out args t) = DiedInRtMidi)).
Proof.
  intros Hflag scale Hok cf pitches line.
  destruct (chosen_scale args Hflag) as (Hscale & Hin).
  fold scale in Hscale, Hin.
  destruct (accepted_get_notes (fresh_world t) (length args) scale
                               (base_note args) Hok Hin)
    as (Hget & Hlen & Hr & Hbound).
  fold cf in Hget. fold pitches in Hget, Hlen, Hbound.
  assert (Hlen' : List.length pitches = Z.to_nat (length args)) by exact Hlen.
  split; [exact Hget|]. split; [exact Hlen'|]. split.
  { unfold script_messages.
    rewrite length_app, flat_map_pairs_length, Hlen'. reflexivity. }
  split.
  { intros Hbase message Hmsg. unfold script_messages in Hmsg.
    apply in_app_or in Hmsg. destruct Hmsg as [Hmsg|Hmsg].
    - cbn [In] in Hmsg. destruct Hmsg as [<-|[<-|[<-|[]]]]; reflexivity.
    - apply in_flat_map in Hmsg. destruct Hmsg as (n & Hn & Hmsg).
      specialize (Hbound n Hn).
      destruct Hmsg as [<-|[<-|[]]]; unfold midi_message;
        repeat (apply andb_true_intro; split); apply Z.leb_le; lia. }
  apply (main_with_pitches midi_out args t scale cf pitches Hscale);
    [|exact Hget].
  subst cf. destruct (make_notes _ _ _) as [r cf'].
  cbn [fst] in Hok. subst r. reflexivity.
Qed.

Lemma main_plays_accepted_witness :
  let args := {| length := 8; base_note := 60; major := true;
                 minor := false |} in
  (major args = true \/ minor args = true) /\
  fst (make_notes (length args) MAJOR_SCALE (fresh_world leading_tone_tape))
  = Ok tt /\
  status (main one_port args leading_tone_tape) = Finished /\
  main no_port args leading_tone_tape
  = {| status := DiedInRtMidi;
       printed := [("Generated in 1 cycles" ++ newline)%string];
       sent := [] |}.
Proof.
  intros args. split; [now left|]. split; [vm_compute; reflexivity|].
  split.
  - destruct (main_plays_accepted one_port args leading_tone_tape)
      as (_ & _ & _ & _ & _ & Hopen);
      [now left|vm_compute; reflexivity|].
    destruct (Hopen eq_refl) as (_ & Hall & _).
    rewrite Hall; [reflexivity|vm_compute; reflexivity].
  - destruct (main_plays_accepted no_port args leading_tone_tape)
      as (_ & _ & _ & _ & Hclosed & _);
      [now left|vm_compute; reflexivity|].
    rewrite Hclosed; [vm_compute; reflexivity|discriminate].
Defined.
End MidiFacts.
